(** * Uplink remote-SSH core: a shallow embedding and its properties

    The development follows the TypeScript sources:
    - [serverSetup.ts]: [parseServerInstallOutput], the tail of
      [installCodeServer], [getRemoteFileSize], [verifyRemoteArchiveSize];
    - [serverDownload.ts]: [detectRemoteSystem], [downloadServerOnRemote];
    - [nativeSSHConnection.ts]: the [NativeSSHConnection] class;
    - the identity resolver: the merge loop of [gatherIdentityFiles].

    Strings are sequences of code units; the model uses [string], whose
    units are 8 bits wide.  Numbers that the code only uses as integers
    (ports, sizes, session ids, exit codes) are in [Z]; [NaN] and
    [undefined] are written out as [None] where the code can produce them. *)

From Stdlib Require Import String Ascii ZArith List Lia Bool Sorted.
From stdpp Require Import gmap gmultiset strings list pretty.

Open Scope string_scope.

(** ** JavaScript string primitives used by the sources *)
Module JS.

(** [WhiteSpace] and [LineTerminator] code units below 256:
    TAB, LF, VT, FF, CR, SP, NBSP. *)
Definition isWhiteSpace (c : ascii) : bool :=
  let n := nat_of_ascii c in
  (Nat.eqb n 9 || Nat.eqb n 10 || Nat.eqb n 11 || Nat.eqb n 12
   || Nat.eqb n 13 || Nat.eqb n 32 || Nat.eqb n 160)%bool.

Fixpoint trimStart (s : string) : string :=
  match s with
  | String c s' => if isWhiteSpace c then trimStart s' else s
  | EmptyString => EmptyString
  end.

(** [trimEnd] keeps a unit when it is not white space or when something
    that is kept follows it. *)
Fixpoint trimEnd (s : string) : string :=
  match s with
  | String c s' =>
      match trimEnd s' with
      | EmptyString => if isWhiteSpace c then EmptyString else String c EmptyString
      | t => String c t
      end
  | EmptyString => EmptyString
  end.

(** [String.prototype.trim] *)
Definition trim (s : string) : string := trimEnd (trimStart s).

(** The units of [s] from position [n] on, and its first [n] units. *)
Fixpoint drop (n : nat) (s : string) : string :=
  match n, s with
  | S n', String _ s' => drop n' s'
  | _, _ => s
  end.

Fixpoint take (n : nat) (s : string) : string :=
  match n, s with
  | S n', String c s' => String c (take n' s')
  | _, _ => EmptyString
  end.

(** The first position at which [pat] occurs in [s], where the first
    unit of [s] has position [i]. *)
Fixpoint search (pat s : string) (i : nat) : option nat :=
  if String.prefix pat s then Some i
  else match s with
       | String _ s' => search pat s' (S i)
       | EmptyString => None
       end.

(** [str.indexOf(pat, from)]: the start position is clamped to the
    length; [None] is the [-1] of the source. *)
Definition indexOf (str pat : string) (from : nat) : option nat :=
  let from' := Nat.min from (String.length str) in
  search pat (drop from' str) from'.

(** [str.substring(a, b)]: both ends are clamped to the length and
    swapped when out of order. *)
Definition substring (str : string) (a b : nat) : string :=
  let a' := Nat.min a (String.length str) in
  let b' := Nat.min b (String.length str) in
  take (Nat.max a' b' - Nat.min a' b') (drop (Nat.min a' b') str).

(** [str.lastIndexOf(c)] for a single unit [c], counted from [i]. *)
Fixpoint lastIndexOfFrom (c : ascii) (i : nat) (s : string) : option nat :=
  match s with
  | String d s' =>
      match lastIndexOfFrom c (S i) s' with
      | Some j => Some j
      | None => if Ascii.eqb c d then Some i else None
      end
  | EmptyString => None
  end.

Definition lastIndexOf (s : string) (c : ascii) : option nat := lastIndexOfFrom c 0 s.

(** [str.replace] of every single quote by the four units quote,
    backslash, quote, quote (the shell idiom for a quote inside quotes). *)
Fixpoint escapeQuotes (s : string) : string :=
  match s with
  | String c s' =>
      if Ascii.eqb c "'" then "'\''" ++ escapeQuotes s' else String c (escapeQuotes s')
  | EmptyString => EmptyString
  end.

Definition CR : ascii := ascii_of_nat 13.
Definition LF : ascii := ascii_of_nat 10.

(** The lines of a template literal, joined by LF. *)
Fixpoint joinLines (ls : list string) : string :=
  match ls with
  | [] => EmptyString
  | [l] => l
  | l :: ls' => l ++ String LF (joinLines ls')
  end.

(** [str.includes(pat)] *)
Definition includes (str pat : string) : bool :=
  match indexOf str pat 0 with Some _ => true | None => false end.

(** [str.startsWith(pat)] *)
Definition startsWith (str pat : string) : bool := String.prefix pat str.

(** [str.split(/\r?\n/)]: at each position the pattern consumes a CR
    followed by LF, or a lone LF; [cur] is the piece read so far. *)
Fixpoint splitLinesFrom (cur : string) (s : string) : list string :=
  match s with
  | EmptyString => [cur]
  | String c rest =>
      if Ascii.eqb c LF then cur :: splitLinesFrom EmptyString rest
      else if Ascii.eqb c CR then
        match rest with
        | String d rest' =>
            if Ascii.eqb d LF then cur :: splitLinesFrom EmptyString rest'
            else splitLinesFrom (cur ++ String c EmptyString) rest
        | EmptyString => splitLinesFrom (cur ++ String c EmptyString) rest
        end
      else splitLinesFrom (cur ++ String c EmptyString) rest
  end.

Definition splitLines (s : string) : list string := splitLinesFrom EmptyString s.

(** [str.split(sep)] for a non-empty string separator: occurrences are
    taken from the left and do not overlap.  [skip] counts the units of
    a separator that is being consumed. *)
Fixpoint splitFrom (sep : string) (skip : nat) (cur : string) (s : string) : list string :=
  match s with
  | EmptyString => [cur]
  | String c rest =>
      match skip with
      | S k => splitFrom sep k cur rest
      | O =>
          if String.prefix sep s
          then cur :: splitFrom sep (String.length sep - 1) EmptyString rest
          else splitFrom sep 0 (cur ++ String c EmptyString) rest
      end
  end.

Definition split (s sep : string) : list string := splitFrom sep 0 EmptyString s.

Definition isDigit (c : ascii) : bool :=
  let n := nat_of_ascii c in (Nat.leb 48 n && Nat.leb n 57)%bool.

Definition digitValue (c : ascii) : Z := Z.of_nat (nat_of_ascii c) - 48.

(** The value of the longest prefix of decimal digits, with [seen]
    telling whether a digit has been read. *)
Fixpoint digitsPrefix (acc : Z) (seen : bool) (s : string) : option Z :=
  match s with
  | String c s' =>
      if isDigit c then digitsPrefix (10 * acc + digitValue c) true s'
      else if seen then Some acc else None
  | EmptyString => if seen then Some acc else None
  end.

(** [parseInt(s, 10)]: leading white space, an optional sign, then the
    digits; [None] is [NaN].  The result is the integer that the digits
    denote.  The code has the double nearest to it, which is that
    integer when its absolute value is below [2 ^ 53]
    ([Number.isSafeInteger]); sizes, ports, percentages and exit codes
    are in that range, and the theorems that depend on the value of a
    parsed number assume it. *)
Definition parseInt (s : string) : option Z :=
  match trimStart s with
  | String c s' =>
      if Ascii.eqb c "-" then Z.opp <$> digitsPrefix 0 false s'
      else if Ascii.eqb c "+" then digitsPrefix 0 false s'
      else digitsPrefix 0 false (String c s')
  | EmptyString => None
  end.

(** [/^\d+$/.test(s)] *)
Fixpoint allDigits (s : string) : bool :=
  match s with
  | String c s' => (isDigit c && allDigits s')%bool
  | EmptyString => true
  end.

Definition matchesDigits (s : string) : bool :=
  match s with EmptyString => false | _ => allDigits s end.

(** [String(n)], and [n] in a template literal, for an integer whose
    absolute value is below [2 ^ 53]: its decimal digits.  (From
    [1e21] on the code prints an exponent; the theorems that depend on
    the printed text assume the range.) *)
Definition numToString (n : Z) : string := pretty n.

End JS.

(** ** Asynchronous methods over a shared object

    An [async] method runs without interruption up to its next [await].
    [Async] is the tree of such segments: a segment ends the call
    ([Done]), or suspends on an operation of an external collaborator
    ([Await]) or on a promise that is already settled ([Yield]).  A
    suspended call records the object state [s] it leaves behind and is
    resumed with the state the object has at that later moment, so that
    calls interleaved on one object see each other's writes. *)
Module Async.

(** Values that the sources throw, and values a collaborator rejects with. *)
Inductive Exn : Type :=
| Error (msg : string)
| ServerInstallError (msg : string)
| TypeError (msg : string)
| Rejection (msg : string).

(** The two ways a promise settles. *)
Inductive Settled (A : Type) : Type :=
| Fulfilled (a : A)
| Rejected (e : Exn).
Arguments Fulfilled {A} a.
Arguments Rejected {A} e.

Section Tree.
Context {Op : Type} (Ret : Op -> Type) (St : Type).

Inductive Async (A : Type) : Type :=
| Done (r : Settled A) (s : St)
| Yield (s : St) (k : St -> Async A)
| Await (s : St) (o : Op) (k : Settled (Ret o) -> St -> Async A).

(** A method of an object with state [St]. *)
Definition M (A : Type) : Type := St -> Async A.

(** One settled operation of the collaborator. *)
Record Event : Type := mkEvent { ev_op : Op; ev_res : Settled (Ret ev_op) }.

(** The collaborator: what it answers to an operation, given everything
    that happened before. *)
Definition Env : Type := list Event -> forall o : Op, Settled (Ret o).

End Tree.

Arguments Done {Op Ret St A} r s.
Arguments Yield {Op Ret St A} s k.
Arguments Await {Op Ret St A} s o k.
Arguments mkEvent {Op Ret} ev_op ev_res.
Arguments ev_op {Op Ret} e.
Arguments ev_res {Op Ret} e.

Section Monad.
Context {Op : Type} {Ret : Op -> Type} {St : Type}.

(** Continue with [f] on whichever way the first part settles. *)
Fixpoint andThen {A B} (x : Async Ret St A) (f : Settled A -> St -> Async Ret St B)
  : Async Ret St B :=
  match x with
  | Done r s => f r s
  | Yield s k => Yield s (fun s' => andThen (k s') f)
  | Await s o k => Await s o (fun r s' => andThen (k r s') f)
  end.

Definition ret {A} (a : A) : M Ret St A := fun s => Done (Fulfilled a) s.

(** [throw e] *)
Definition throw {A} (e : Exn) : M Ret St A := fun s => Done (Rejected e) s.

(** Sequencing: an exception skips the rest. *)
Definition bind {A B} (m : M Ret St A) (f : A -> M Ret St B) : M Ret St B :=
  fun s => andThen (m s)
             (fun r s' => match r with
                          | Fulfilled a => f a s'
                          | Rejected e => Done (Rejected e) s'
                          end).

(** Reading and writing the fields of [this]. *)
Definition get : M Ret St St := fun s => Done (Fulfilled s) s.
Definition put (s' : St) : M Ret St unit := fun _ => Done (Fulfilled tt) s'.

(** [await collaborator.op(...)]: a rejection is thrown at the [await]. *)
Definition call (o : Op) : M Ret St (Ret o) :=
  fun s => Await s o (fun r s' => Done r s').

(** [await m(...)] for an [async] method [m] of the sources: the caller
    resumes in a later turn even when [m] returned at once. *)
Definition await {A} (m : M Ret St A) : M Ret St A :=
  fun s => andThen (m s) (fun r s' => Yield s' (fun s'' => Done r s'')).

(** A call that runs alone: nothing else touches the object between
    its segments, and the collaborator answers from [env]. *)
Fixpoint run {A} (env : Env Ret) (log : list (Event Ret)) (x : Async Ret St A)
  : Settled A * St * list (Event Ret) :=
  match x with
  | Done r s => (r, s, log)
  | Yield s k => run env log (k s)
  | Await s o k =>
      let r := env log o in
      run env (log ++ [mkEvent o r]) (k r s)
  end.

End Monad.

Declare Scope async_scope.
Delimit Scope async_scope with async.
Notation "x <- m ;; k" := (bind m (fun x => k))
  (at level 100, m at next level, right associativity) : async_scope.
Notation "m ;; k" := (bind m (fun _ => k))
  (at level 100, right associativity) : async_scope.

End Async.
Import Async.
Open Scope async_scope.

(** ** Calls in flight at the same time on one object

    The event loop runs one segment at a time.  [start] runs a new call
    up to its first suspension; [resume] runs a suspended call from the
    settlement of what it waits for up to its next suspension.  An
    operation of the collaborator is issued when the segment that calls
    it runs, and is answered when the call is resumed. *)
Module Interleave.
Section Loop.
Context {Op : Type} {Ret : Op -> Type} {St A : Type}.

Record Sys : Type := mkSys {
  obj : St;
  issued : list Op;
  history : list (Event Ret);
  waiting : list (nat * Async Ret St A);
  settledCalls : list (nat * Settled A)
}.

Definition initial (s : St) : Sys := mkSys s [] [] [] [].

(** Book a call whose segment has just ended in [x]. *)
Definition park (c : nat) (x : Async Ret St A) (y : Sys) : Sys :=
  match x with
  | Done r s => mkSys s (issued y) (history y) (waiting y) (settledCalls y ++ [(c, r)])
  | Yield s _ => mkSys s (issued y) (history y) (waiting y ++ [(c, x)]) (settledCalls y)
  | Await s o _ => mkSys s (issued y ++ [o]) (history y) (waiting y ++ [(c, x)]) (settledCalls y)
  end.

Definition start (c : nat) (m : M Ret St A) (y : Sys) : Sys := park c (m (obj y)) y.

Fixpoint takeWaiting (c : nat) (w : list (nat * Async Ret St A))
  : option (Async Ret St A * list (nat * Async Ret St A)) :=
  match w with
  | [] => None
  | (c', x) :: w' =>
      if Nat.eqb c c' then Some (x, w')
      else match takeWaiting c w' with
           | Some (x', w'') => Some (x', (c', x) :: w'')
           | None => None
           end
  end.

Definition resume (env : Env Ret) (c : nat) (y : Sys) : Sys :=
  match takeWaiting c (waiting y) with
  | None => y
  | Some (x, w) =>
      match x with
      | Done _ _ => y
      | Yield _ k =>
          park c (k (obj y)) (mkSys (obj y) (issued y) (history y) w (settledCalls y))
      | Await _ o k =>
          let r := env (history y) o in
          park c (k r (obj y))
            (mkSys (obj y) (issued y) (history y ++ [mkEvent o r]) w (settledCalls y))
      end
  end.

End Loop.
Arguments Sys {Op} Ret St A.
End Interleave.

(** What [exec] of a connection resolves to. *)
Record ExecResult : Type := { stdout : string; stderr : string }.

(** ** native/ssh.ts: the transport the connection class consumes *)
Module NativeSSH.

Inductive Op : Type :=
| connect (host : string) (port : Z) (username keyPath : string) (certPath : option string)
| exec (sessionId : Z) (command : string)
| forwardPort (sessionId localPort : Z) (remoteHost : string) (remotePort : Z)
| disconnect (sessionId : Z)
| uploadFile (sessionId : Z) (localPath remotePath : string).

Definition Ret (o : Op) : Type :=
  match o with
  | connect _ _ _ _ _ => Z
  | exec _ _ => string
  | forwardPort _ _ _ _ => Z
  | disconnect _ => unit
  | uploadFile _ _ _ => unit
  end.

Definition isForwardPort (o : Op) : bool :=
  match o with forwardPort _ _ _ _ => true | _ => false end.

End NativeSSH.

(** ** nativeSSHConnection.ts *)
Module NativeSSHConnection.

Record NativeSSHConfig : Type := {
  host : string;
  port : Z;
  username : string;
  keyPath : string;
  certPath : option string
}.

(** Every field is optional: [None] is [undefined]. *)
Record SSHTunnelConfig : Type := {
  name : option string;
  localPort : option Z;
  remoteAddr : option string;
  remotePort : option Z;
  remoteSocketPath : option string;
  socks : option bool
}.

(** The private fields of the class; [tunnels] maps a name to the
    [localPort] of its entry.  The logger is left out: it is written to
    and never read. *)
Record State : Type := {
  sessionId : option Z;
  config : NativeSSHConfig;
  tunnels : gmap string Z
}.

Abbreviation Method := (M NativeSSH.Ret State).

(** [await NativeSSH.op(...)] *)
Definition transport (o : NativeSSH.Op) : Method (NativeSSH.Ret o) := call o.

Definition setSessionId (v : option Z) (s : State) : State :=
  {| sessionId := v; config := config s; tunnels := tunnels s |}.

Definition setTunnels (t : gmap string Z) (s : State) : State :=
  {| sessionId := sessionId s; config := config s; tunnels := t |}.

(** [new NativeSSHConnection(config, logger)] *)
Definition create (cfg : NativeSSHConfig) : State :=
  {| sessionId := None; config := cfg; tunnels := ∅ |}.

(** The arguments [connect()] passes to [NativeSSH.connect]. *)
Definition handshake (cfg : NativeSSHConfig) : NativeSSH.Op :=
  NativeSSH.connect (host cfg) (port cfg) (username cfg) (keyPath cfg) (certPath cfg).

(** [connect()]; the returned [this] is the object itself. *)
Definition connect : Method unit :=
  s <- get;;
  match sessionId s with
  | Some _ => ret tt
  | None =>
      sid <- transport (handshake (config s));;
      s' <- get;;
      put (setSessionId (Some sid) s');;
      ret tt
  end.

(** [exec(cmd)] *)
Definition exec (cmd : string) : Method ExecResult :=
  await connect;;
  s <- get;;
  match sessionId s with
  | None => throw (Error "Not connected")
  | Some sid =>
      output <- transport (NativeSSH.exec sid cmd);;
      ret {| stdout := output; stderr := "" |}
  end.

(** [x || d] on an optional string: [undefined] and the empty string are falsy. *)
Definition orString (x : option string) (d : string) : string :=
  match x with
  | Some v => if decide (v = "") then d else v
  | None => d
  end.

(** [x || 0] on an optional number. *)
Definition orZero (x : option Z) : Z := default 0%Z x.

(** The text a template literal gives for an optional field. *)
Definition showString (x : option string) : string := default "undefined" x.
Definition showNumber (x : option Z) : string :=
  match x with Some n => JS.numToString n | None => "undefined" end.

(** [config.name || `${config.remoteAddr}:${config.remotePort}`] *)
Definition tunnelName (c : SSHTunnelConfig) : string :=
  orString (name c) (showString (remoteAddr c) ++ ":" ++ showNumber (remotePort c)).

(** [{ ...config, localPort }] *)
Definition withLocalPort (c : SSHTunnelConfig) (p : Z) : SSHTunnelConfig :=
  {| name := name c; localPort := Some p; remoteAddr := remoteAddr c;
     remotePort := remotePort c; remoteSocketPath := remoteSocketPath c;
     socks := socks c |}.

(** The arguments [addTunnel] passes to [NativeSSH.forwardPort]. *)
Definition forward (sid : Z) (c : SSHTunnelConfig) : NativeSSH.Op :=
  NativeSSH.forwardPort sid (orZero (localPort c))
    (orString (remoteAddr c) "127.0.0.1") (orZero (remotePort c)).

(** [addTunnel(config)] *)
Definition addTunnel (c : SSHTunnelConfig) : Method SSHTunnelConfig :=
  await connect;;
  s <- get;;
  match sessionId s with
  | None => throw (Error "Not connected")
  | Some sid =>
      let name := tunnelName c in
      match tunnels s !! name with
      | Some existing => ret (withLocalPort c existing)
      | None =>
          if bool_decide (socks c = Some true)
          then throw (Error "SOCKS tunnels not supported in native SSH connection")
          else
            localPort <- transport (forward sid c);;
            s' <- get;;
            put (setTunnels (<[name := localPort]> (tunnels s')) s');;
            ret (withLocalPort c localPort)
      end
  end.

(** [closeTunnel(name?)]: not an [async] method, it returns a promise
    that is already fulfilled. *)
Definition closeTunnel (name : option string) : Method unit :=
  s <- get;;
  match name with
  | Some n =>
      if decide (n = "") then put (setTunnels ∅ s)
      else put (setTunnels (delete n (tunnels s)) s)
  | None => put (setTunnels ∅ s)
  end.

(** [close()] *)
Definition close : Method unit :=
  s <- get;;
  match sessionId s with
  | Some sid =>
      transport (NativeSSH.disconnect sid);;
      s' <- get;;
      put (setTunnels ∅ (setSessionId None s'))
  | None => ret tt
  end.

(** [uploadFile(localPath, remotePath)] *)
Definition uploadFile (localPath remotePath : string) : Method unit :=
  await connect;;
  s <- get;;
  match sessionId s with
  | None => throw (Error "Not connected")
  | Some sid => transport (NativeSSH.uploadFile sid localPath remotePath)
  end.

End NativeSSHConnection.

(** ** The collaborators of serverSetup.ts and serverDownload.ts

    Both files receive a connection ([./ssh/sshConnection]) and call its
    [exec] and [uploadFile]; [downloadServerOnRemote] also reports to a
    progress object.  These calls are the operations of their signature;
    the functions themselves have no state of their own. *)
Module Remote.

Inductive Op : Type :=
| connExec (cmd : string)
| connUploadFile (localPath remotePath : string)
| progressReport (increment : Z) (message : string).

Definition Ret (o : Op) : Type :=
  match o with
  | connExec _ => ExecResult
  | connUploadFile _ _ => unit
  | progressReport _ _ => unit
  end.

Definition isUpload (o : Op) : bool :=
  match o with connUploadFile _ _ => true | _ => false end.

(** The number of [conn.uploadFile] calls in a log. *)
Definition uploadsSoFar (log : list (Event Ret)) : nat :=
  length (filter (fun ev => isUpload (ev_op ev) = true) log).

Abbreviation Script := (M Ret unit).

(** [await conn.exec(cmd)] *)
Definition exec (cmd : string) : Script ExecResult := call (connExec cmd).

(** [await conn.uploadFile(localPath, remotePath)] *)
Definition uploadFile (localPath remotePath : string) : Script unit :=
  call (connUploadFile localPath remotePath).

(** [progress.report({ increment, message })]: a plain call, not
    awaited; it is an operation of a collaborator all the same, and the
    sources never look at what it returns. *)
Definition report (increment : Z) (message : string) : Script unit :=
  fun s => Await s (progressReport increment message) (fun _ s' => Done (Fulfilled tt) s').

End Remote.

(** ** serverSetup.ts *)
Module ServerSetup.
Import Remote.

(** An object used as a map from strings to [string | undefined]: a
    present key bound to [None] is a property whose value is [undefined]. *)
Abbreviation ResultMap := (gmap string (option string)).

(** [resultMap[key] = value]: the key [__proto__] reaches the setter
    inherited from [Object.prototype], which ignores values that are
    neither objects nor [null]. *)
Definition setProperty (m : ResultMap) (key : string) (value : option string) : ResultMap :=
  if decide (key = "__proto__") then m else <[key := value]> m.

(** [resultMap.key] for a key that [Object.prototype] does not have. *)
Definition getProperty (m : ResultMap) (key : string) : option string :=
  default None (m !! key).

(** [const [key, value] = line.split('==')] *)
Definition keyValue (line : string) : string * option string :=
  match JS.split line "==" with
  | key :: value :: _ => (key, Some value)
  | [key] => (key, None)
  | [] => (EmptyString, None)
  end.

(** The body of the loop over [resultArr]. *)
Definition collectLine (resultMap : ResultMap) (line : string) : ResultMap :=
  let '(key, value) := keyValue line in
  setProperty resultMap key value.

(** The loop over [resultArr]. *)
Definition collect (resultArr : list string) : ResultMap :=
  fold_left collectLine resultArr ∅.

Definition startMarker (scriptId : string) : string := scriptId ++ ": start".
Definition endMarker (scriptId : string) : string := scriptId ++ ": end".

(** [parseServerInstallOutput(str, scriptId)]; [None] is [undefined]. *)
Definition parseServerInstallOutput (str scriptId : string) : option ResultMap :=
  let startResultStr := startMarker scriptId in
  let endResultStr := endMarker scriptId in
  match JS.indexOf str startResultStr 0 with
  | None => None
  | Some startResultIdx =>
      match JS.indexOf str endResultStr (startResultIdx + String.length startResultStr) with
      | None => None
      | Some endResultIdx =>
          let installResult :=
            JS.substring str (startResultIdx + String.length startResultStr) endResultIdx in
          Some (collect (JS.splitLines installResult))
      end
  end.

(** The values of the fields of a [ServerInstallResult]. *)
Inductive Value : Type :=
| VNumber (n : Z)
| VString (s : string)
| VUndefined.

Definition toValue (v : option string) : Value :=
  match v with Some s => VString s | None => VUndefined end.

(** [String(v)] for [string | undefined], as [parseInt] applies it. *)
Definition toString (v : option string) : string := default "undefined" v.

(** [installCodeServer], from the parsing of the command output to the
    returned object (the statements after [conn.exec] of the install
    script).  The object is a map from field names to values; the spread
    of [remoteEnvVars] comes last and so wins over the fixed fields. *)
Definition installCodeServerResult (stdout scriptId : string) (envVariables : list string)
  : Settled (gmap string Value) :=
  match parseServerInstallOutput stdout scriptId with
  | None => Rejected (ServerInstallError "Failed parsing install script output")
  | Some resultMap =>
      let exitCode := JS.parseInt (toString (getProperty resultMap "exitCode")) in
      if bool_decide (exitCode = Some 0%Z) then
        match getProperty resultMap "listeningOn" with
        | None => Rejected (TypeError "Cannot read properties of undefined (reading 'match')")
        | Some l =>
            let listeningOn :=
              if JS.matchesDigits l
              then match JS.parseInt l with Some n => VNumber n | None => VString l end
              else VString l in
            let remoteEnvVars : gmap string Value :=
              toValue <$> filter (fun kv => kv.1 ∈ envVariables) resultMap in
            Fulfilled
              (remoteEnvVars ∪
               <["exitCode" := VNumber 0]>
               (<["listeningOn" := listeningOn]>
               (<["connectionToken" := toValue (getProperty resultMap "connectionToken")]>
               (<["logFile" := toValue (getProperty resultMap "logFile")]>
               (<["osReleaseId" := toValue (getProperty resultMap "osReleaseId")]>
               (<["arch" := toValue (getProperty resultMap "arch")]>
               (<["platform" := toValue (getProperty resultMap "platform")]>
               (<["tmpDir" := toValue (getProperty resultMap "tmpDir")]> ∅))))))))
        end
      else Rejected (ServerInstallError "Server install script returned non-zero exit status")
  end.

(** [shellEscape(value)] *)
Definition shellEscape (value : string) : string :=
  "'" ++ JS.escapeQuotes value ++ "'".

(** The command of [getRemoteFileSize]. *)
Definition sizeCommand (remotePath : string) : string :=
  "if [ -f " ++ shellEscape remotePath ++ " ]; then wc -c < "
  ++ shellEscape remotePath ++ "; fi".

(** [Number.isFinite(size) ? size : undefined] for
    [size = parseInt(stdout.trim(), 10)]: [NaN] gives [undefined], and
    a size below [2 ^ 53] is finite and exact.  (Digits beyond that
    range, which round and from about [1.8e308] on give [Infinity], are
    outside the range in which the theorems use [sizeOf].) *)
Definition sizeOf (result : ExecResult) : option Z :=
  JS.parseInt (JS.trim (stdout result)).

(** [getRemoteFileSize(conn, remotePath)]: [None] is [undefined]. *)
Definition getRemoteFileSize (remotePath : string) : Script (option Z) :=
  result <- exec (sizeCommand remotePath);;
  ret (sizeOf result).

(** The command that removes the remote archive before an upload. *)
Definition removeCommand (remotePath : string) : string :=
  "rm -f " ++ shellEscape remotePath.

(** The text of [remote ${size ?? 'missing'}] in the messages. *)
Definition sizeOrMissing (size : option Z) : string :=
  match size with Some n => JS.numToString n | None => "missing" end.

Definition uploadIncomplete (localArchiveSize : Z) (retrySize : option Z) : Exn :=
  ServerInstallError ("Sidecar archive upload incomplete (local "
                      ++ JS.numToString localArchiveSize ++ " bytes, remote "
                      ++ sizeOrMissing retrySize ++ ").").

(** [verifyRemoteArchiveSize(conn, localArchivePath, remoteArchivePath,
    localArchiveSize, logger)] *)
Definition verifyRemoteArchiveSize (localArchivePath remoteArchivePath : string)
    (localArchiveSize : Z) : Script unit :=
  remoteSize <- getRemoteFileSize remoteArchivePath;;
  if bool_decide (remoteSize = Some localArchiveSize) then ret tt
  else
    exec (removeCommand remoteArchivePath);;
    uploadFile localArchivePath remoteArchivePath;;
    retrySize <- getRemoteFileSize remoteArchivePath;;
    if negb (bool_decide (retrySize = Some localArchiveSize))
    then throw (uploadIncomplete localArchiveSize retrySize)
    else ret tt.

End ServerSetup.

(** ** serverDownload.ts *)
Module ServerDownload.
Import Remote.

Inductive Arch : Type := x64 | arm64.
Inductive Libc : Type := glibc | musl.

Record RemoteSystemInfo : Type := { arch : Arch; libc : Libc }.

(** [detectRemoteSystem(conn, logger)] *)
Definition detectRemoteSystem : Script RemoteSystemInfo :=
  archResult <- exec "uname -m";;
  let archOutput := JS.trim (stdout archResult) in
  if bool_decide (archOutput = "x86_64") || bool_decide (archOutput = "amd64")
  then ret {| arch := x64; libc := glibc |}
  else if bool_decide (archOutput = "aarch64") || bool_decide (archOutput = "arm64")
  then ret {| arch := arm64; libc := glibc |}
  else throw (Error ("Unsupported architecture: " ++ archOutput)).

Definition DQ : string := String (ascii_of_nat 34) EmptyString.
Definition quoted (s : string) : string := DQ ++ s ++ DQ.

(** The template literal [downloadScript], escapes resolved. *)
Definition downloadScript (url destPath : string) : string :=
  JS.joinLines
    [ "";
      "set -e";
      "TMP_FILE=" ++ quoted (destPath ++ ".tmp");
      "rm -f " ++ quoted "$TMP_FILE";
      "";
      "if command -v curl >/dev/null 2>&1; then";
      "    curl -L --progress-bar -o " ++ quoted "$TMP_FILE" ++ " " ++ quoted url ++ " 2>&1 | ";
      "    while IFS= read -r line; do";
      "        if [[ " ++ quoted "$line" ++ " =~ ([0-9]+).[0-9]+% ]]; then";
      "            echo " ++ quoted "PROGRESS:${BASH_REMATCH[1]}";
      "        fi";
      "    done";
      "elif command -v wget >/dev/null 2>&1; then";
      "    wget --progress=dot:mega -O " ++ quoted "$TMP_FILE" ++ " " ++ quoted url ++ " 2>&1 |";
      "    while IFS= read -r line; do";
      "        if [[ " ++ quoted "$line" ++ " =~ ([0-9]+)% ]]; then";
      "            echo " ++ quoted "PROGRESS:${BASH_REMATCH[1]}";
      "        fi";
      "    done";
      "else";
      "    echo " ++ quoted "Error: Neither curl nor wget found";
      "    exit 1";
      "fi";
      "";
      "mv " ++ quoted "$TMP_FILE" ++ " " ++ quoted destPath;
      "echo " ++ quoted "DOWNLOAD_COMPLETE";
      "" ].

(** The loop over the lines of the output; a [NaN] percentage compares
    false with everything. *)
Fixpoint reportProgress (lastPercent : Z) (lines : list string) : Script unit :=
  match lines with
  | [] => ret tt
  | line :: lines' =>
      if JS.startsWith line "PROGRESS:" then
        match JS.parseInt (JS.substring line 9 (String.length line)) with
        | Some percent =>
            if (lastPercent <? percent)%Z then
              report (percent - lastPercent) (JS.numToString percent ++ "% complete");;
              reportProgress percent lines'
            else reportProgress lastPercent lines'
        | None => reportProgress lastPercent lines'
        end
      else reportProgress lastPercent lines'
  end.

(** [result.stderr || 'Unknown error'] *)
Definition stderrOrUnknown (result : ExecResult) : string :=
  if decide (stderr result = "") then "Unknown error" else stderr result.

(** [downloadServerOnRemote(conn, url, destPath, logger, progress)] *)
Definition downloadServerOnRemote (url destPath : string) : Script unit :=
  let destDir :=
    JS.substring destPath 0 (default 0 (JS.lastIndexOf destPath "/")) in
  exec ("mkdir -p '" ++ destDir ++ "'");;
  result <- exec ("bash -c '" ++ JS.escapeQuotes (downloadScript url destPath) ++ "'");;
  reportProgress 0 (JS.split (stdout result) (String JS.LF EmptyString));;
  if negb (JS.includes (stdout result) "DOWNLOAD_COMPLETE")
  then throw (Error ("Download failed: " ++ stderrOrUnknown result))
  else ret tt.

End ServerDownload.

(** ** A script of serverSetup.ts or serverDownload.ts run on a
    [NativeSSHConnection]: its [conn.exec] and [conn.uploadFile] are the
    methods of the class. *)
Module OnNative.

Definition handle (o : Remote.Op) : NativeSSHConnection.Method (Remote.Ret o) :=
  match o with
  | Remote.connExec cmd => NativeSSHConnection.exec cmd
  | Remote.connUploadFile localPath remotePath =>
      NativeSSHConnection.uploadFile localPath remotePath
  | Remote.progressReport _ _ => ret tt
  end.

Fixpoint onConnection {A} (p : Async Remote.Ret unit A)
  : NativeSSHConnection.Method A :=
  fun s =>
    match p with
    | Done r _ => Done r s
    | Yield _ k => Yield s (fun s' => onConnection (k tt) s')
    | Await _ o k => andThen (handle o s) (fun r s' => onConnection (k r tt) s')
    end.

End OnNative.

(** ** The identity resolver: [gatherIdentityFiles] *)
Module Identity.

(** What the code reads of a [ParsedKey]: [type], [comment] and the blob
    [getPublicSSH()]. *)
Record ParsedKey : Type := {
  type : string;
  comment : string;
  publicSSH : string
}.

(** [SSHKey]; the optional flags are [None] when absent. *)
Record SSHKey : Type := {
  filename : string;
  parsedKey : ParsedKey;
  fingerprint : string;
  agentSupport : option bool;
  isPrivate : option bool;
  isCertificate : option bool
}.

(** Truthiness of an optional flag. *)
Definition truthy (b : option bool) : bool :=
  match b with Some true => true | _ => false end.

(** [arr.findIndex(p)]; [None] is [-1]. *)
Fixpoint findIndex {A} (p : A -> bool) (l : list A) : option nat :=
  match l with
  | [] => None
  | x :: l' => if p x then Some 0 else S <$> findIndex p l'
  end.

(** The callback of [findIndex] in the merge loop. *)
Definition sameKey (agentKey k : SSHKey) : bool :=
  if truthy (isCertificate k) then false
  else bool_decide (type (parsedKey agentKey) = type (parsedKey k))
       && bool_decide (fingerprint agentKey = fingerprint k).

(** [{ ...k, agentSupport: true }] *)
Definition promote (k : SSHKey) : SSHKey :=
  {| filename := filename k; parsedKey := parsedKey k; fingerprint := fingerprint k;
     agentSupport := Some true; isPrivate := isPrivate k;
     isCertificate := isCertificate k |}.

(** The [for (const agentKey of sshAgentKeys)] loop, with the three
    arrays it updates; [delete foundIdx] is [splice(foundIdx, 1)]. *)
Fixpoint mergeLoop (identitiesOnly : bool) (sshAgentKeys : list SSHKey)
    (fileKeys preferredIdentityKeys agentKeys : list SSHKey)
  : list SSHKey * list SSHKey * list SSHKey :=
  match sshAgentKeys with
  | [] => (fileKeys, preferredIdentityKeys, agentKeys)
  | agentKey :: rest =>
      match findIndex (sameKey agentKey) fileKeys with
      | Some foundIdx =>
          match fileKeys !! foundIdx with
          | Some k =>
              mergeLoop identitiesOnly rest (delete foundIdx fileKeys)
                (preferredIdentityKeys ++ [promote k])%list agentKeys
          | None => mergeLoop identitiesOnly rest fileKeys preferredIdentityKeys agentKeys
          end
      | None =>
          if negb identitiesOnly
          then mergeLoop identitiesOnly rest fileKeys preferredIdentityKeys
                 (agentKeys ++ [agentKey])%list
          else mergeLoop identitiesOnly rest fileKeys preferredIdentityKeys agentKeys
      end
  end.

(** From the merge loop to the returned [sortedKeys]. *)
Definition mergeIdentities (fileKeys sshAgentKeys : list SSHKey) (identitiesOnly : bool)
  : list SSHKey :=
  let '(fileKeys', preferredIdentityKeys, agentKeys) :=
    mergeLoop identitiesOnly sshAgentKeys fileKeys [] [] in
  let preferredIdentityKeys := (preferredIdentityKeys ++ agentKeys ++ fileKeys')%list in
  filter (fun k => negb (truthy (isCertificate k))) preferredIdentityKeys.

Section Gather.
(** [crypto.createHash('sha256').update(blob).digest('base64')] *)
Variable sha256Base64 : string -> string.

(** The entry pushed for a key file that was read and parsed. *)
Definition fileKey (keyPath : string) (pk : ParsedKey) : SSHKey :=
  {| filename := keyPath; parsedKey := pk; fingerprint := sha256Base64 (publicSSH pk);
     agentSupport := Some false; isPrivate := Some true; isCertificate := Some false |}.

(** The entry built for an identity of the agent. *)
Definition agentKey (pk : ParsedKey) : SSHKey :=
  {| filename := comment pk; parsedKey := pk; fingerprint := sha256Base64 (publicSSH pk);
     agentSupport := Some true; isPrivate := None; isCertificate := None |}.

(** [gatherIdentityFiles], after its input and output: [parsedFiles] are
    the identity files that exist and parse, in the order of
    [identityFiles], each with its path; [agentParsedKeys] is what the
    agent returned, empty when it could not be asked. *)
Definition gatherIdentityFiles (parsedFiles : list (string * ParsedKey))
    (agentParsedKeys : list ParsedKey) (identitiesOnly : bool) : list SSHKey :=
  mergeIdentities ((fun f => fileKey f.1 f.2) <$> parsedFiles)
                  (agentKey <$> agentParsedKeys) identitiesOnly.

End Gather.

(** The pair that identifies a key: the algorithm type and the fingerprint. *)
Definition keyOf (k : SSHKey) : string * string := (type (parsedKey k), fingerprint k).

(** No entry of [l] is a certificate. *)
Definition certFree (l : list SSHKey) : Prop :=
  Forall (fun k => truthy (isCertificate k) = false) l.

(** The number of pairs that the file identities and the agent
    identities have in common, a pair that occurs several times on both
    sides counting as often as it occurs on both. *)
Definition overlap (fileKeys agentKeys : list SSHKey) : nat :=
  size (list_to_set_disj (keyOf <$> agentKeys) ∩ list_to_set_disj (keyOf <$> fileKeys)
        : gmultiset (string * string)).

End Identity.

(** ** The framing of the install output, in the words of the specification *)
Module Framing.
Import ServerSetup.

(** A stream in which [body] stands between a start marker and an end
    marker. *)
Definition framed (scriptId pre body post : string) : string :=
  pre ++ startMarker scriptId ++ body ++ endMarker scriptId ++ post.

(** [pat] occurs somewhere in [s]. *)
Definition occurs (pat s : string) : bool :=
  match JS.search pat s 0 with Some _ => true | None => false end.

(** In [framed scriptId pre body post] the pair around [body] is the
    last marker pair: no marker inside [body], no start marker after it. *)
Definition lastPair (scriptId body post : string) : bool :=
  negb (occurs (startMarker scriptId) body)
  && negb (occurs (endMarker scriptId) body)
  && negb (occurs (startMarker scriptId) post).

(** A line of the form [key==value==]. *)
Definition wellFormedLine (line : string) : bool :=
  match JS.split line "==" with
  | [_; _; EmptyString] => true
  | _ => false
  end.

(** A text without line breaks. *)
Fixpoint noBreak (s : string) : bool :=
  match s with
  | String c s' => negb (Ascii.eqb c JS.LF) && negb (Ascii.eqb c JS.CR) && noBreak s'
  | EmptyString => true
  end.

(** A key or a value without line breaks and without [=]. *)
Fixpoint plain (s : string) : bool :=
  match s with
  | String c s' =>
      negb (Ascii.eqb c JS.LF) && negb (Ascii.eqb c JS.CR) && negb (Ascii.eqb c "=")
      && plain s'
  | EmptyString => true
  end.

Definition plainField (kv : string * string) : Prop :=
  plain kv.1 = true /\ plain kv.2 = true.

(** What [echo "key==$VALUE=="] prints, without the line break. *)
Definition fieldLine (kv : string * string) : string :=
  kv.1 ++ "==" ++ kv.2 ++ "==".

(** What stands between the markers when the script prints [fields]:
    the line break after the start marker, then a line for each field. *)
Fixpoint fieldLines (fields : list (string * string)) : string :=
  match fields with
  | [] => EmptyString
  | kv :: fields' => fieldLine kv ++ String JS.LF (fieldLines fields')
  end.

Definition block (fields : list (string * string)) : string :=
  String JS.LF (fieldLines fields).

End Framing.

(** ** Concrete collaborators and inputs, for evaluating the model *)
Module Fixtures.
Import NativeSSHConnection.

(** A transport that accepts every operation.  Session ids count the
    operations answered so far; a forward asked for local port [0] gets
    an ephemeral port, any other request gets the port it names. *)
Definition obligingTransport : Env NativeSSH.Ret :=
  fun log o =>
    match o with
    | NativeSSH.connect _ _ _ _ _ => Fulfilled (1 + Z.of_nat (length log))%Z
    | NativeSSH.exec _ _ => Fulfilled "Linux"
    | NativeSSH.forwardPort _ lp _ _ =>
        Fulfilled (if (lp =? 0)%Z then (49152 + Z.of_nat (length log))%Z else lp)
    | NativeSSH.disconnect _ => Fulfilled tt
    | NativeSSH.uploadFile _ _ _ => Fulfilled tt
    end.

Definition devbox : NativeSSHConfig :=
  {| host := "devbox"; port := 22; username := "dev";
     keyPath := "/home/dev/.ssh/id_ed25519"; certPath := None |}.

(** A connected session with one tunnel, named [db], on local port 5000. *)
Definition liveSession : State :=
  {| sessionId := Some 7%Z; config := devbox; tunnels := {[ "db" := 5000%Z ]} |}.

(** [{ remoteAddr: '127.0.0.1', remotePort: 22, localPort: 0 }] *)
Definition sshTunnel : SSHTunnelConfig :=
  {| name := None; localPort := Some 0%Z; remoteAddr := Some "127.0.0.1";
     remotePort := Some 22%Z; remoteSocketPath := None; socks := None |}.

(** [{ name: 'db', socks: true }] *)
Definition socksNamedDb : SSHTunnelConfig :=
  {| name := Some "db"; localPort := None; remoteAddr := None;
     remotePort := None; remoteSocketPath := None; socks := Some true |}.

(** [{ name: 'proxy', socks: true }] *)
Definition socksProxy : SSHTunnelConfig :=
  {| name := Some "proxy"; localPort := None; remoteAddr := None;
     remotePort := None; remoteSocketPath := None; socks := Some true |}.

(** [{ name: 'db', remoteAddr: '10.0.0.5', remotePort: 5432 }] *)
Definition dbTunnel : SSHTunnelConfig :=
  {| name := Some "db"; localPort := None; remoteAddr := Some "10.0.0.5";
     remotePort := Some 5432%Z; remoteSocketPath := None; socks := None |}.

(** A connection on which every command prints [out]. *)
Definition printing (out : string) : Env Remote.Ret :=
  fun _ o =>
    match o with
    | Remote.connExec _ => Fulfilled {| stdout := out; stderr := "" |}
    | Remote.connUploadFile _ _ => Fulfilled tt
    | Remote.progressReport _ _ => Fulfilled tt
    end.

(** A remote host on which [wc -c] prints the [k]-th of [sizes] once
    [k] uploads have been made. *)
Definition remoteWithSizes (sizes : list string) : Env Remote.Ret :=
  fun log o =>
    match o with
    | Remote.connExec _ =>
        Fulfilled {| stdout := nth (Remote.uploadsSoFar log) sizes EmptyString; stderr := "" |}
    | Remote.connUploadFile _ _ => Fulfilled tt
    | Remote.progressReport _ _ => Fulfilled tt
    end.

Definition nl : string := String JS.LF EmptyString.

(** The result block of a run that failed, then the block of a run that
    succeeded, under the same install id. *)
Definition failedBlock : string := nl ++ "exitCode==1==" ++ nl ++ "listeningOn====" ++ nl.
Definition goodBlock : string := nl ++ "exitCode==0==" ++ nl ++ "listeningOn==37500==" ++ nl.

Definition twoBlocks : string :=
  Framing.framed "abc123"
    ("Error server did not start successfully" ++ nl
     ++ Framing.framed "abc123" EmptyString failedBlock nl
     ++ "Server script is already running" ++ nl)
    goodBlock nl.

(** The output of a run that succeeded, with diagnostic lines around
    the block. *)
Definition sampleStream : string :=
  Framing.framed "abc123" ("Server script already installed in /home/dev/bin" ++ nl)
    goodBlock (nl ++ "Connection to devbox closed." ++ nl).

(** One block with a line that is not a field. *)
Definition noisyBlock : string :=
  nl ++ "tar: short read" ++ nl ++ "exitCode==0==" ++ nl ++ "listeningOn==37500==" ++ nl.

(** A stand-in for the hash of a key blob; the properties hold for
    every function. *)
Definition identityHash (blob : string) : string := "SHA256:" ++ blob.

Definition rsaKey : Identity.ParsedKey :=
  {| Identity.type := "ssh-rsa"; Identity.comment := "dev@laptop"; Identity.publicSSH := "AAAAB3Nza" |}.
Definition edKey : Identity.ParsedKey :=
  {| Identity.type := "ssh-ed25519"; Identity.comment := "dev@laptop"; Identity.publicSSH := "AAAAC3Nza" |}.
Definition tokenKey : Identity.ParsedKey :=
  {| Identity.type := "ecdsa-sha2-nistp256"; Identity.comment := "yubikey"; Identity.publicSSH := "AAAAE2Vjz" |}.

Definition noisyStream : string :=
  Framing.framed "abc123" ("Server script already installed" ++ nl) noisyBlock nl.

End Fixtures.

(** ** Sequences of method calls on one [NativeSSHConnection]

    A caller that awaits each call before it makes the next, and goes on
    after a call that threw. *)
Module Session.
Import NativeSSHConnection.

Inductive Call : Type :=
| CallConnect
| CallExec (cmd : string)
| CallAddTunnel (config : SSHTunnelConfig)
| CallCloseTunnel (name : option string)
| CallClose
| CallUploadFile (localPath remotePath : string).

(** The object and the log after one call. *)
Definition after {A} (out : Settled A * State * list (Event NativeSSH.Ret))
  : State * list (Event NativeSSH.Ret) := (out.1.2, out.2).

Definition perform (env : Env NativeSSH.Ret) (c : Call)
    (now : State * list (Event NativeSSH.Ret)) : State * list (Event NativeSSH.Ret) :=
  let '(s, log) := now in
  match c with
  | CallConnect => after (run env log (connect s))
  | CallExec cmd => after (run env log (exec cmd s))
  | CallAddTunnel config => after (run env log (addTunnel config s))
  | CallCloseTunnel name => after (run env log (closeTunnel name s))
  | CallClose => after (run env log (close s))
  | CallUploadFile localPath remotePath =>
      after (run env log (uploadFile localPath remotePath s))
  end.

Definition performAll (env : Env NativeSSH.Ret) (calls : list Call)
    (now : State * list (Event NativeSSH.Ret)) : State * list (Event NativeSSH.Ret) :=
  foldl (fun now c => perform env c now) now calls.

(** A handshake that the transport accepted, a disconnect that it accepted. *)
Definition isOpened (ev : Event NativeSSH.Ret) : bool :=
  match ev with
  | mkEvent (NativeSSH.connect _ _ _ _ _) (Fulfilled _) => true
  | _ => false
  end.

Definition isClosed (ev : Event NativeSSH.Ret) : bool :=
  match ev with
  | mkEvent (NativeSSH.disconnect _) (Fulfilled _) => true
  | _ => false
  end.

Definition opened (log : list (Event NativeSSH.Ret)) : nat :=
  length (filter (fun ev => isOpened ev = true) log).

Definition closed (log : list (Event NativeSSH.Ret)) : nat :=
  length (filter (fun ev => isClosed ev = true) log).

(** The transports held according to the object: one when it has a
    session id. *)
Definition held (s : State) : nat :=
  match sessionId s with Some _ => 1 | None => 0 end.

(** Every transport that was opened and not closed is the one the
    object holds. *)
Definition oneTransport (s : State) (log : list (Event NativeSSH.Ret)) : Prop :=
  opened log = closed log + held s.

(** An object without a session id has no tunnels. *)
Definition tunnelsNeedSession (s : State) : Prop :=
  sessionId s = None -> tunnels s = ∅.

(** Every registered port was handed out by the transport, for a request
    of that name. *)
Definition portsFromTransport (s : State) (log : list (Event NativeSSH.Ret)) : Prop :=
  forall name p,
    tunnels s !! name = Some p ->
    exists sid config,
      tunnelName config = name
      /\ mkEvent (forward sid config) (Fulfilled p) ∈ log.

Definition invariant (s : State) (log : list (Event NativeSSH.Ret)) : Prop :=
  tunnelsNeedSession s /\ portsFromTransport s log /\ oneTransport s log.

(** [addTunnel], its result dropped, so that it can be in flight beside
    calls of [close]. *)
Definition addTunnel_ (config : SSHTunnelConfig) : Method unit :=
  _ <- addTunnel config;; ret tt.

End Session.

(** ** [try { m } catch (e) { h(e) }] *)
Definition tryCatch {Op : Type} {Ret : Op -> Type} {St A : Type}
    (m : M Ret St A) (h : Exn -> M Ret St A) : M Ret St A :=
  fun s => andThen (m s)
             (fun r s' => match r with
                          | Fulfilled a => Done (Fulfilled a) s'
                          | Rejected e => h e s'
                          end).

(** [arr.join(sep)] *)
Fixpoint joinWith (sep : string) (arr : list string) : string :=
  match arr with
  | [] => EmptyString
  | [x] => x
  | x :: rest => x ++ sep ++ joinWith sep rest
  end.

(** Truthiness of [string | undefined]: [undefined] and the empty
    string are falsy. *)
Definition truthyString (x : option string) : option string :=
  match x with
  | Some v => if decide (v = "") then None else Some v
  | None => None
  end.

(** ** serverConfig.ts: what [installCodeServer] reads of the value of
    [getVSCodeServerConfig()] *)
Module ServerConfig.

Record VSCodeServerConfig : Type := {
  version : string;
  commit : string;
  quality : string;
  serverApplicationName : string;
  serverDataFolderName : string
}.

End ServerConfig.

(** ** The surroundings of the extension host

    [installCodeServer] and [getOrDownloadServerOnRemote] call, beside
    the connection, into [crypto], [path], [fs], the configuration of
    the workspace and [serverConfig].  Each call is an operation that
    the surroundings answer; one that throws or rejects is answered
    with [Rejected]. *)
Module Host.

Inductive Op : Type :=
| conn (o : Remote.Op)
| randomBytesHex (size : Z)
| randomUUID
| getVSCodeServerConfig
| pathResolve (p : string)
| pathJoin (a b : string)
| fsAccess (p : string)
| fsStatSize (p : string)
| fsExistsSync (p : string)
| configValue (key : string).

Definition Ret (o : Op) : Type :=
  match o with
  | conn o' => Remote.Ret o'
  | randomBytesHex _ => string
  | randomUUID => string
  | getVSCodeServerConfig => ServerConfig.VSCodeServerConfig
  | pathResolve _ => string
  | pathJoin _ _ => string
  | fsAccess _ => unit
  | fsStatSize _ => Z
  | fsExistsSync _ => bool
  | configValue _ => option string
  end.

Abbreviation Task := (M Ret unit).

Definition host (o : Op) : Task (Ret o) := call o.

(** A function of serverSetup.ts or serverDownload.ts that takes the
    connection, called from a function that also talks to the host. *)
Fixpoint lift {A} (p : Async Remote.Ret unit A) : Async Ret unit A :=
  match p with
  | Done r s => Done r s
  | Yield s k => Yield s (fun s' => lift (k s'))
  | Await s o k => Await s (conn o) (fun r s' => lift (k r s'))
  end.

Definition onConn {A} (p : Remote.Script A) : Task A := fun s => lift (p s).

(** [vscode.workspace.getConfiguration('remote.SSH').get<string>(key,
    defaultValue)]: the default is returned when the configuration has
    no value for the key. *)
Definition configGet (key defaultValue : string) : Task string :=
  v <- (host (configValue key) : Task (option string));;
  ret (default defaultValue v).

(** A log of the host seen from the connection. *)
Definition connEvent (ev : Event Remote.Ret) : Event Ret :=
  mkEvent (conn (ev_op ev)) (ev_res ev).

Definition isConn (ev : Event Ret) : bool :=
  match ev_op ev with conn _ => true | _ => false end.

Definition isConnUpload (ev : Event Ret) : bool :=
  match ev_op ev with conn o => Remote.isUpload o | _ => false end.

(** The operations on the connection in a log, and the number of
    [conn.uploadFile] calls among them. *)
Definition connOps (log : list (Event Ret)) : list Remote.Op :=
  omap (fun ev => match ev_op ev with conn o => Some o | _ => None end) log.

Definition uploads (log : list (Event Ret)) : nat :=
  length (filter (fun ev => isConnUpload ev = true) log).

(** The connection as the host answers for it after [base]. *)
Definition connection (env : Env Ret) (base : list (Event Ret)) : Env Remote.Ret :=
  fun l o => env (base ++ (connEvent <$> l))%list (conn o).

End Host.

(** ** serverSetup.ts: [installCodeServer] and the functions it calls *)
Module Install.
Import Remote ServerSetup Host.

Definition DQ : string := ServerDownload.DQ.

(** [detectRemotePlatform(conn, logger)] *)
Definition detectRemotePlatform : Script string :=
  result <- exec "uname -s";;
  if JS.includes (stdout result) "Linux" then ret "linux" else ret "unknown".

(** The command of [resolveRemoteHomeDir]. *)
Definition homeCommand : string := "printf %s " ++ DQ ++ "$HOME" ++ DQ.

(** [resolveRemoteHomeDir(conn)] *)
Definition resolveRemoteHomeDir : Script string :=
  result <- exec homeCommand;;
  let homeDir := JS.trim (stdout result) in
  if decide (homeDir = "")
  then throw (ServerInstallError "Unable to resolve remote home directory")
  else ret homeDir.

(** The command of [remoteFileExists]. *)
Definition existsCommand (remotePath : string) : string :=
  "if [ -f " ++ shellEscape remotePath ++ " ]; then echo yes; fi".

(** [remoteFileExists(conn, remotePath)] *)
Definition remoteFileExists (remotePath : string) : Script bool :=
  result <- exec (existsCommand remotePath);;
  ret (bool_decide (JS.trim (stdout result) = "yes")).

Record ServerInstallOptions : Type := {
  id : string;
  quality : string;
  commit : string;
  version : string;
  extensionIds : list string;
  envVariables : list string;
  useSocketPath : bool;
  serverApplicationName : string;
  serverDataFolderName : string;
  serverArchivePath : string
}.

(** The template literal of [generateBashInstallScript], escapes
    resolved; [socketUUID] and [tokenUUID] are its two
    [crypto.randomUUID()]. *)
Definition installScript (o : ServerInstallOptions) (extensions socketUUID tokenUUID : string)
  : string :=
  JS.joinLines
    [ "";
      "# Server installation script";
      "";
      "TMP_DIR=" ++ DQ ++ "${XDG_RUNTIME_DIR:-" ++ DQ ++ "/tmp" ++ DQ ++ "}" ++ DQ;
      "";
      "DISTRO_VERSION=" ++ DQ ++ version o ++ DQ;
      "DISTRO_COMMIT=" ++ DQ ++ commit o ++ DQ;
      "DISTRO_QUALITY=" ++ DQ ++ quality o ++ DQ;
      "";
      "SERVER_APP_NAME=" ++ DQ ++ serverApplicationName o ++ DQ;
      "SERVER_INITIAL_EXTENSIONS=" ++ DQ ++ extensions ++ DQ;
      "SERVER_LISTEN_FLAG=" ++ DQ ++ (if useSocketPath o then "--socket-path=" ++ DQ ++ "$TMP_DIR/vscode-server-sock-" ++ socketUUID ++ DQ else "--port=0") ++ DQ;
      "SERVER_DATA_DIR=" ++ DQ ++ "$HOME/" ++ serverDataFolderName o ++ DQ;
      "SERVER_DIR=" ++ DQ ++ "$SERVER_DATA_DIR/bin/$DISTRO_COMMIT" ++ DQ;
      "SERVER_SCRIPT=" ++ DQ ++ "$SERVER_DIR/bin/$SERVER_APP_NAME" ++ DQ;
      "SERVER_LOGFILE=" ++ DQ ++ "$SERVER_DATA_DIR/.$DISTRO_COMMIT.log" ++ DQ;
      "SERVER_PIDFILE=" ++ DQ ++ "$SERVER_DATA_DIR/.$DISTRO_COMMIT.pid" ++ DQ;
      "SERVER_TOKENFILE=" ++ DQ ++ "$SERVER_DATA_DIR/.$DISTRO_COMMIT.token" ++ DQ;
      "SERVER_ARCHIVE_PATH=" ++ DQ ++ serverArchivePath o ++ DQ;
      "SERVER_ARCH=";
      "SERVER_CONNECTION_TOKEN=";
      "";
      "LISTENING_ON=";
      "OS_RELEASE_ID=";
      "ARCH=";
      "PLATFORM=";
      "";
      "# Mimic output from logs of remote-ssh extension";
      "print_install_results_and_exit() {";
      "    echo " ++ DQ ++ id o ++ ": start" ++ DQ;
      "    echo " ++ DQ ++ "exitCode==$1==" ++ DQ;
      "    echo " ++ DQ ++ "listeningOn==$LISTENING_ON==" ++ DQ;
      "    echo " ++ DQ ++ "connectionToken==$SERVER_CONNECTION_TOKEN==" ++ DQ;
      "    echo " ++ DQ ++ "logFile==$SERVER_LOGFILE==" ++ DQ;
      "    echo " ++ DQ ++ "osReleaseId==$OS_RELEASE_ID==" ++ DQ;
      "    echo " ++ DQ ++ "arch==$ARCH==" ++ DQ;
      "    echo " ++ DQ ++ "platform==$PLATFORM==" ++ DQ;
      "    echo " ++ DQ ++ "tmpDir==$TMP_DIR==" ++ DQ;
      "    " ++ JS.joinLines ((fun envVar => "echo " ++ DQ ++ envVar ++ "==$" ++ envVar ++ "==" ++ DQ) <$> envVariables o);
      "    echo " ++ DQ ++ id o ++ ": end" ++ DQ;
      "    exit 0";
      "}";
      "";
      "# Check if platform is supported";
      "KERNEL=" ++ DQ ++ "$(uname -s)" ++ DQ;
      "case $KERNEL in";
      "    Linux)";
      "        PLATFORM=" ++ DQ ++ "linux" ++ DQ;
      "        ;;";
      "    *" ++ ")";
      "        echo " ++ DQ ++ "Error platform not supported: $KERNEL" ++ DQ;
      "        print_install_results_and_exit 1";
      "        ;;";
      "esac";
      "";
      "# Check machine architecture";
      "ARCH=" ++ DQ ++ "$(uname -m)" ++ DQ;
      "case $ARCH in";
      "    x86_64 | amd64)";
      "        SERVER_ARCH=" ++ DQ ++ "x64" ++ DQ;
      "        ;;";
      "    arm64 | aarch64)";
      "        SERVER_ARCH=" ++ DQ ++ "arm64" ++ DQ;
      "        ;;";
      "    *" ++ ")";
      "        echo " ++ DQ ++ "Error architecture not supported: $ARCH" ++ DQ;
      "        print_install_results_and_exit 1";
      "        ;;";
      "esac";
      "";
      "# https://www.freedesktop.org/software/systemd/man/os-release.html";
      "OS_RELEASE_ID=" ++ DQ ++ "$(grep -i '^ID=' /etc/os-release 2>/dev/null | sed 's/^ID=//gi' | sed 's/" ++ DQ ++ "//g')" ++ DQ;
      "if [[ -z $OS_RELEASE_ID ]]; then";
      "    OS_RELEASE_ID=" ++ DQ ++ "$(grep -i '^ID=' /usr/lib/os-release 2>/dev/null | sed 's/^ID=//gi' | sed 's/" ++ DQ ++ "//g')" ++ DQ;
      "    if [[ -z $OS_RELEASE_ID ]]; then";
      "        OS_RELEASE_ID=" ++ DQ ++ "unknown" ++ DQ;
      "    fi";
      "fi";
      "";
      "# Create installation folder";
      "if [[ ! -d $SERVER_DIR ]]; then";
      "    mkdir -p $SERVER_DIR";
      "    if (( $? > 0 )); then";
      "        echo " ++ DQ ++ "Error creating server install directory" ++ DQ;
      "        print_install_results_and_exit 1";
      "    fi";
      "fi";
      "";
      "# Check if server script is already installed";
      "if [[ ! -f $SERVER_SCRIPT ]]; then";
      "    if [[ ! -f $SERVER_ARCHIVE_PATH ]]; then";
      "        echo " ++ DQ ++ "Error sidecar archive not found at $SERVER_ARCHIVE_PATH" ++ DQ;
      "        print_install_results_and_exit 1";
      "    fi";
      "";
      "    if [[ -d $SERVER_DIR ]]; then";
      "        find " ++ DQ ++ "$SERVER_DIR" ++ DQ ++ " -mindepth 1 -maxdepth 1 ! -name " ++ DQ ++ "$(basename " ++ DQ ++ "$SERVER_ARCHIVE_PATH" ++ DQ ++ ")" ++ DQ ++ " -exec rm -rf {} +";
      "    fi";
      "";
      "    pushd $SERVER_DIR > /dev/null";
      "    tar -xf " ++ DQ ++ "$SERVER_ARCHIVE_PATH" ++ DQ ++ " --strip-components 1";
      "    if (( $? > 0 )); then";
      "        echo " ++ DQ ++ "Error while extracting server contents" ++ DQ;
      "        print_install_results_and_exit 1";
      "    fi";
      "";
      "    if [[ ! -f $SERVER_SCRIPT ]]; then";
      "        if [[ " ++ DQ ++ "$SERVER_APP_NAME" ++ DQ ++ " != " ++ DQ ++ "openvscode-server" ++ DQ ++ " && -f " ++ DQ ++ "$SERVER_DIR/bin/openvscode-server" ++ DQ ++ " ]]; then";
      "            SERVER_APP_NAME=" ++ DQ ++ "openvscode-server" ++ DQ;
      "            SERVER_SCRIPT=" ++ DQ ++ "$SERVER_DIR/bin/$SERVER_APP_NAME" ++ DQ;
      "        elif [[ " ++ DQ ++ "$SERVER_APP_NAME" ++ DQ ++ " != " ++ DQ ++ "code-server" ++ DQ ++ " && -f " ++ DQ ++ "$SERVER_DIR/bin/code-server" ++ DQ ++ " ]]; then";
      "            SERVER_APP_NAME=" ++ DQ ++ "code-server" ++ DQ;
      "            SERVER_SCRIPT=" ++ DQ ++ "$SERVER_DIR/bin/$SERVER_APP_NAME" ++ DQ;
      "        else";
      "            echo " ++ DQ ++ "Error server contents are corrupted" ++ DQ;
      "            print_install_results_and_exit 1";
      "        fi";
      "    fi";
      "";
      "    rm -f " ++ DQ ++ "$SERVER_ARCHIVE_PATH" ++ DQ;
      "    popd > /dev/null";
      "else";
      "    echo " ++ DQ ++ "Server script already installed in $SERVER_SCRIPT" ++ DQ;
      "fi";
      "";
      "# Try to find if server is already running";
      "if [[ -f $SERVER_PIDFILE ]]; then";
      "    SERVER_PID=" ++ DQ ++ "$(cat $SERVER_PIDFILE)" ++ DQ;
      "    SERVER_RUNNING_PROCESS=" ++ DQ ++ "$(ps -o pid,args -p $SERVER_PID | grep $SERVER_SCRIPT)" ++ DQ;
      "else";
      "    SERVER_RUNNING_PROCESS=" ++ DQ ++ "$(ps -o pid,args -A | grep $SERVER_SCRIPT | grep -v grep)" ++ DQ;
      "fi";
      "";
      "if [[ -z $SERVER_RUNNING_PROCESS ]]; then";
      "    if [[ -f $SERVER_LOGFILE ]]; then";
      "        rm $SERVER_LOGFILE";
      "    fi";
      "    if [[ -f $SERVER_TOKENFILE ]]; then";
      "        rm $SERVER_TOKENFILE";
      "    fi";
      "";
      "    touch $SERVER_TOKENFILE";
      "    chmod 600 $SERVER_TOKENFILE";
      "    SERVER_CONNECTION_TOKEN=" ++ DQ ++ tokenUUID ++ DQ;
      "    echo $SERVER_CONNECTION_TOKEN > $SERVER_TOKENFILE";
      "";
      "    $SERVER_SCRIPT --start-server --host=127.0.0.1 $SERVER_LISTEN_FLAG $SERVER_INITIAL_EXTENSIONS --connection-token-file $SERVER_TOKENFILE --telemetry-level off --enable-remote-auto-shutdown --accept-server-license-terms &> $SERVER_LOGFILE &";
      "    echo $! > $SERVER_PIDFILE";
      "else";
      "    echo " ++ DQ ++ "Server script is already running $SERVER_SCRIPT" ++ DQ;
      "fi";
      "";
      "if [[ -f $SERVER_TOKENFILE ]]; then";
      "    SERVER_CONNECTION_TOKEN=" ++ DQ ++ "$(cat $SERVER_TOKENFILE)" ++ DQ;
      "else";
      "    echo " ++ DQ ++ "Error server token file not found $SERVER_TOKENFILE" ++ DQ;
      "    print_install_results_and_exit 1";
      "fi";
      "";
      "if [[ -f $SERVER_LOGFILE ]]; then";
      "    for i in {1..5}; do";
      "        LISTENING_ON=" ++ DQ ++ "$(cat $SERVER_LOGFILE | grep -E 'Extension host agent listening on .+' | sed 's/Extension host agent listening on //')" ++ DQ;
      "        if [[ -n $LISTENING_ON ]]; then";
      "            break";
      "        fi";
      "        sleep 0.5";
      "    done";
      "";
      "    if [[ -z $LISTENING_ON ]]; then";
      "        echo " ++ DQ ++ "Error server did not start successfully" ++ DQ;
      "        print_install_results_and_exit 1";
      "    fi";
      "else";
      "    echo " ++ DQ ++ "Error server log file not found $SERVER_LOGFILE" ++ DQ;
      "    print_install_results_and_exit 1";
      "fi";
      "";
      "# Finish server setup";
      "print_install_results_and_exit 0";
      "" ].

(** [generateBashInstallScript(options)]: the socket UUID is drawn only
    when [useSocketPath] is set, and before the token UUID. *)
Definition generateBashInstallScript (o : ServerInstallOptions) : Task string :=
  let extensions :=
    joinWith " " ((fun extId => "--install-extension " ++ extId) <$> extensionIds o) in
  socketUUID <- (if useSocketPath o then host randomUUID else ret "" : Task string);;
  tokenUUID <- (host randomUUID : Task string);;
  ret (installScript o extensions socketUUID tokenUUID).

(** The command that runs the install script. *)
Definition installCommand (installServerScript : string) : string :=
  "bash -c '" ++ JS.escapeQuotes installServerScript ++ "'".

Definition notFound (localArchivePath : string) : Exn :=
  ServerInstallError ("Sidecar archive not found at " ++ localArchivePath).

Definition onlyLinux (detectedPlatform : string) : Exn :=
  ServerInstallError ("Only Linux remotes are supported for the MVP (detected: "
                      ++ detectedPlatform ++ ")").

Definition archivePathUnset : Exn :=
  ServerInstallError "remote.SSH.sidecarArchivePath must be set for local sidecar installs".

(** [installCodeServer(conn, serverArchivePath, extensionIds,
    envVariables, platform, useSocketPath, logger)] *)
Definition installCodeServer (serverArchivePath : option string)
    (extensionIds envVariables : list string) (platform : option string)
    (useSocketPath : bool) : Task (gmap string Value) :=
  scriptId <- (host (randomBytesHex 12) : Task string);;
  vscodeServerConfig <- (host getVSCodeServerConfig : Task ServerConfig.VSCodeServerConfig);;
  match truthyString serverArchivePath with
  | None => throw archivePathUnset
  | Some serverArchivePath =>
      localArchivePath <- (host (pathResolve serverArchivePath) : Task string);;
      tryCatch (host (fsAccess localArchivePath))
               (fun _ => throw (notFound localArchivePath));;
      detectedPlatform <-
        match truthyString platform with
        | Some p => ret p
        | None => onConn detectRemotePlatform
        end;;
      if negb (bool_decide (detectedPlatform = "linux"))
      then throw (onlyLinux detectedPlatform)
      else
        remoteHome <- onConn resolveRemoteHomeDir;;
        let serverDir :=
          remoteHome ++ "/" ++ ServerConfig.serverDataFolderName vscodeServerConfig
          ++ "/bin/" ++ ServerConfig.commit vscodeServerConfig in
        let serverScript :=
          serverDir ++ "/bin/" ++ ServerConfig.serverApplicationName vscodeServerConfig in
        let remoteArchivePath := serverDir ++ "/server.tar.gz" in
        localArchiveSize <- (host (fsStatSize localArchivePath) : Task Z);;
        serverInstalled <- onConn (remoteFileExists serverScript);;
        (if negb serverInstalled then
           onConn (exec ("mkdir -p " ++ shellEscape serverDir));;
           onConn (exec (removeCommand remoteArchivePath));;
           onConn (uploadFile localArchivePath remoteArchivePath);;
           onConn (verifyRemoteArchiveSize localArchivePath remoteArchivePath
                     localArchiveSize)
         else ret tt);;
        let installOptions :=
          {| id := scriptId;
             version := ServerConfig.version vscodeServerConfig;
             commit := ServerConfig.commit vscodeServerConfig;
             quality := ServerConfig.quality vscodeServerConfig;
             extensionIds := extensionIds;
             envVariables := envVariables;
             useSocketPath := useSocketPath;
             serverApplicationName := ServerConfig.serverApplicationName vscodeServerConfig;
             serverDataFolderName := ServerConfig.serverDataFolderName vscodeServerConfig;
             serverArchivePath := remoteArchivePath |} in
        installServerScript <- generateBashInstallScript installOptions;;
        commandOutput <- onConn (exec (installCommand installServerScript));;
        fun s => Done (installCodeServerResult (stdout commandOutput) scriptId envVariables) s
  end.

End Install.

(** ** serverDownload.ts: where the server archive comes from *)
Module Provision.
Import Remote ServerDownload Host.

(** The text of [arch] in a template literal. *)
Definition archName (a : Arch) : string :=
  match a with x64 => "x64" | arm64 => "arm64" end.

(** [getLocalServerPath(systemInfo, logger)]; [None] is [undefined]. *)
Definition getLocalServerPath (systemInfo : RemoteSystemInfo) : Task (option string) :=
  localDistPath <- configGet "localServerDistPath" "";;
  if decide (localDistPath = "") then ret None
  else
    serverVersion <- configGet "serverVersion" "0.1.1";;
    let filename :=
      "uplink-server-" ++ archName (arch systemInfo) ++ "-" ++ serverVersion ++ ".tar.gz" in
    fullPath <- (host (pathJoin localDistPath filename) : Task string);;
    found <- (host (fsExistsSync fullPath) : Task bool);;
    if found then ret (Some fullPath) else ret None.

(** [getServerDownloadUrl(systemInfo)] *)
Definition getServerDownloadUrl (systemInfo : RemoteSystemInfo) : Task string :=
  serverRepo <- configGet "serverRepository" "rishiad/uplink-server";;
  serverVersion <- configGet "serverVersion" "0.1.0";;
  ret ("https://github.com/" ++ serverRepo ++ "/releases/download/v" ++ serverVersion
       ++ "/uplink-server-" ++ archName (arch systemInfo) ++ "-" ++ serverVersion
       ++ ".tar.gz").

(** [uploadLocalServer(conn, localPath, remotePath, logger)] *)
Definition uploadLocalServer (localPath remotePath : string) : Script unit :=
  let destDir :=
    JS.substring remotePath 0 (default 0 (JS.lastIndexOf remotePath "/")) in
  exec ("mkdir -p '" ++ destDir ++ "'");;
  uploadFile localPath remotePath.

(** The command that looks for the archive in the remote cache. *)
Definition cacheCommand (remoteServerPath : string) : string :=
  "if [ -f '" ++ remoteServerPath ++ "' ]; then echo exists; fi".

(** [getOrDownloadServerOnRemote(conn, remoteServerDir, logger)];
    [vscode.window.withProgress] runs its task with the progress object
    that [downloadServerOnRemote] reports to. *)
Definition getOrDownloadServerOnRemote (remoteServerDir : string) : Task string :=
  systemInfo <- onConn detectRemoteSystem;;
  let remoteCacheDir := remoteServerDir ++ "/cache" in
  let remoteServerPath := remoteCacheDir ++ "/server.tar.gz" in
  localServerPath <- getLocalServerPath systemInfo;;
  match truthyString localServerPath with
  | Some localServerPath =>
      onConn (uploadLocalServer localServerPath remoteServerPath);;
      ret remoteServerPath
  | None =>
      downloadUrl <- getServerDownloadUrl systemInfo;;
      checkResult <- onConn (exec (cacheCommand remoteServerPath));;
      if decide (JS.trim (stdout checkResult) = "exists") then ret remoteServerPath
      else
        onConn (downloadServerOnRemote downloadUrl remoteServerPath);;
        ret remoteServerPath
  end.

(** What one line of the download output says about the progress:
    the test and the [parseInt] of the loop of [downloadServerOnRemote]. *)
Definition percentOf (line : string) : option Z :=
  if JS.startsWith line "PROGRESS:"
  then JS.parseInt (JS.substring line 9 (String.length line))
  else None.

(** The highest percentage among [lines], not below [lastPercent]. *)
Definition highest (lastPercent : Z) (lines : list string) : Z :=
  foldl (fun m line => match percentOf line with
                       | Some p => Z.max m p
                       | None => m
                       end) lastPercent lines.

(** The report that the loop makes when [percent] follows [lastPercent]. *)
Definition reportOf (lastPercent percent : Z) : Remote.Op :=
  progressReport (percent - lastPercent) (JS.numToString percent ++ "% complete").

(** [percent] is a new highest percentage of [percents]: it stands
    somewhere in the list, above [lastPercent] and above everything
    that stands before it. *)
Definition newHigh (lastPercent : Z) (percents : list Z) (percent : Z) : Prop :=
  exists before after,
    percents = (before ++ percent :: after)%list
    /\ (lastPercent < percent)%Z
    /\ Forall (fun q => (q < percent)%Z) before.

(** The increments that a log reports. *)
Definition increments (log : list (Event Remote.Ret)) : list Z :=
  omap (fun ev => match ev_op ev with
                  | progressReport increment _ => Some increment
                  | _ => None
                  end) log.

End Provision.

(** * Properties *)

(** ** The primitives on concrete inputs *)
Section Evaluations.
Import ServerSetup Fixtures.

Example trim_uname : JS.trim (" x86_64" ++ nl) = "x86_64".
Proof. reflexivity. Qed.

Example split_field : JS.split "exitCode==0==" "==" = ["exitCode"; "0"; ""].
Proof. reflexivity. Qed.

Example split_three_equal_signs : JS.split "a===b" "==" = ["a"; "=b"].
Proof. reflexivity. Qed.

Example splitLines_crlf :
  JS.splitLines ("a" ++ String JS.CR (String JS.CR nl) ++ "b" ++ nl)
  = ["a" ++ String JS.CR ""; "b"; ""].
Proof. reflexivity. Qed.

Example parseInt_samples :
  JS.parseInt " 1000 " = Some 1000%Z /\ JS.parseInt "" = None
  /\ JS.parseInt "undefined" = None /\ JS.parseInt "-12px" = Some (-12)%Z.
Proof. repeat split; reflexivity. Qed.

(** The sample of the specification: diagnostic lines before and after
    the block, exit code 0 and a numeric [listeningOn]. *)
Example installCodeServerResult_sample :
  exists result,
    installCodeServerResult sampleStream "abc123" [] = Fulfilled result
    /\ result !! "exitCode" = Some (VNumber 0)
    /\ result !! "listeningOn" = Some (VNumber 37500).
Proof. eexists. split; [vm_compute; reflexivity|]. split; vm_compute; reflexivity. Qed.

End Evaluations.

(** ** Running a tree *)
Section RunLemmas.
Context {Op : Type} {Ret : Op -> Type} {St : Type}.

Lemma run_andThen {A B} (env : Env Ret) (x : Async Ret St A)
    (f : Settled A -> St -> Async Ret St B) (log : list (Event Ret)) :
  run env log (andThen x f)
  = let '(r, s, log') := run env log x in run env log' (f r s).
Proof.
  revert log. induction x as [r s | s k IH | s o k IH]; intros log; simpl.
  - reflexivity.
  - apply IH.
  - apply IH.
Qed.

Lemma run_bind {A B} (env : Env Ret) (m : M Ret St A) (f : A -> M Ret St B)
    (s : St) (log : list (Event Ret)) :
  run env log (bind m f s)
  = let '(r, s', log') := run env log (m s) in
    match r with
    | Fulfilled a => run env log' (f a s')
    | Rejected e => (Rejected e, s', log')
    end.
Proof.
  unfold bind. rewrite run_andThen.
  destruct (run env log (m s)) as [[r s'] log']. destruct r; reflexivity.
Qed.

Lemma run_await {A} (env : Env Ret) (m : M Ret St A) (s : St) (log : list (Event Ret)) :
  run env log (await m s) = run env log (m s).
Proof.
  unfold await. rewrite run_andThen.
  destruct (run env log (m s)) as [[r s'] log']. reflexivity.
Qed.

End RunLemmas.

(** ** NativeSSHConnection *)
Section Native.
Import NativeSSHConnection.
Implicit Types (env : Env NativeSSH.Ret) (log : list (Event NativeSSH.Ret)) (s : State).

Lemma run_connect env log s :
  run env log (connect s)
  = match sessionId s with
    | Some _ => (Fulfilled tt, s, log)
    | None =>
        match env log (handshake (config s)) with
        | Fulfilled sid =>
            (Fulfilled tt, setSessionId (Some sid) s,
             (log ++ [mkEvent (handshake (config s)) (Fulfilled sid)])%list)
        | Rejected e =>
            (Rejected e, s, (log ++ [mkEvent (handshake (config s)) (Rejected e)])%list)
        end
    end.
Proof.
  unfold connect. rewrite run_bind. simpl.
  destruct (sessionId s) as [sid|]; [reflexivity|].
  simpl. destruct (env log (handshake (config s))) as [sid|e]; reflexivity.
Qed.

Lemma run_exec env log s cmd :
  run env log (exec cmd s)
  = let '(r, s1, log1) := run env log (connect s) in
    match r with
    | Rejected e => (Rejected e, s1, log1)
    | Fulfilled _ =>
        match sessionId s1 with
        | None => (Rejected (Error "Not connected"), s1, log1)
        | Some sid =>
            match env log1 (NativeSSH.exec sid cmd) with
            | Fulfilled out =>
                (Fulfilled {| stdout := out; stderr := "" |}, s1,
                 (log1 ++ [mkEvent (NativeSSH.exec sid cmd) (Fulfilled out)])%list)
            | Rejected e =>
                (Rejected e, s1,
                 (log1 ++ [mkEvent (NativeSSH.exec sid cmd) (Rejected e)])%list)
            end
        end
    end.
Proof.
  unfold exec. rewrite run_bind, run_await.
  destruct (run env log (connect s)) as [[r s1] log1].
  destruct r as [[]|e]; [|reflexivity].
  rewrite run_bind. simpl.
  destruct (sessionId s1) as [sid|]; [|reflexivity].
  simpl. destruct (env log1 (NativeSSH.exec sid cmd)); reflexivity.
Qed.

Lemma run_uploadFile env log s localPath remotePath :
  run env log (uploadFile localPath remotePath s)
  = let '(r, s1, log1) := run env log (connect s) in
    match r with
    | Rejected e => (Rejected e, s1, log1)
    | Fulfilled _ =>
        match sessionId s1 with
        | None => (Rejected (Error "Not connected"), s1, log1)
        | Some sid =>
            let o := NativeSSH.uploadFile sid localPath remotePath in
            (env log1 o, s1, (log1 ++ [mkEvent o (env log1 o)])%list)
        end
    end.
Proof.
  unfold uploadFile. rewrite run_bind, run_await.
  destruct (run env log (connect s)) as [[r s1] log1].
  destruct r as [[]|e]; [|reflexivity].
  rewrite run_bind. simpl.
  destruct (sessionId s1) as [sid|]; reflexivity.
Qed.

Lemma run_addTunnel env log s c :
  run env log (addTunnel c s)
  = let '(r, s1, log1) := run env log (connect s) in
    match r with
    | Rejected e => (Rejected e, s1, log1)
    | Fulfilled _ =>
        match sessionId s1 with
        | None => (Rejected (Error "Not connected"), s1, log1)
        | Some sid =>
            match tunnels s1 !! tunnelName c with
            | Some existing => (Fulfilled (withLocalPort c existing), s1, log1)
            | None =>
                if bool_decide (socks c = Some true)
                then (Rejected (Error "SOCKS tunnels not supported in native SSH connection"),
                      s1, log1)
                else
                  match env log1 (forward sid c) with
                  | Fulfilled p =>
                      (Fulfilled (withLocalPort c p),
                       setTunnels (<[tunnelName c := p]> (tunnels s1)) s1,
                       (log1 ++ [mkEvent (forward sid c) (Fulfilled p)])%list)
                  | Rejected e =>
                      (Rejected e, s1,
                       (log1 ++ [mkEvent (forward sid c) (Rejected e)])%list)
                  end
            end
        end
    end.
Proof.
  unfold addTunnel. rewrite run_bind, run_await.
  destruct (run env log (connect s)) as [[r s1] log1].
  destruct r as [[]|e]; [|reflexivity].
  rewrite run_bind. simpl.
  destruct (sessionId s1) as [sid|]; [|reflexivity].
  destruct (tunnels s1 !! tunnelName c) as [existing|]; [reflexivity|].
  destruct (bool_decide (socks c = Some true)); [reflexivity|].
  simpl. destruct (env log1 (forward sid c)); reflexivity.
Qed.

Lemma run_closeTunnel env log s name :
  run env log (closeTunnel name s)
  = (Fulfilled tt,
     setTunnels (match name with
                 | Some n => if decide (n = "") then ∅ else delete n (tunnels s)
                 | None => ∅
                 end) s,
     log).
Proof.
  unfold closeTunnel. rewrite run_bind. simpl.
  destruct name as [n|]; [|reflexivity].
  destruct (decide (n = "")); reflexivity.
Qed.

End Native.

Section NativeClaims.
Import NativeSSHConnection Fixtures.
Implicit Types (env : Env NativeSSH.Ret) (log : list (Event NativeSSH.Ret)) (s : State).

Lemma run_connect_connected env log s sid :
  sessionId s = Some sid -> run env log (connect s) = (Fulfilled tt, s, log).
Proof. intros H. rewrite run_connect, H. reflexivity. Qed.

(** After a call of [connect] that returned, the session has an id. *)
Lemma run_connect_fulfilled env log s u s1 log1 :
  run env log (connect s) = (Fulfilled u, s1, log1) ->
  exists sid, sessionId s1 = Some sid /\ tunnels s1 = tunnels s.
Proof.
  rewrite run_connect. destruct (sessionId s) as [sid|] eqn:Hs.
  - intros [= <- <- <-]. eauto.
  - destruct (env log (handshake (config s))) as [sid|e]; [|discriminate].
    intros [= <- <- <-]. exists sid. split; reflexivity.
Qed.

(** C5: when [addTunnel] has returned for a tunnel name, a second
    [addTunnel] with the same name (given, or defaulted to
    [remoteAddr:remotePort]) returns the same [localPort], leaves the
    object as it is and asks nothing of the transport: the log of
    transport operations, [forwardPort] included, does not grow. *)
Theorem addTunnel_same_name_idempotent env log s c1 c2 t1 s1 log1 :
  tunnelName c1 = tunnelName c2 ->
  run env log (addTunnel c1 s) = (Fulfilled t1, s1, log1) ->
  exists p,
    localPort t1 = Some p
    /\ run env log1 (addTunnel c2 s1) = (Fulfilled (withLocalPort c2 p), s1, log1).
Proof.
  intros Hname Hfirst.
  assert (exists p sid, localPort t1 = Some p /\ sessionId s1 = Some sid
                        /\ tunnels s1 !! tunnelName c1 = Some p) as (p & sid & Hp & Hsid & Htun).
  { rewrite run_addTunnel in Hfirst.
    destruct (run env log (connect s)) as [[r s0] log0] eqn:Hc.
    destruct r as [u|e]; [|discriminate].
    destruct (run_connect_fulfilled _ _ _ _ _ _ Hc) as (sid & Hsid & _).
    rewrite Hsid in Hfirst.
    destruct (tunnels s0 !! tunnelName c1) as [existing|] eqn:Hex.
    - injection Hfirst as <- <- <-. exists existing, sid. auto.
    - destruct (bool_decide (socks c1 = Some true)); [discriminate|].
      destruct (env log0 (forward sid c1)) as [p|e]; [|discriminate].
      injection Hfirst as <- <- <-. exists p, sid. simpl.
      rewrite lookup_insert_eq. auto. }
  exists p. split; [exact Hp|].
  rewrite run_addTunnel, (run_connect_connected _ _ _ _ Hsid), Hsid, <- Hname, Htun.
  reflexivity.
Qed.

Lemma addTunnel_same_name_idempotent_witness :
  let first := run obligingTransport [] (addTunnel sshTunnel (create devbox)) in
  exists p,
    localPort (withLocalPort sshTunnel 49153) = Some p
    /\ run obligingTransport first.2 (addTunnel sshTunnel first.1.2)
       = (Fulfilled (withLocalPort sshTunnel p), first.1.2, first.2).
Proof.
  cbv zeta.
  destruct (addTunnel_same_name_idempotent obligingTransport [] (create devbox)
              sshTunnel sshTunnel
              (withLocalPort sshTunnel 49153)
              (run obligingTransport [] (addTunnel sshTunnel (create devbox))).1.2
              (run obligingTransport [] (addTunnel sshTunnel (create devbox))).2
              eq_refl) as (p & Hp & Hrun).
  - vm_compute. reflexivity.
  - exists p. split; [|exact Hrun]. exact Hp.
Defined.

(** C7, as stated, fails: on a connected session that already has a
    tunnel named [db], the request [{ name: 'db', socks: true }] does
    not fail; it returns the local port of the existing tunnel. *)
Lemma addTunnel_socks_existing_name_returns :
  socks socksNamedDb = Some true
  /\ run obligingTransport [] (addTunnel socksNamedDb liveSession)
     = (Fulfilled (withLocalPort socksNamedDb 5000), liveSession, []).
Proof. split; reflexivity. Qed.

(** C7, amended: a request in socks mode never opens a forward and never
    changes the tunnel map.  When no tunnel is registered under its
    name, it fails: on a connected session at once, with the error
    [SOCKS tunnels not supported in native SSH connection] and without
    any transport operation; on a session that is not connected after
    the implicit handshake, with that error or with the error of the
    handshake.  When a tunnel is registered under its name, a connected
    session returns the port of that tunnel. *)
Theorem addTunnel_socks env log s c :
  socks c = Some true ->
  let '(r, s', log') := run env log (addTunnel c s) in
  (exists new, log' = (log ++ new)%list
               /\ Forall (fun ev => NativeSSH.isForwardPort (ev_op ev) = false) new)
  /\ tunnels s' = tunnels s
  /\ (tunnels s !! tunnelName c = None ->
      exists e, r = Rejected e
        /\ (e = Error "SOCKS tunnels not supported in native SSH connection"
            \/ (sessionId s = None /\ env log (handshake (config s)) = Rejected e)))
  /\ (forall sid, sessionId s = Some sid ->
      s' = s /\ log' = log
      /\ r = match tunnels s !! tunnelName c with
             | Some p => Fulfilled (withLocalPort c p)
             | None => Rejected (Error "SOCKS tunnels not supported in native SSH connection")
             end).
Proof.
  intros Hsocks. rewrite run_addTunnel, run_connect.
  destruct (sessionId s) as [sid|] eqn:Hsid.
  - rewrite Hsid.
    destruct (tunnels s !! tunnelName c) as [p|] eqn:Hp.
    + repeat split; try done.
      exists []. by rewrite app_nil_r.
    + rewrite bool_decide_eq_true_2 by done.
      repeat split; try done.
      * exists []. by rewrite app_nil_r.
      * intros _. eexists. split; [reflexivity|]. by left.
  - destruct (env log (handshake (config s))) as [sid|e] eqn:Hh.
    + simpl.
      destruct (tunnels s !! tunnelName c) as [p|] eqn:Hp.
      * repeat split; try done.
        eexists. split; [reflexivity|]. by repeat constructor.
      * rewrite bool_decide_eq_true_2 by done.
        repeat split; try done.
        -- eexists. split; [reflexivity|]. by repeat constructor.
        -- intros _. eexists. split; [reflexivity|]. by left.
    + repeat split; try done.
      * eexists. split; [reflexivity|]. by repeat constructor.
      * intros _. exists e. split; [reflexivity|]. by right.
Qed.

Lemma addTunnel_socks_witness :
  run obligingTransport [] (addTunnel socksProxy liveSession)
  = (Rejected (Error "SOCKS tunnels not supported in native SSH connection"),
     liveSession, []).
Proof.
  pose proof (addTunnel_socks obligingTransport [] liveSession socksProxy eq_refl) as H.
  destruct (run obligingTransport [] (addTunnel socksProxy liveSession)) as [[r s'] log'].
  destruct H as (_ & _ & _ & H).
  destruct (H 7%Z eq_refl) as (-> & -> & ->).
  reflexivity.
Defined.

(** Whenever [exec] returns, the [stderr] of its result is the empty
    string and its [stdout] is what the transport answered to the last
    operation, which is [NativeSSH.exec] of the command. *)
Lemma run_exec_result env log s cmd :
  let '(r, s', log') := run env log (exec cmd s) in
  match r with
  | Fulfilled result =>
      stderr result = ""
      /\ exists sid prior,
          sessionId s' = Some sid
          /\ log' = (prior ++ [mkEvent (NativeSSH.exec sid cmd) (Fulfilled (stdout result))])%list
  | Rejected _ => True
  end.
Proof.
  rewrite run_exec.
  destruct (run env log (connect s)) as [[r s1] log1].
  destruct r as [u|e]; [|exact I].
  destruct (sessionId s1) as [sid|] eqn:Hsid; [|exact I].
  destruct (env log1 (NativeSSH.exec sid cmd)) as [out|e]; [|exact I].
  split; [reflexivity|]. exists sid, log1. split; [exact Hsid|reflexivity].
Qed.

Lemma tunnelName_nonempty c : tunnelName c <> "".
Proof.
  unfold tunnelName, orString.
  assert (forall a b : string, (a ++ ":" ++ b)%string <> "") as Hd.
  { intros a b. destruct a; discriminate. }
  destruct (name c) as [v|]; [|apply Hd].
  destruct (decide (v = "")); [apply Hd|done].
Qed.

(** C10: [closeTunnel] is over without a suspension and without a
    transport operation; it leaves the session id and the configuration
    as they are and only deletes the named entry of the tunnel map, or
    every entry when no name (or the empty name) is given.  A later
    [addTunnel] on the connected session under a closed name therefore
    asks the transport for a new forward and returns the port the
    transport answers, not the port that was registered before. *)
Theorem closeTunnel_only_bookkeeping env log s name :
  let s' := setTunnels (match name with
                        | Some n => if decide (n = "") then ∅ else delete n (tunnels s)
                        | None => ∅
                        end) s in
  closeTunnel name s = Done (Fulfilled tt) s'
  /\ run env log (closeTunnel name s) = (Fulfilled tt, s', log)
  /\ sessionId s' = sessionId s /\ config s' = config s
  /\ (forall c sid,
        sessionId s = Some sid ->
        socks c <> Some true ->
        name = None \/ name = Some "" \/ name = Some (tunnelName c) ->
        run env log (addTunnel c s')
        = match env log (forward sid c) with
          | Fulfilled p =>
              (Fulfilled (withLocalPort c p),
               setTunnels (<[tunnelName c := p]> (tunnels s')) s',
               (log ++ [mkEvent (forward sid c) (Fulfilled p)])%list)
          | Rejected e =>
              (Rejected e, s', (log ++ [mkEvent (forward sid c) (Rejected e)])%list)
          end).
Proof.
  cbv zeta. split; [|split; [|split; [|split]]].
  - unfold closeTunnel, bind, get. simpl.
    destruct name as [n|]; [|reflexivity].
    destruct (decide (n = "")); reflexivity.
  - apply run_closeTunnel.
  - reflexivity.
  - reflexivity.
  - intros c sid Hsid Hsocks Hname.
    rewrite run_addTunnel, (run_connect_connected _ _ _ sid) by exact Hsid.
    simpl. rewrite Hsid.
    assert ((match name with
             | Some n => if decide (n = "") then ∅ else delete n (tunnels s)
             | None => ∅
             end : gmap string Z) !! tunnelName c = None) as ->.
    { destruct Hname as [-> | [-> | ->]]; [apply lookup_empty|apply lookup_empty|].
      destruct (decide (tunnelName c = "")) as [He|_].
      - by apply tunnelName_nonempty in He.
      - apply lookup_delete_eq. }
    rewrite bool_decide_eq_false_2 by exact Hsocks.
    destruct (env log (forward sid c)); reflexivity.
Qed.

Lemma closeTunnel_only_bookkeeping_witness :
  run obligingTransport [] (closeTunnel (Some "db") liveSession)
  = (Fulfilled tt, setTunnels ∅ liveSession, [])
  /\ run obligingTransport [] (addTunnel dbTunnel (setTunnels ∅ liveSession))
     = (Fulfilled (withLocalPort dbTunnel 49152),
        setTunnels {[ "db" := 49152%Z ]} liveSession,
        [mkEvent (forward 7 dbTunnel) (Fulfilled 49152%Z)]).
Proof.
  destruct (closeTunnel_only_bookkeeping obligingTransport [] liveSession (Some "db"))
    as (_ & Hrun & _ & _ & Hadd).
  split.
  - rewrite Hrun. vm_compute. reflexivity.
  - specialize (Hadd dbTunnel 7%Z eq_refl ltac:(discriminate)
                  (or_intror (or_intror eq_refl))).
    vm_compute in Hadd. vm_compute. exact Hadd.
Defined.

End NativeClaims.

(** ** Calls of [connect] in flight together *)
Section ConnectRace.
Import NativeSSHConnection Fixtures Interleave.
Implicit Types (env : Env NativeSSH.Ret) (s : State).

(** Every [connect] that starts while the session id is still [null]
    issues a handshake and suspends; the object is not written to. *)
Lemma start_connect_disconnected (y : Sys NativeSSH.Ret State unit) (c : nat) :
  sessionId (obj y) = None ->
  exists x,
    start c connect y
    = mkSys (obj y) (issued y ++ [handshake (config (obj y))]) (history y)
            (waiting y ++ [(c, x)]) (settledCalls y).
Proof.
  intros Hnone. unfold start, connect, bind, get. simpl. rewrite Hnone. simpl.
  eexists. reflexivity.
Qed.

Lemma starts_connect_disconnected (callers : list nat) (y : Sys NativeSSH.Ret State unit) :
  sessionId (obj y) = None ->
  let y' := foldl (fun y c => start c connect y) y callers in
  obj y' = obj y
  /\ issued y' = (issued y ++ map (fun _ => handshake (config (obj y))) callers)%list
  /\ history y' = history y
  /\ settledCalls y' = settledCalls y.
Proof.
  revert y. induction callers as [|c callers IH]; intros y Hnone; simpl.
  - by rewrite app_nil_r.
  - destruct (start_connect_disconnected y c Hnone) as [x Hx].
    specialize (IH (start c connect y)). rewrite Hx in IH |- *. simpl in IH.
    destruct (IH Hnone) as (Hobj & Hiss & Hhist & Hset).
    repeat split; try assumption.
    rewrite Hiss, <- app_assoc. reflexivity.
Qed.

(** C2, as stated, fails: two calls of [connect] started on a new
    connection before the first handshake settles issue two handshakes. *)
Lemma connect_twice_two_handshakes :
  let y := resume obligingTransport 2
             (resume obligingTransport 1
                (start 2 connect (start 1 connect (initial (create devbox))))) in
  issued y = [handshake devbox; handshake devbox]
  /\ settledCalls y = [(1, Fulfilled tt); (2, Fulfilled tt)]
  /\ sessionId (obj y) = Some 2%Z.
Proof. repeat split; reflexivity. Qed.

(** C2, amended: [connect] on a session that has an id returns at once
    without a handshake and without a write.  While the id is [null],
    every call of [connect] issues its own handshake: calls started
    before any handshake settles issue as many handshakes as there are
    calls.  Two such calls both return the one shared object when the
    transport accepts both handshakes, and its session id is the one
    that settled last.  A second call started after the first one has
    returned issues no handshake, so calls in sequence perform one. *)
Theorem connect_handshake_count env s :
  (forall sid, sessionId s = Some sid -> connect s = Done (Fulfilled tt) s)
  /\ (sessionId s = None ->
      (forall callers : list nat,
          let y := foldl (fun y c => start c connect y) (initial s) callers in
          issued y = map (fun _ => handshake (config s)) callers
          /\ obj y = s /\ settledCalls y = [])
      /\ (forall sid1 sid2,
          env [] (handshake (config s)) = Fulfilled sid1 ->
          env [mkEvent (handshake (config s)) (Fulfilled sid1)] (handshake (config s))
          = Fulfilled sid2 ->
          let y := resume env 2 (resume env 1
                     (start 2 connect (start 1 connect (initial s)))) in
          issued y = [handshake (config s); handshake (config s)]
          /\ settledCalls y = [(1, Fulfilled tt); (2, Fulfilled tt)]
          /\ obj y = setSessionId (Some sid2) s)
      /\ (forall sid1,
          env [] (handshake (config s)) = Fulfilled sid1 ->
          let y := start 2 connect (resume env 1 (start 1 connect (initial s))) in
          issued y = [handshake (config s)]
          /\ settledCalls y = [(1, Fulfilled tt); (2, Fulfilled tt)]
          /\ obj y = setSessionId (Some sid1) s)).
Proof.
  split.
  - intros sid Hsid. unfold connect, bind, get. simpl. rewrite Hsid. reflexivity.
  - intros Hnone. split; [|split].
    + intros callers.
      destruct (starts_connect_disconnected callers (initial s) Hnone)
        as (Hobj & Hiss & _ & Hset).
      simpl in *. auto.
    + intros sid1 sid2 H1 H2.
      unfold start, resume, connect, bind, get, initial. simpl.
      rewrite Hnone. simpl. rewrite Hnone. simpl.
      rewrite H1. simpl. simpl in H2. rewrite H2. simpl.
      repeat split; reflexivity.
    + intros sid1 H1.
      unfold start, resume, connect, bind, get, initial. simpl.
      rewrite Hnone. simpl. rewrite H1. simpl.
      repeat split; reflexivity.
Qed.

Lemma connect_handshake_count_witness :
  issued (foldl (fun y c => start c connect y) (initial (create devbox)) [1; 2; 3])
  = [handshake devbox; handshake devbox; handshake devbox]
  /\ issued (start 2 connect (resume obligingTransport 1
               (start 1 connect (initial (create devbox)))))
     = [handshake devbox].
Proof.
  destruct (connect_handshake_count obligingTransport (create devbox)) as [_ H].
  destruct (H eq_refl) as (Hmany & _ & Hseq).
  split.
  - exact (proj1 (Hmany [1; 2; 3])).
  - exact (proj1 (Hseq 1%Z eq_refl)).
Defined.

End ConnectRace.

(** ** serverDownload.ts and serverSetup.ts on a connection *)
Section RemoteClaims.
Import Remote ServerSetup ServerDownload Fixtures.
Implicit Types (env : Env Remote.Ret) (log : list (Event Remote.Ret)).

Lemma run_exec_remote env log cmd :
  run env log (Remote.exec cmd tt)
  = (env log (connExec cmd), tt, (log ++ [mkEvent (connExec cmd) (env log (connExec cmd))])%list).
Proof. reflexivity. Qed.

Lemma run_upload_remote env log localPath remotePath :
  run env log (Remote.uploadFile localPath remotePath tt)
  = (env log (connUploadFile localPath remotePath), tt,
     (log ++ [mkEvent (connUploadFile localPath remotePath)
                (env log (connUploadFile localPath remotePath))])%list).
Proof. reflexivity. Qed.

(** C8: [detectRemoteSystem] runs [uname -m] once.  For the trimmed
    output [x86_64] or [amd64] it returns [x64], for [aarch64] or
    [arm64] it returns [arm64], and for every other value it throws
    [Unsupported architecture: <value>]; no value is given a default. *)
Theorem detectRemoteSystem_arch env log :
  let q := connExec "uname -m" in
  let '(r, _, log') := run env log (detectRemoteSystem tt) in
  log' = (log ++ [mkEvent q (env log q)])%list
  /\ match env log q with
     | Rejected e => r = Rejected e
     | Fulfilled res =>
         let a := JS.trim (stdout res) in
         (a = "x86_64" \/ a = "amd64" -> r = Fulfilled {| arch := x64; libc := glibc |})
         /\ (a = "aarch64" \/ a = "arm64" -> r = Fulfilled {| arch := arm64; libc := glibc |})
         /\ (a <> "x86_64" -> a <> "amd64" -> a <> "aarch64" -> a <> "arm64" ->
             r = Rejected (Error ("Unsupported architecture: " ++ a)))
     end.
Proof.
  cbv zeta. unfold detectRemoteSystem. rewrite run_bind, run_exec_remote.
  destruct (env log (connExec "uname -m")) as [res|e]; [|split; reflexivity].
  simpl.
  repeat case_bool_decide; simpl; (split; [reflexivity|]);
    repeat split; intros; try reflexivity; try congruence;
    repeat match goal with H : _ \/ _ |- _ => destruct H end; congruence.
Qed.

Lemma detectRemoteSystem_arch_witness :
  (run (printing ("sparc64" ++ String JS.LF "")) [] (detectRemoteSystem tt)).1.1
  = Rejected (Error "Unsupported architecture: sparc64").
Proof.
  pose proof (detectRemoteSystem_arch (printing ("sparc64" ++ String JS.LF "")) []) as H.
  cbv zeta in H.
  destruct (run (printing ("sparc64" ++ String JS.LF "")) [] (detectRemoteSystem tt))
    as [[r u] log'].
  destruct H as (_ & _ & _ & H).
  simpl. rewrite H; [reflexivity | discriminate ..].
Defined.

Lemma run_getRemoteFileSize env log remotePath :
  run env log (getRemoteFileSize remotePath tt)
  = let q := connExec (sizeCommand remotePath) in
    (match env log q with
     | Fulfilled result => Fulfilled (sizeOf result)
     | Rejected e => Rejected e
     end, tt, (log ++ [mkEvent q (env log q)])%list).
Proof.
  unfold getRemoteFileSize. rewrite run_bind, run_exec_remote.
  destruct (env log (connExec (sizeCommand remotePath))); reflexivity.
Qed.

Lemma uploadsSoFar_snoc log (o : Remote.Op) (r : Settled (Remote.Ret o)) :
  uploadsSoFar (log ++ [mkEvent o r])
  = uploadsSoFar log + (if Remote.isUpload o then 1 else 0).
Proof.
  unfold uploadsSoFar. rewrite filter_app, length_app. f_equal.
  rewrite filter_cons. simpl. destruct (Remote.isUpload o); case_decide; done.
Qed.

(** The re-upload is attempted at most once, whatever the connection answers. *)
Lemma verifyRemoteArchiveSize_uploads_le_1 env log localPath remotePath localSize :
  let log' := (run env log (verifyRemoteArchiveSize localPath remotePath localSize tt)).2 in
  uploadsSoFar log' <= uploadsSoFar log + 1.
Proof.
  cbv zeta. unfold verifyRemoteArchiveSize.
  rewrite run_bind, run_getRemoteFileSize. cbv zeta.
  destruct (env log (connExec (sizeCommand remotePath))) as [res1|e];
    [|simpl; rewrite !uploadsSoFar_snoc; simpl; lia].
  case_bool_decide; [simpl; rewrite !uploadsSoFar_snoc; simpl; lia|].
  rewrite run_bind, run_exec_remote.
  destruct (env _ (connExec (removeCommand remotePath))) as [res2|e];
    [|simpl; rewrite !uploadsSoFar_snoc; simpl; lia].
  rewrite run_bind, run_upload_remote.
  destruct (env _ (connUploadFile localPath remotePath)) as [u|e];
    [|simpl; rewrite !uploadsSoFar_snoc; simpl; lia].
  rewrite run_bind, run_getRemoteFileSize. cbv zeta.
  destruct (env _ (connExec (sizeCommand remotePath))) as [res4|e];
    [|simpl; rewrite !uploadsSoFar_snoc; simpl; lia].
  case_bool_decide; simpl; rewrite !uploadsSoFar_snoc; simpl; lia.
Qed.

(** C3, for a local size and remote byte counts that are safe integers
    (below [2 ^ 53] in absolute value, the range in which a parsed size
    is exact): when the remote byte count equals the local size the call
    returns after that one query, without an upload.  When it differs,
    the archive is removed and uploaded again once and the size is
    queried again: if it now equals the local size the call returns,
    after exactly one upload; if it still differs the call throws
    [Sidecar archive upload incomplete], naming the local size and the
    remote size of the second query ([missing] when there is none),
    again after exactly one upload.  No run makes more than one upload. *)
Theorem verifyRemoteArchiveSize_retries_once env log localPath remotePath (localSize : Z) :
  let q := connExec (sizeCommand remotePath) in
  let rm := connExec (removeCommand remotePath) in
  let up := connUploadFile localPath remotePath in
  let verify := verifyRemoteArchiveSize localPath remotePath localSize tt in
  (Z.abs localSize < 2 ^ 53)%Z ->
  (forall l res n,
      env l q = Fulfilled res -> sizeOf res = Some n -> (Z.abs n < 2 ^ 53)%Z) ->
  uploadsSoFar (run env log verify).2 <= uploadsSoFar log + 1
  /\ (forall res,
        env log q = Fulfilled res ->
        sizeOf res = Some localSize ->
        run env log verify = (Fulfilled tt, tt, (log ++ [mkEvent q (Fulfilled res)])%list))
  /\ (forall res1 res2 u res4,
        env log q = Fulfilled res1 ->
        sizeOf res1 <> Some localSize ->
        let log1 := (log ++ [mkEvent q (Fulfilled res1)])%list in
        env log1 rm = Fulfilled res2 ->
        let log2 := (log1 ++ [mkEvent rm (Fulfilled res2)])%list in
        env log2 up = Fulfilled u ->
        let log3 := (log2 ++ [mkEvent up (Fulfilled u)])%list in
        env log3 q = Fulfilled res4 ->
        let log4 := (log3 ++ [mkEvent q (Fulfilled res4)])%list in
        uploadsSoFar log4 = uploadsSoFar log + 1
        /\ (sizeOf res4 = Some localSize -> run env log verify = (Fulfilled tt, tt, log4))
        /\ (sizeOf res4 <> Some localSize ->
            run env log verify
            = (Rejected (ServerInstallError
                           ("Sidecar archive upload incomplete (local "
                            ++ JS.numToString localSize ++ " bytes, remote "
                            ++ match sizeOf res4 with
                               | Some n => JS.numToString n
                               | None => "missing"
                               end ++ ").")), tt, log4))).
Proof.
  cbv zeta. intros _ _. split; [apply verifyRemoteArchiveSize_uploads_le_1|]. split.
  - intros res Hq Hsize. unfold verifyRemoteArchiveSize.
    rewrite run_bind, run_getRemoteFileSize. cbv zeta. rewrite Hq, Hsize.
    rewrite bool_decide_eq_true_2 by reflexivity. reflexivity.
  - intros res1 res2 u res4 Hq Hsize Hrm Hup Hq4.
    split.
    + rewrite !uploadsSoFar_snoc. simpl. lia.
    + assert (run env log (verifyRemoteArchiveSize localPath remotePath localSize tt)
              = if negb (bool_decide (sizeOf res4 = Some localSize))
                then (Rejected (uploadIncomplete localSize (sizeOf res4)), tt,
                      (((log ++ [mkEvent (connExec (sizeCommand remotePath)) (Fulfilled res1)])
                          ++ [mkEvent (connExec (removeCommand remotePath)) (Fulfilled res2)])
                         ++ [mkEvent (connUploadFile localPath remotePath) (Fulfilled u)])
                        ++ [mkEvent (connExec (sizeCommand remotePath)) (Fulfilled res4)])%list
                else (Fulfilled tt, tt,
                      (((log ++ [mkEvent (connExec (sizeCommand remotePath)) (Fulfilled res1)])
                          ++ [mkEvent (connExec (removeCommand remotePath)) (Fulfilled res2)])
                         ++ [mkEvent (connUploadFile localPath remotePath) (Fulfilled u)])
                        ++ [mkEvent (connExec (sizeCommand remotePath)) (Fulfilled res4)])%list)
        as Hrun.
      { unfold verifyRemoteArchiveSize.
        rewrite run_bind, run_getRemoteFileSize. cbv zeta. rewrite Hq.
        rewrite bool_decide_eq_false_2 by exact Hsize.
        rewrite run_bind, run_exec_remote, Hrm.
        rewrite run_bind, run_upload_remote, Hup.
        rewrite run_bind, run_getRemoteFileSize. cbv zeta. rewrite Hq4.
        destruct (bool_decide (sizeOf res4 = Some localSize)); reflexivity. }
      split; intros H4; rewrite Hrun.
      * rewrite bool_decide_eq_true_2 by exact H4. reflexivity.
      * rewrite bool_decide_eq_false_2 by exact H4. reflexivity.
Qed.

Lemma verifyRemoteArchiveSize_retries_once_witness :
  let verify := verifyRemoteArchiveSize "/dist/server.tar.gz" "/srv/server.tar.gz" 1000 tt in
  let nl := String JS.LF "" in
  (let out := run (remoteWithSizes ["1000" ++ nl]) [] verify in
   out.1.1 = Fulfilled tt /\ uploadsSoFar out.2 = 0)
  /\ (let out := run (remoteWithSizes ["900" ++ nl; "1000" ++ nl]) [] verify in
      out.1.1 = Fulfilled tt /\ uploadsSoFar out.2 = 1)
  /\ (let out := run (remoteWithSizes ["900" ++ nl; "900" ++ nl]) [] verify in
      out.1.1 = Rejected (ServerInstallError
                   "Sidecar archive upload incomplete (local 1000 bytes, remote 900).")
      /\ uploadsSoFar out.2 = 1).
Proof.
  assert (forall sizes,
            Forall (fun out => forall n, sizeOf {| stdout := out; stderr := "" |} = Some n ->
                                         (Z.abs n < 2 ^ 53)%Z) sizes ->
            forall l res n,
              remoteWithSizes sizes l (connExec (sizeCommand "/srv/server.tar.gz"))
              = Fulfilled res ->
              sizeOf res = Some n -> (Z.abs n < 2 ^ 53)%Z) as Hsafe.
  { intros sizes Hall l res n [= <-]. revert Hall. generalize (uploadsSoFar l).
    induction sizes as [|out sizes IH]; intros k Hall.
    - destruct k; discriminate.
    - inversion Hall as [|? ? Hout Hrest]; subst. destruct k as [|k]; [apply Hout|].
      apply (IH k Hrest). }
  assert (forall n, sizeOf {| stdout := "1000" ++ String JS.LF ""; stderr := "" |} = Some n ->
                    (Z.abs n < 2 ^ 53)%Z) as H1000 by (intros n [= <-]; reflexivity).
  assert (forall n, sizeOf {| stdout := "900" ++ String JS.LF ""; stderr := "" |} = Some n ->
                    (Z.abs n < 2 ^ 53)%Z) as H900 by (intros n [= <-]; reflexivity).
  cbv zeta. split; [|split].
  - destruct (verifyRemoteArchiveSize_retries_once
                (remoteWithSizes ["1000" ++ String JS.LF ""]) []
                "/dist/server.tar.gz" "/srv/server.tar.gz" 1000 eq_refl
                (Hsafe ["1000" ++ String JS.LF ""]
                   ltac:(repeat constructor; assumption))) as (_ & H & _).
    rewrite (H _ eq_refl eq_refl). split; reflexivity.
  - destruct (verifyRemoteArchiveSize_retries_once
                (remoteWithSizes ["900" ++ String JS.LF ""; "1000" ++ String JS.LF ""]) []
                "/dist/server.tar.gz" "/srv/server.tar.gz" 1000 eq_refl
                (Hsafe ["900" ++ String JS.LF ""; "1000" ++ String JS.LF ""]
                   ltac:(repeat constructor; assumption))) as (_ & _ & H).
    destruct (H _ _ _ _ eq_refl ltac:(discriminate) eq_refl eq_refl eq_refl)
      as (_ & Hok & _).
    rewrite (Hok eq_refl). split; reflexivity.
  - destruct (verifyRemoteArchiveSize_retries_once
                (remoteWithSizes ["900" ++ String JS.LF ""; "900" ++ String JS.LF ""]) []
                "/dist/server.tar.gz" "/srv/server.tar.gz" 1000 eq_refl
                (Hsafe ["900" ++ String JS.LF ""; "900" ++ String JS.LF ""]
                   ltac:(repeat constructor; assumption))) as (_ & _ & H).
    destruct (H _ _ _ _ eq_refl ltac:(discriminate) eq_refl eq_refl eq_refl)
      as (_ & _ & Hfail).
    rewrite (Hfail ltac:(discriminate)). split; reflexivity.
Defined.

End RemoteClaims.

(** ** Scripts run on a [NativeSSHConnection] *)
Section OnNativeClaims.
Import NativeSSHConnection OnNative Fixtures.
Implicit Types (env : Env NativeSSH.Ret) (log : list (Event NativeSSH.Ret)) (s : State).

Lemma run_onConnection_andThen {A B} env (x : Async Remote.Ret unit A)
    (g : Settled A -> unit -> Async Remote.Ret unit B) log s :
  run env log (onConnection (andThen x g) s)
  = let '(r, s', log') := run env log (onConnection x s) in
    run env log' (onConnection (g r tt) s').
Proof.
  revert log s. induction x as [r u | u k IH | u o k IH]; intros log s; simpl.
  - destruct u. reflexivity.
  - apply IH.
  - rewrite !run_andThen.
    destruct (run env log (handle o s)) as [[r s'] log']. apply IH.
Qed.

Lemma run_onConnection_bind {A B} env (m : Remote.Script A) (f : A -> Remote.Script B) log s :
  run env log (onConnection (bind m f tt) s)
  = let '(r, s', log') := run env log (onConnection (m tt) s) in
    match r with
    | Fulfilled a => run env log' (onConnection (f a tt) s')
    | Rejected e => (Rejected e, s', log')
    end.
Proof.
  unfold bind. rewrite run_onConnection_andThen.
  destruct (run env log (onConnection (m tt) s)) as [[r s'] log'].
  destruct r; reflexivity.
Qed.

Lemma run_onConnection_exec env log s cmd :
  run env log (onConnection (Remote.exec cmd tt) s) = run env log (exec cmd s).
Proof.
  unfold Remote.exec, call. simpl. rewrite run_andThen.
  destruct (run env log (exec cmd s)) as [[r s'] log']. reflexivity.
Qed.

Lemma run_onConnection_reportProgress env log s lastPercent lines :
  run env log (onConnection (ServerDownload.reportProgress lastPercent lines tt) s)
  = (Fulfilled tt, s, log).
Proof.
  revert lastPercent. induction lines as [|line lines IH]; intros lastPercent; simpl.
  - reflexivity.
  - destruct (JS.startsWith line "PROGRESS:"); [|apply IH].
    destruct (JS.parseInt _) as [percent|]; [|apply IH].
    destruct (lastPercent <? percent)%Z; [|apply IH].
    rewrite run_onConnection_bind. simpl. apply IH.
Qed.

(** On a transport that rejects nothing, [exec] returns, and with an
    empty [stderr]. *)
Lemma run_exec_accepting env log s cmd :
  (forall l o, exists a, env l o = Fulfilled a) ->
  exists out s' log',
    run env log (exec cmd s) = (Fulfilled {| stdout := out; stderr := "" |}, s', log').
Proof.
  intros Hok. rewrite run_exec, run_connect.
  destruct (sessionId s) as [sid|] eqn:Hsid.
  - rewrite Hsid. destruct (Hok log (NativeSSH.exec sid cmd)) as [out ->]. eauto.
  - destruct (Hok log (handshake (config s))) as [sid ->]. simpl.
    match goal with
    | |- context [env ?l (NativeSSH.exec ?i cmd)] =>
        destruct (Hok l (NativeSSH.exec i cmd)) as [out Hout]
    end.
    simpl in Hout. rewrite Hout. eauto.
Qed.

(** C9: whenever [exec] of a [NativeSSHConnection] returns, the [stderr]
    of its result is the empty string and its [stdout] is what the
    transport answered to [NativeSSH.exec] of the command.  A caller
    therefore never sees a non-empty [stderr]: when all transport
    operations succeed, [downloadServerOnRemote] on such a connection
    either returns or throws [Download failed: Unknown error], the text
    it uses when [stderr] is empty. *)
Theorem exec_stderr_always_empty env log s cmd :
  (let '(r, s', log') := run env log (exec cmd s) in
   match r with
   | Fulfilled result =>
       stderr result = ""
       /\ exists sid prior,
           sessionId s' = Some sid
           /\ log' = (prior ++ [mkEvent (NativeSSH.exec sid cmd)
                                  (Fulfilled (stdout result))])%list
   | Rejected _ => True
   end)
  /\ ((forall l o, exists a, env l o = Fulfilled a) ->
      forall url destPath,
        let r := (run env log
                    (onConnection (ServerDownload.downloadServerOnRemote url destPath tt) s)).1.1 in
        r = Fulfilled tt \/ r = Rejected (Error "Download failed: Unknown error")).
Proof.
  split; [apply run_exec_result|].
  intros Hok url destPath. cbv zeta.
  unfold ServerDownload.downloadServerOnRemote.
  rewrite run_onConnection_bind, run_onConnection_exec.
  destruct (run_exec_accepting env log s
              ("mkdir -p '" ++
               JS.substring destPath 0 (default 0 (JS.lastIndexOf destPath "/")) ++ "'") Hok)
    as (out1 & s1 & log1 & ->).
  rewrite run_onConnection_bind, run_onConnection_exec.
  destruct (run_exec_accepting env log1 s1
              ("bash -c '" ++
               JS.escapeQuotes (ServerDownload.downloadScript url destPath) ++ "'") Hok)
    as (out2 & s2 & log2 & ->).
  rewrite run_onConnection_bind, run_onConnection_reportProgress.
  simpl.
  destruct (JS.includes out2 "DOWNLOAD_COMPLETE"); simpl; auto.
Qed.

Lemma exec_stderr_always_empty_witness :
  (run obligingTransport []
     (onConnection
        (ServerDownload.downloadServerOnRemote "https://example.org/s.tar.gz"
           "/home/dev/.uplink/cache/server.tar.gz" tt)
        (create devbox))).1.1
  = Rejected (Error "Download failed: Unknown error").
Proof.
  destruct (exec_stderr_always_empty obligingTransport [] (create devbox) "true") as [_ H].
  assert (forall l o, exists a, obligingTransport l o = Fulfilled a) as Hok.
  { intros l o. destruct o; simpl; eauto. }
  destruct (H Hok "https://example.org/s.tar.gz" "/home/dev/.uplink/cache/server.tar.gz")
    as [Hr | Hr].
  - vm_compute in Hr. discriminate Hr.
  - exact Hr.
Defined.

End OnNativeClaims.

(** ** Strings *)
Section Strings.
Implicit Types (s t pat : string) (n i : nat).
#[local] Arguments String.append !s1 s2 : simpl nomatch.

Lemma app_assoc_s s t u : ((s ++ t) ++ u)%string = (s ++ t ++ u)%string.
Proof. induction s as [|c s IH]; simpl; [reflexivity|]. by rewrite IH. Qed.

Lemma length_app_s s t : String.length (s ++ t) = String.length s + String.length t.
Proof. induction s as [|c s IH]; simpl; [reflexivity|]. by rewrite IH. Qed.

Lemma drop_0 s : JS.drop 0 s = s.
Proof. by destruct s. Qed.

Lemma drop_app_length s t : JS.drop (String.length s) (s ++ t) = t.
Proof. induction s as [|c s IH]; simpl; [apply drop_0|exact IH]. Qed.

Lemma drop_drop n m s : JS.drop n (JS.drop m s) = JS.drop (m + n) s.
Proof.
  revert s. induction m as [|m IH]; intros s; simpl.
  - reflexivity.
  - destruct s as [|c s]; [by destruct n|]. apply IH.
Qed.

Lemma take_app_length s t : JS.take (String.length s) (s ++ t) = s.
Proof. induction s as [|c s IH]; simpl; [by destruct t|]. by rewrite IH. Qed.

Lemma take_drop n s : (JS.take n s ++ JS.drop n s)%string = s.
Proof.
  revert s. induction n as [|n IH]; intros s; simpl.
  - by destruct s.
  - destruct s as [|c s]; [reflexivity|]. simpl. by rewrite IH.
Qed.

Lemma length_take_le n s : n <= String.length s -> String.length (JS.take n s) = n.
Proof.
  revert s. induction n as [|n IH]; intros s Hn; [by destruct s|].
  destruct s as [|c s]; simpl in *; [lia|]. rewrite IH; lia.
Qed.

Lemma prefix_app pat t : String.prefix pat (pat ++ t) = true.
Proof.
  induction pat as [|c pat IH]; simpl; [by destruct t|].
  destruct (ascii_dec c c); [exact IH|done].
Qed.

Lemma prefix_true pat s :
  String.prefix pat s = true -> s = (pat ++ JS.drop (String.length pat) s)%string.
Proof.
  revert s. induction pat as [|c pat IH]; intros s H; simpl.
  - reflexivity.
  - destruct s as [|d s]; simpl in H; [discriminate|].
    destruct (ascii_dec c d) as [->|]; [|discriminate].
    f_equal. by apply IH.
Qed.

(** A pattern that fits into [s] is a prefix of [s ++ t] only when it is
    a prefix of [s]. *)
Lemma prefix_app_long pat s t :
  String.length pat <= String.length s ->
  String.prefix pat (s ++ t) = String.prefix pat s.
Proof.
  revert s. induction pat as [|c pat IH]; intros s Hlen; simpl.
  - destruct s; simpl; by destruct t.
  - destruct s as [|d s]; simpl in *; [lia|].
    destruct (ascii_dec c d); [apply IH; lia|reflexivity].
Qed.

Lemma length_drop n s : String.length (JS.drop n s) = String.length s - n.
Proof.
  revert s. induction n as [|n IH]; intros s; simpl.
  - lia.
  - destruct s as [|c s]; simpl; [reflexivity|apply IH].
Qed.

Lemma app_cons_s (c : ascii) s t :
  (String c s ++ t)%string = String c (s ++ t).
Proof. reflexivity. Qed.

Lemma app_nil_r_s s : (s ++ "")%string = s.
Proof. induction s as [|c s IH]; [reflexivity|]. by rewrite app_cons_s, IH. Qed.

Lemma search_unfold pat s i :
  JS.search pat s i
  = if String.prefix pat s then Some i
    else match s with
         | String _ s' => JS.search pat s' (S i)
         | EmptyString => None
         end.
Proof. destruct s; reflexivity. Qed.

Lemma search_shift pat s i :
  JS.search pat s i
  = match JS.search pat s 0 with Some n => Some (i + n) | None => None end.
Proof.
  revert i. induction s as [|c s IH]; intros i.
  - rewrite !search_unfold. destruct (String.prefix pat ""); [f_equal; lia|reflexivity].
  - rewrite (search_unfold _ _ i), (search_unfold _ _ 0).
    destruct (String.prefix pat (String c s)); [f_equal; lia|].
    rewrite (IH (S i)), (IH 1). destruct (JS.search pat s 0); [f_equal; lia|reflexivity].
Qed.

(** [search] finds the first position at which the pattern is a prefix. *)
Lemma search_Some pat s i n :
  JS.search pat s i = Some n ->
  exists k, n = i + k /\ k <= String.length s
            /\ String.prefix pat (JS.drop k s) = true
            /\ forall p, p < k -> String.prefix pat (JS.drop p s) = false.
Proof.
  revert i. induction s as [|c s IH]; intros i; rewrite search_unfold.
  - destruct (String.prefix pat "") eqn:Hp; [|discriminate].
    intros [= <-]. exists 0. repeat split; [lia|simpl; lia|exact Hp|lia].
  - destruct (String.prefix pat (String c s)) eqn:Hp.
    + intros [= <-]. exists 0. repeat split; [lia|simpl; lia|exact Hp|lia].
    + intros H. destruct (IH _ H) as (k & -> & Hk & Hpre & Hfirst).
      exists (S k). repeat split; [lia|simpl; lia|exact Hpre|].
      intros [|p] Hlt; [exact Hp|]. apply Hfirst. lia.
Qed.

Lemma search_None pat s i :
  JS.search pat s i = None ->
  forall p, p <= String.length s -> String.prefix pat (JS.drop p s) = false.
Proof.
  revert i. induction s as [|c s IH]; intros i; rewrite search_unfold.
  - destruct (String.prefix pat "") eqn:Hp; [discriminate|].
    intros _ p Hle. by destruct p.
  - destruct (String.prefix pat (String c s)) eqn:Hp; [discriminate|].
    intros H [|p] Hle; [exact Hp|]. apply (IH _ H). simpl in Hle. lia.
Qed.

(** The first occurrence of a pattern at the end of [pre ++ pat] stays
    the first one whatever follows. *)
Lemma search_app_first pat pre rest i :
  JS.search pat (pre ++ pat) i = Some (i + String.length pre) ->
  JS.search pat (pre ++ pat ++ rest) i = Some (i + String.length pre).
Proof.
  revert i. induction pre as [|c pre IH]; intros i.
  - intros _. change ("" ++ pat ++ rest)%string with (pat ++ rest)%string.
    rewrite search_unfold, prefix_app. simpl. f_equal. lia.
  - change (String c pre ++ pat)%string with (String c (pre ++ pat)).
    change (String c pre ++ pat ++ rest)%string with (String c (pre ++ pat ++ rest)).
    rewrite !(search_unfold _ (String c _)).
    destruct (String.prefix pat (String c (pre ++ pat))) eqn:Hp.
    + intros [= H]. simpl in H. lia.
    + intros H.
      assert (String.prefix pat (String c (pre ++ pat ++ rest)) = false) as ->.
      { rewrite <- Hp.
        change (String c (pre ++ pat ++ rest)) with (String c pre ++ pat ++ rest)%string.
        change (String c (pre ++ pat)) with (String c pre ++ pat)%string.
        rewrite <- (app_assoc_s (String c pre) pat rest).
        apply prefix_app_long. rewrite length_app_s. lia. }
      simpl String.length in *.
      replace (i + S (String.length pre)) with (S i + String.length pre) in * by lia.
      by apply IH.
Qed.

End Strings.

(** ** The install output *)
Section ParseClaims.
Import ServerSetup Framing Fixtures.
Implicit Types (str scriptId pre body post : string).

Lemma noBreak_app (s t : string) : noBreak (s ++ t) = noBreak s && noBreak t.
Proof.
  induction s as [|c s IH]; [reflexivity|].
  rewrite app_cons_s. cbn [noBreak]. rewrite IH. by rewrite !andb_assoc.
Qed.

Lemma plain_noBreak (s : string) : plain s = true -> noBreak s = true.
Proof.
  induction s as [|c s IH]; [done|]. cbn [plain noBreak].
  intros [[[H1 H2]%andb_true_iff _]%andb_true_iff Hs]%andb_true_iff.
  rewrite H1, H2. by apply IH.
Qed.

(** A line that ends in LF is one piece for [split(/\r?\n/)]. *)
Lemma splitLinesFrom_line (cur l rest : string) :
  noBreak l = true ->
  JS.splitLinesFrom cur (l ++ String JS.LF rest)
  = (cur ++ l)%string :: JS.splitLinesFrom "" rest.
Proof.
  revert cur. induction l as [|c l IH]; intros cur Hl.
  - rewrite app_nil_r_s. reflexivity.
  - cbn [noBreak] in Hl.
    apply andb_true_iff in Hl as [[Hlf Hcr]%andb_true_iff Hl].
    apply negb_true_iff in Hlf, Hcr.
    rewrite app_cons_s. cbn [JS.splitLinesFrom]. rewrite Hlf, Hcr.
    rewrite (IH _ Hl), app_assoc_s. reflexivity.
Qed.

(** A key without [=] is a piece of its own for [split('==')]. *)
Lemma splitFrom_field (cur k rest : string) :
  plain k = true ->
  JS.splitFrom "==" 0 cur (k ++ "==" ++ rest)
  = (cur ++ k)%string :: JS.splitFrom "==" 0 "" rest.
Proof.
  revert cur. induction k as [|c k IH]; intros cur Hk.
  - rewrite app_nil_r_s.
    change ("" ++ "==" ++ rest)%string with (String "=" (String "=" rest)).
    destruct rest; reflexivity.
  - cbn [plain] in Hk.
    apply andb_true_iff in Hk as [[_ Heq%negb_true_iff]%andb_true_iff Hk].
    rewrite app_cons_s. cbn [JS.splitFrom String.prefix].
    destruct (ascii_dec "=" c) as [<-|_]; [discriminate Heq|].
    rewrite (IH _ Hk), app_assoc_s. reflexivity.
Qed.

Lemma keyValue_fieldLine (k v : string) :
  plain k = true -> plain v = true -> keyValue (fieldLine (k, v)) = (k, Some v).
Proof.
  intros Hk Hv. unfold keyValue, fieldLine, JS.split. cbn [fst snd].
  rewrite (splitFrom_field "" k _ Hk).
  change ("==")%string with ("==" ++ "")%string at 2.
  rewrite (splitFrom_field "" v _ Hv). reflexivity.
Qed.

Lemma fieldLine_noBreak (kv : string * string) :
  plain kv.1 = true -> plain kv.2 = true -> noBreak (fieldLine kv) = true.
Proof.
  intros Hk Hv. unfold fieldLine.
  rewrite !noBreak_app, (plain_noBreak _ Hk), (plain_noBreak _ Hv). reflexivity.
Qed.

Lemma splitLines_fieldLines (fields : list (string * string)) :
  Forall plainField fields ->
  JS.splitLinesFrom "" (fieldLines fields) = ((fieldLine <$> fields) ++ [EmptyString])%list.
Proof.
  induction 1 as [|kv fields [Hk Hv] _ IH]; [reflexivity|].
  cbn [fieldLines]. rewrite splitLinesFrom_line by by apply fieldLine_noBreak.
  rewrite IH. reflexivity.
Qed.

Lemma splitLines_block (fields : list (string * string)) :
  Forall plainField fields ->
  JS.splitLines (block fields)
  = (EmptyString :: (fieldLine <$> fields) ++ [EmptyString])%list.
Proof.
  intros H. unfold JS.splitLines, block.
  change (JS.splitLinesFrom "" (String JS.LF (fieldLines fields)))
    with (EmptyString :: JS.splitLinesFrom "" (fieldLines fields)).
  by rewrite splitLines_fieldLines.
Qed.

Lemma collectLine_fieldLine (m : ResultMap) (kv : string * string) :
  plainField kv -> collectLine m (fieldLine kv) = setProperty m kv.1 (Some kv.2).
Proof.
  destruct kv as [k v]. intros [Hk Hv]. unfold collectLine.
  by rewrite keyValue_fieldLine.
Qed.

Lemma lookup_setProperty_ne (m : ResultMap) (k k' : string) (v : option string) :
  k' <> k -> setProperty m k' v !! k = m !! k.
Proof.
  intros Hne. unfold setProperty. case_decide; [done|]. by apply lookup_insert_ne.
Qed.

(** Later fields with other keys do not touch a key. *)
Lemma collect_other_fields (fields : list (string * string)) (m : ResultMap) (k : string) :
  Forall plainField fields -> k ∉ fields.*1 ->
  fold_left collectLine (fieldLine <$> fields) m !! k = m !! k.
Proof.
  revert m. induction fields as [|kv fields IH]; intros m Hplain Hk; [done|].
  apply Forall_cons in Hplain as [Hkv Hplain].
  rewrite fmap_cons in Hk. apply not_elem_of_cons in Hk as [Hne Hk].
  rewrite fmap_cons. cbn [fold_left]. rewrite IH by done.
  rewrite collectLine_fieldLine by done. by apply lookup_setProperty_ne.
Qed.

(** In the block that the script prints for [fields], a key is bound to
    the value of its last field. *)
Lemma collect_block_lookup (before after : list (string * string)) (k v : string) :
  Forall plainField (before ++ (k, v) :: after) ->
  k <> "" -> k <> "__proto__" -> k ∉ after.*1 ->
  collect (JS.splitLines (block (before ++ (k, v) :: after))) !! k = Some (Some v).
Proof.
  intros Hplain Hne Hproto Hafter.
  rewrite splitLines_block by done. unfold collect.
  pose proof Hplain as [_ [Hkv Hplain']%Forall_cons]%Forall_app.
  rewrite fmap_app, fmap_cons. cbn [fold_left].
  rewrite <- !app_assoc, fold_left_app. rewrite <- app_comm_cons. cbn [fold_left].
  rewrite fold_left_app. cbn [fold_left].
  change (collectLine ?m "") with (setProperty m "" None).
  rewrite lookup_setProperty_ne by done.
  rewrite collect_other_fields by done.
  rewrite collectLine_fieldLine by done.
  unfold setProperty at 1. cbn [fst snd].
  rewrite decide_False by done. apply lookup_insert_eq.
Qed.

(** C1, as stated, fails: in a stream with two marker pairs of the same
    install id the parser reads the first block, here the one with exit
    code 1, and not the last one, which has exit code 0. *)
Lemma parse_reads_first_block_not_last :
  (exists pre, twoBlocks = framed "abc123" pre goodBlock nl
               /\ occurs (startMarker "abc123") pre = true
               /\ occurs (endMarker "abc123") pre = true)
  /\ lastPair "abc123" goodBlock nl = true
  /\ parseServerInstallOutput twoBlocks "abc123" <> Some (collect (JS.splitLines goodBlock))
  /\ (parseServerInstallOutput twoBlocks "abc123" ≫= (fun m => m !! "exitCode"))
     = Some (Some "1").
Proof.
  split; [|split; [|split]].
  - eexists. split; [reflexivity|]. split; vm_compute; reflexivity.
  - vm_compute. reflexivity.
  - intros H. apply (f_equal (fun o => o ≫= (fun m : ResultMap => m !! "exitCode"))) in H.
    vm_compute in H. discriminate H.
  - vm_compute. reflexivity.
Qed.

(** C1, amended: when the start marker first occurs right after [pre]
    and the end marker first occurs after it right after [body], the
    parser returns the fields of the lines of [body], whatever follows
    the end marker, further marker pairs included: it reads the block of
    the first marker pair.  When [body] is what the script prints for a
    list of fields whose keys and values have no [=] and no line break,
    a key (other than the empty one and [__proto__]) is bound to the
    value of its last field. *)
Theorem parse_reads_first_block scriptId pre body post :
  JS.indexOf (pre ++ startMarker scriptId) (startMarker scriptId) 0
  = Some (String.length pre) ->
  JS.indexOf (body ++ endMarker scriptId) (endMarker scriptId) 0
  = Some (String.length body) ->
  parseServerInstallOutput (framed scriptId pre body post) scriptId
  = Some (collect (JS.splitLines body))
  /\ (forall before k v after,
        body = block (before ++ (k, v) :: after) ->
        Forall plainField (before ++ (k, v) :: after) ->
        k <> "" -> k <> "__proto__" -> k ∉ after.*1 ->
        collect (JS.splitLines body) !! k = Some (Some v)).
Proof.
  intros Hstart Hend.
  split; [|intros before k v after ->; apply collect_block_lookup].
  revert Hstart Hend.
  unfold JS.indexOf. rewrite !Nat.min_0_l, !drop_0. intros Hstart Hend.
  unfold parseServerInstallOutput, framed, JS.indexOf.
  rewrite Nat.min_0_l, drop_0.
  rewrite (search_app_first _ _ _ 0 Hstart). simpl Nat.add.
  set (start := startMarker scriptId) in *. set (stop := endMarker scriptId) in *.
  set (k := String.length pre + String.length start).
  assert (String.length (pre ++ start ++ body ++ stop ++ post)
          = k + String.length body + String.length stop + String.length post) as Hlen.
  { rewrite !length_app_s. lia. }
  assert (JS.drop k (pre ++ start ++ body ++ stop ++ post) = (body ++ stop ++ post)%string)
    as Hdrop.
  { unfold k. rewrite <- drop_drop, drop_app_length, drop_app_length. reflexivity. }
  rewrite (Nat.min_l k) by lia. rewrite Hdrop.
  rewrite search_shift, (search_app_first _ _ _ 0 Hend). simpl Nat.add.
  f_equal. f_equal. f_equal.
  unfold JS.substring. rewrite Hlen.
  rewrite (Nat.min_l k) by lia.
  rewrite (Nat.min_l (k + String.length body)) by lia.
  rewrite (Nat.min_l k) by lia. rewrite (Nat.max_r k) by lia.
  replace (k + String.length body - k) with (String.length body) by lia.
  rewrite Hdrop. apply take_app_length.
Qed.

Lemma parse_reads_first_block_witness :
  parseServerInstallOutput twoBlocks "abc123" = Some (collect (JS.splitLines failedBlock))
  /\ collect (JS.splitLines failedBlock) !! "exitCode" = Some (Some "1").
Proof.
  destruct (parse_reads_first_block "abc123"
              ("Error server did not start successfully" ++ nl) failedBlock
              (nl ++ "Server script is already running" ++ nl
               ++ startMarker "abc123" ++ goodBlock ++ endMarker "abc123" ++ nl)
              eq_refl eq_refl) as [Hparse Hfield].
  split; [exact Hparse|].
  apply (Hfield [] "exitCode" "1" [("listeningOn", "")] eq_refl).
  - repeat constructor.
  - discriminate.
  - discriminate.
  - intros Hin. apply list_elem_of_singleton in Hin. discriminate Hin.
Defined.

(** A stream with a start marker and a later end marker is parsed. *)
Lemma parse_framed_Some scriptId pre body post :
  parseServerInstallOutput (framed scriptId pre body post) scriptId <> None.
Proof.
  unfold parseServerInstallOutput, framed, JS.indexOf.
  rewrite Nat.min_0_l, drop_0.
  set (start := startMarker scriptId). set (stop := endMarker scriptId).
  set (str := (pre ++ start ++ body ++ stop ++ post)%string).
  assert (String.length str
          = String.length pre + String.length start + String.length body
            + String.length stop + String.length post) as Hlen.
  { unfold str. rewrite !length_app_s. lia. }
  assert (JS.drop (String.length pre) str = (start ++ body ++ stop ++ post)%string) as Hpre.
  { apply drop_app_length. }
  destruct (JS.search start str 0) as [i|] eqn:Hi.
  - destruct (search_Some _ _ _ _ Hi) as (k & -> & Hk & _ & Hfirst).
    simpl Nat.add.
    assert (k <= String.length pre) as Hle.
    { destruct (decide (k <= String.length pre)) as [|Hgt]; [done|].
      pose proof (Hfirst (String.length pre) ltac:(lia)) as Hf.
      rewrite Hpre, prefix_app in Hf. discriminate. }
    rewrite Nat.min_l by lia.
    destruct (JS.search stop (JS.drop (k + String.length start) str) _) as [j|] eqn:Hj;
      [discriminate|].
    exfalso.
    assert (String.length pre + String.length start + String.length body
            - (k + String.length start)
            <= String.length (JS.drop (k + String.length start) str)) as Hbound.
    { rewrite length_drop. lia. }
    pose proof (search_None _ _ _ Hj _ Hbound) as Hnone.
    rewrite drop_drop in Hnone.
    replace (k + String.length start
             + (String.length pre + String.length start + String.length body
                - (k + String.length start)))
      with (String.length pre + (String.length start + String.length body)) in Hnone by lia.
    rewrite <- drop_drop, Hpre in Hnone.
    rewrite <- (app_assoc_s start body), <- (length_app_s start body) in Hnone.
    rewrite drop_app_length, prefix_app in Hnone. discriminate.
  - exfalso.
    pose proof (search_None _ _ _ Hi (String.length pre) ltac:(lia)) as Hnone.
    rewrite Hpre, prefix_app in Hnone. discriminate.
Qed.

(** What is parsed has a start marker and a later end marker. *)
Lemma parse_Some_framed str scriptId m :
  parseServerInstallOutput str scriptId = Some m ->
  exists pre body post, str = framed scriptId pre body post.
Proof.
  unfold parseServerInstallOutput, JS.indexOf.
  rewrite Nat.min_0_l, drop_0.
  set (start := startMarker scriptId). set (stop := endMarker scriptId).
  destruct (JS.search start str 0) as [i|] eqn:Hi; [|discriminate].
  destruct (search_Some _ _ _ _ Hi) as (k & -> & Hk & Hp & _). simpl Nat.add.
  pose proof (prefix_true _ _ Hp) as Hsplit.
  assert (str = (JS.take k str ++ start ++ JS.drop (k + String.length start) str)%string)
    as Hstr.
  { rewrite <- (take_drop k str) at 1. f_equal. rewrite Hsplit at 1.
    by rewrite drop_drop. }
  assert (k + String.length start <= String.length str) as Hfit.
  { rewrite Hstr at 1. rewrite !length_app_s, length_take_le by lia. lia. }
  rewrite Nat.min_l by lia.
  destruct (JS.search stop (JS.drop (k + String.length start) str) _) as [j|] eqn:Hj;
    [|discriminate].
  intros _.
  destruct (search_Some _ _ _ _ Hj) as (k2 & _ & _ & Hp2 & _).
  pose proof (prefix_true _ _ Hp2) as Hsplit2.
  exists (JS.take k str), (JS.take k2 (JS.drop (k + String.length start) str)),
    (JS.drop (String.length stop) (JS.drop k2 (JS.drop (k + String.length start) str))).
  unfold framed. fold start stop.
  rewrite Hstr at 1. f_equal. f_equal.
  rewrite <- (take_drop k2 (JS.drop (k + String.length start) str)) at 1.
  f_equal. exact Hsplit2.
Qed.

(** A line without the separator is one piece for [split('==')]. *)
Lemma splitFrom_no_separator (sep cur line : string) :
  (forall p, p <= String.length line -> String.prefix sep (JS.drop p line) = false) ->
  JS.splitFrom sep 0 cur line = [(cur ++ line)%string].
Proof.
  revert cur. induction line as [|c line IH]; intros cur Hno.
  - by rewrite app_nil_r_s.
  - cbn [JS.splitFrom].
    pose proof (Hno 0 ltac:(simpl; lia)) as H0. rewrite drop_0 in H0. rewrite H0.
    rewrite IH.
    + by rewrite app_assoc_s.
    + intros p Hp. apply (Hno (S p)). simpl. lia.
Qed.

Lemma keyValue_no_separator (line : string) :
  occurs "==" line = false -> keyValue line = (line, None).
Proof.
  unfold occurs. destruct (JS.search "==" line 0) eqn:Hs; [discriminate|]. intros _.
  unfold keyValue, JS.split.
  rewrite (splitFrom_no_separator "==" "" line (search_None _ _ _ Hs)). reflexivity.
Qed.

(** C6, as stated, fails: a line between the markers that is not of the
    form [key==value==] does not make the parsing fail; here the install
    even succeeds. *)
Lemma malformed_line_is_not_a_parse_error :
  (exists pre, noisyStream = framed "abc123" pre noisyBlock nl)
  /\ In "tar: short read" (JS.splitLines noisyBlock)
  /\ wellFormedLine "tar: short read" = false
  /\ parseServerInstallOutput noisyStream "abc123" <> None
  /\ exists result,
      installCodeServerResult noisyStream "abc123" [] = Fulfilled result
      /\ result !! "listeningOn" = Some (VNumber 37500).
Proof.
  split; [eexists; reflexivity|].
  split; [vm_compute; tauto|].
  split; [reflexivity|].
  split; [vm_compute; discriminate|].
  eexists. split; [vm_compute; reflexivity|]. vm_compute. reflexivity.
Qed.

(** C6, amended: the parsing fails exactly when the output has no start
    marker followed by an end marker, and then, and only then,
    [installCodeServer] throws [Failed parsing install script output].
    Lines between the markers are never a reason to fail: a line
    without [==] is recorded as a key whose value is undefined.  When the
    output is parsed and its [exitCode] field is not the number 0 (also
    when the field is missing), the error is another one,
    [Server install script returned non-zero exit status]. *)
Theorem parse_failure_is_missing_markers str scriptId envVariables :
  (parseServerInstallOutput str scriptId = None
   <-> ~ exists pre body post, str = framed scriptId pre body post)
  /\ (installCodeServerResult str scriptId envVariables
      = Rejected (ServerInstallError "Failed parsing install script output")
      <-> parseServerInstallOutput str scriptId = None)
  /\ (forall resultMap,
        parseServerInstallOutput str scriptId = Some resultMap ->
        JS.parseInt (toString (getProperty resultMap "exitCode")) <> Some 0%Z ->
        installCodeServerResult str scriptId envVariables
        = Rejected (ServerInstallError "Server install script returned non-zero exit status"))
  /\ (forall resultMap line,
        occurs "==" line = false ->
        collectLine resultMap line = setProperty resultMap line None).
Proof.
  split; [|split; [|split]].
  - split.
    + intros Hnone (pre & body & post & ->). by apply parse_framed_Some in Hnone.
    + intros Hno. destruct (parseServerInstallOutput str scriptId) as [m|] eqn:Hp; [|done].
      exfalso. apply Hno. by eapply parse_Some_framed.
  - unfold installCodeServerResult.
    destruct (parseServerInstallOutput str scriptId) as [m|]; [|done].
    split; [|discriminate].
    case_bool_decide; [|discriminate].
    destruct (getProperty m "listeningOn"); discriminate.
  - intros resultMap Hp Hexit. unfold installCodeServerResult. rewrite Hp.
    rewrite bool_decide_eq_false_2 by exact Hexit. reflexivity.
  - intros resultMap line Hline. unfold collectLine.
    by rewrite keyValue_no_separator.
Qed.

Lemma parse_failure_is_missing_markers_witness :
  installCodeServerResult twoBlocks "abc123" []
  = Rejected (ServerInstallError "Server install script returned non-zero exit status").
Proof.
  destruct (parse_failure_is_missing_markers twoBlocks "abc123" []) as (_ & _ & H & _).
  apply (H (collect (JS.splitLines failedBlock))).
  - vm_compute. reflexivity.
  - vm_compute. discriminate.
Defined.

End ParseClaims.

(** ** The identity resolver *)
Section IdentityClaims.
Import Identity Fixtures.
#[local] Close Scope string_scope.
Implicit Types (k a : SSHKey) (pool fileKeys agents : list SSHKey).

Lemma findIndex_Some {A} (p : A -> bool) (l : list A) i :
  findIndex p l = Some i ->
  exists x, l !! i = Some x /\ p x = true /\ find p l = Some x.
Proof.
  revert i. induction l as [|y l IH]; intros i; simpl; [discriminate|].
  destruct (p y) eqn:Hp.
  - intros [= <-]. eauto.
  - destruct (findIndex p l) as [j|]; [|discriminate].
    intros [= <-]. destruct (IH j eq_refl) as (x & Hx & Hpx & Hf). eauto.
Qed.

Lemma findIndex_None {A} (p : A -> bool) (l : list A) :
  findIndex p l = None -> find p l = None /\ Forall (fun x => p x = false) l.
Proof.
  induction l as [|y l IH]; simpl; [by split|].
  destruct (p y) eqn:Hp; [discriminate|].
  destruct (findIndex p l); [discriminate|].
  intros _. destruct (IH eq_refl). split; [done|]. by constructor.
Qed.

(** Taking out an entry that [p] rejects does not change what [p] finds. *)
Lemma find_delete_other {A} (p : A -> bool) (l : list A) i x :
  l !! i = Some x -> p x = false -> find p (delete i l) = find p l.
Proof.
  revert i. induction l as [|y l IH]; intros i; [done|].
  destruct i as [|i]; simpl.
  - intros [= ->] Hp. by rewrite Hp.
  - intros Hx Hp. destruct (p y); [done|]. by apply IH.
Qed.

Lemma omap_ext_in {A B} (f g : A -> option B) (l : list A) :
  (forall x, x ∈ l -> f x = g x) -> omap f l = omap g l.
Proof.
  induction l as [|x l IH]; intros H; [done|].
  change (omap f (x :: l)) with (match f x with Some y => y :: omap f l | None => omap f l end).
  change (omap g (x :: l)) with (match g x with Some y => y :: omap g l | None => omap g l end).
  rewrite (H x) by left. rewrite IH; [done|].
  intros y Hy. apply H. by right.
Qed.

Lemma filter_ext_in {A} (P Q : A -> Prop) `{!forall x, Decision (P x), !forall x, Decision (Q x)}
    (l : list A) :
  (forall x, x ∈ l -> P x <-> Q x) -> filter P l = filter Q l.
Proof.
  induction l as [|x l IH]; intros Hpq; [done|].
  assert (filter P l = filter Q l) as Hl by (apply IH; intros y Hy; apply Hpq; by right).
  destruct (decide (P x)) as [Hp|Hp].
  - rewrite !filter_cons_True; [by rewrite Hl| |done]. apply (Hpq x); [by left|done].
  - rewrite !filter_cons_False; [done| |done]. intros Hq. apply Hp, (Hpq x); [by left|done].
Qed.

Lemma omap_cons {A B} (f : A -> option B) (x : A) (l : list A) :
  omap f (x :: l) = match f x with Some y => y :: omap f l | None => omap f l end.
Proof. reflexivity. Qed.

Lemma sameKey_keyOf a k : sameKey a k = true -> keyOf a = keyOf k.
Proof.
  unfold sameKey, keyOf. destruct (truthy (isCertificate k)); [discriminate|].
  intros [H1 H2]%andb_true_iff.
  apply bool_decide_eq_true in H1. apply bool_decide_eq_true in H2. congruence.
Qed.

Lemma find_sameKey_keyOf a pool k :
  find (sameKey a) pool = Some k -> k ∈ pool /\ keyOf k = keyOf a.
Proof.
  intros H. apply find_some in H as [Hin Hk].
  split; [by apply list_elem_of_In|]. symmetry. by apply sameKey_keyOf.
Qed.

Lemma find_None_keyOf a pool :
  certFree pool ->
  find (sameKey a) pool = None <-> keyOf a ∉ keyOf <$> pool.
Proof.
  intros Hcf. split.
  - intros Hnone (k & Hkey & Hk)%list_elem_of_fmap.
    pose proof (find_none _ _ Hnone k (proj1 (list_elem_of_In _ _) Hk)) as Hsame.
    unfold certFree in Hcf. rewrite Forall_forall in Hcf.
    unfold sameKey in Hsame. rewrite (Hcf k Hk) in Hsame.
    unfold keyOf in Hkey. injection Hkey as Ht Hf.
    rewrite !bool_decide_eq_true_2 in Hsame by done. discriminate.
  - intros Hnotin. destruct (find (sameKey a) pool) as [k|] eqn:Hfind; [|done].
    exfalso. apply Hnotin. apply find_sameKey_keyOf in Hfind as [Hin Hkey].
    rewrite <- Hkey. by apply list_elem_of_fmap_2.
Qed.

Lemma overlap_nil fileKeys : overlap fileKeys [] = 0.
Proof.
  unfold overlap. rewrite fmap_nil, list_to_set_disj_nil.
  apply gmultiset_size_empty_iff, gmultiset_eq. intros x.
  rewrite multiplicity_intersection, multiplicity_empty. lia.
Qed.

(** A pair on both sides counts once and leaves the rest to be counted. *)
Lemma overlap_matched a agents k pool rest :
  keyOf a = keyOf k -> pool ≡ₚ k :: rest ->
  overlap pool (a :: agents) = S (overlap rest agents).
Proof.
  intros Hkey Hperm. unfold overlap.
  rewrite Hperm, !fmap_cons, !list_to_set_disj_cons, Hkey.
  set (X := list_to_set_disj (keyOf <$> agents) : gmultiset (string * string)).
  set (Y := list_to_set_disj (keyOf <$> rest) : gmultiset (string * string)).
  replace (({[+ keyOf k +]} ⊎ X) ∩ ({[+ keyOf k +]} ⊎ Y))
    with ({[+ keyOf k +]} ⊎ (X ∩ Y)).
  - by rewrite gmultiset_size_disj_union, gmultiset_size_singleton.
  - apply gmultiset_eq. intros x.
    rewrite !multiplicity_intersection, !multiplicity_disj_union, multiplicity_intersection.
    lia.
Qed.

(** A pair that the other side does not have does not count. *)
Lemma overlap_unmatched a agents pool :
  keyOf a ∉ keyOf <$> pool ->
  overlap pool (a :: agents) = overlap pool agents.
Proof.
  intros Hnotin. unfold overlap. rewrite fmap_cons, list_to_set_disj_cons.
  set (X := list_to_set_disj (keyOf <$> agents) : gmultiset (string * string)).
  set (Y := list_to_set_disj (keyOf <$> pool) : gmultiset (string * string)).
  assert (multiplicity (keyOf a) Y = 0) as HY.
  { apply not_elem_of_multiplicity. unfold Y. by rewrite elem_of_list_to_set_disj. }
  f_equal. apply gmultiset_eq. intros x.
  rewrite !multiplicity_intersection, multiplicity_disj_union.
  destruct (decide (x = keyOf a)) as [->|Hne].
  - rewrite multiplicity_singleton. lia.
  - rewrite multiplicity_singleton_ne by done. lia.
Qed.

(** The merge loop.  The promoted entries [merged] are file entries,
    each with the pair of an agent identity; the agent identities that
    found no file entry, [unmatched], keep their order and are kept
    unless [identitiesOnly]; [pool'] are the file entries that are left.
    When the pairs of the agent identities are distinct, [merged] has,
    for each agent identity with a matching file entry, the first such
    entry, in the order of the agent. *)
Lemma mergeLoop_inv identitiesOnly agents pool preferred agentKeys :
  certFree pool ->
  exists merged unmatched pool',
    mergeLoop identitiesOnly agents pool preferred agentKeys
    = (pool', preferred ++ (promote <$> merged),
       agentKeys ++ (if identitiesOnly then [] else unmatched))
    /\ merged ++ pool' ≡ₚ pool
    /\ unmatched `sublist_of` agents
    /\ Forall (fun a => keyOf a ∉ keyOf <$> pool') unmatched
    /\ Forall (fun k => keyOf k ∈ keyOf <$> agents) merged
    /\ length merged + length unmatched = length agents
    /\ length merged = overlap pool agents
    /\ (NoDup (keyOf <$> agents) ->
        merged = omap (fun a => find (sameKey a) pool) agents
        /\ unmatched = filter (fun a => keyOf a ∉ keyOf <$> pool) agents).
Proof.
  revert pool preferred agentKeys.
  induction agents as [|a agents IH]; intros pool preferred agentKeys Hcf.
  - exists [], [], pool. cbn [mergeLoop]. rewrite overlap_nil.
    repeat split; try done; try constructor.
    destruct identitiesOnly; by rewrite !app_nil_r.
  - cbn [mergeLoop].
    destruct (findIndex (sameKey a) pool) as [i|] eqn:Hidx.
    + destruct (findIndex_Some _ _ _ Hidx) as (k & Hk & Hak & Hfind).
      rewrite Hk.
      pose proof (delete_Permutation _ _ _ Hk) as Hpool.
      assert (certFree (delete i pool)) as Hcf'.
      { unfold certFree in *. rewrite Hpool in Hcf. by apply Forall_cons in Hcf as [_ ?]. }
      destruct (IH (delete i pool) (preferred ++ [promote k]) agentKeys Hcf')
        as (merged & unmatched & pool' & Hloop & Hperm & Hsub & Hun & Hmer & Hlen & HK & Hnd).
      exists (k :: merged), unmatched, pool'.
      split; [by rewrite Hloop, fmap_cons, <- app_assoc|].
      split; [by rewrite <- app_comm_cons, Hperm|].
      split; [by apply sublist_cons|].
      split; [exact Hun|].
      split.
      { constructor.
        - rewrite fmap_cons, <- (sameKey_keyOf _ _ Hak). by left.
        - eapply Forall_impl; [exact Hmer|]. intros k' Hk'. rewrite fmap_cons. by right. }
      split; [simpl; lia|].
      split; [rewrite (overlap_matched a agents k pool (delete i pool)
                         (sameKey_keyOf _ _ Hak) Hpool); simpl; lia|].
      intros [Hfresh Hnd']%NoDup_cons. destruct (Hnd Hnd') as [Hm Hu].
      assert (forall b, b ∈ agents ->
                find (sameKey b) (delete i pool) = find (sameKey b) pool) as Hsame.
      { intros b Hb. apply (find_delete_other _ _ _ k Hk).
        destruct (sameKey b k) eqn:Hbk; [|done].
        exfalso. apply Hfresh. apply sameKey_keyOf in Hak, Hbk.
        rewrite Hak, <- Hbk. by apply list_elem_of_fmap_2. }
      split.
      * rewrite omap_cons, Hfind, Hm. f_equal. by apply omap_ext_in.
      * rewrite filter_cons_False.
        -- rewrite Hu. apply filter_ext_in. intros b Hb.
           rewrite <- !find_None_keyOf by done. by rewrite Hsame.
        -- intros Hnot. apply Hnot. rewrite (sameKey_keyOf _ _ Hak).
           apply list_elem_of_fmap_2. by eapply list_elem_of_lookup_2.
    + destruct (findIndex_None _ _ Hidx) as [Hfind _].
      assert (keyOf a ∉ keyOf <$> pool) as Hnotin by by apply find_None_keyOf.
      assert (exists merged unmatched pool',
                 (if negb identitiesOnly
                  then mergeLoop identitiesOnly agents pool preferred (agentKeys ++ [a])
                  else mergeLoop identitiesOnly agents pool preferred agentKeys)
                 = (pool', preferred ++ (promote <$> merged),
                    agentKeys ++ (if identitiesOnly then [] else a :: unmatched))
                 /\ merged ++ pool' ≡ₚ pool
                 /\ unmatched `sublist_of` agents
                 /\ Forall (fun a => keyOf a ∉ keyOf <$> pool') unmatched
                 /\ Forall (fun k => keyOf k ∈ keyOf <$> agents) merged
                 /\ length merged + length unmatched = length agents
                 /\ length merged = overlap pool agents
                 /\ (NoDup (keyOf <$> agents) ->
                     merged = omap (fun a => find (sameKey a) pool) agents
                     /\ unmatched = filter (fun a => keyOf a ∉ keyOf <$> pool) agents))
        as (merged & unmatched & pool' & Hloop & Hperm & Hsub & Hun & Hmer & Hlen & HK & Hnd).
      { destruct identitiesOnly; cbn [negb].
        - destruct (IH pool preferred agentKeys Hcf)
            as (merged & unmatched & pool' & Hloop & Hrest).
          exists merged, unmatched, pool'. by rewrite Hloop.
        - destruct (IH pool preferred (agentKeys ++ [a]) Hcf)
            as (merged & unmatched & pool' & Hloop & Hrest).
          exists merged, unmatched, pool'. rewrite Hloop, <- app_assoc. done. }
      exists merged, (a :: unmatched), pool'.
      split; [exact Hloop|]. split; [exact Hperm|].
      split; [by apply sublist_skip|].
      split.
      { constructor; [|exact Hun].
        intros (k & Hkey & Hk)%list_elem_of_fmap. apply Hnotin.
        rewrite Hkey. apply list_elem_of_fmap_2.
        rewrite <- Hperm. apply elem_of_app. by right. }
      split.
      { eapply Forall_impl; [exact Hmer|]. intros k' Hk'. rewrite fmap_cons. by right. }
      split; [simpl; lia|].
      split; [by rewrite overlap_unmatched|].
      intros [_ Hnd']%NoDup_cons. destruct (Hnd Hnd') as [Hm Hu].
      split.
      * by rewrite omap_cons, Hfind.
      * rewrite filter_cons_True by done. by rewrite Hu.
Qed.

Lemma certFree_gathered sha (parsedFiles : list (string * ParsedKey))
    (agentParsedKeys : list ParsedKey) :
  certFree ((fun f => fileKey sha f.1 f.2) <$> parsedFiles)
  /\ certFree (agentKey sha <$> agentParsedKeys).
Proof.
  split; apply Forall_fmap, Forall_forall; intros; reflexivity.
Qed.

Lemma filter_certFree (l : list SSHKey) :
  certFree l -> filter (fun k => negb (truthy (isCertificate k))) l = l.
Proof.
  induction 1 as [|k l Hk Hl IH]; [done|].
  rewrite filter_cons_True by (by rewrite Hk). by rewrite IH.
Qed.

(** C4, as stated, fails: with [identitiesOnly] an agent identity that
    matches no file identity is left out, so from no file identity and
    one agent identity the result has 0 entries and not 0 + 1 - 0. *)
Lemma gatherIdentityFiles_identitiesOnly_count :
  let result := gatherIdentityFiles identityHash [] [tokenKey] true in
  overlap [] (agentKey identityHash <$> [tokenKey]) = 0
  /\ length result = 0
  /\ length result
     <> length (@nil (string * ParsedKey)) + length [tokenKey]
        - overlap [] (agentKey identityHash <$> [tokenKey]).
Proof. cbv zeta. split; [reflexivity|]. split; [reflexivity|]. vm_compute. discriminate. Qed.

(** C4, amended: the result is, in this order: the K merged entries,
    each a file identity that has the pair of an agent identity, with
    the metadata of the file and flagged agent-backed; then, unless
    [identitiesOnly], the unmatched agent identities in the order of the
    agent, none of which has the pair of a file identity that is left;
    then the file identities that were not merged.  K is the number of
    (type, fingerprint) pairs that the two sides have in common.  The
    result has N + M - K entries when [identitiesOnly] is false and N
    entries when it is true, none of them a certificate.  When the pairs
    of the agent identities are distinct, the merged entries are, for
    each agent identity with a matching file identity, the first such
    file identity, and the unmatched agent identities are those whose
    pair no file identity has. *)
Theorem gatherIdentityFiles_order_and_count sha (parsedFiles : list (string * ParsedKey))
    (agentParsedKeys : list ParsedKey) (identitiesOnly : bool) :
  let F := (fun f => fileKey sha f.1 f.2) <$> parsedFiles in
  let A := agentKey sha <$> agentParsedKeys in
  let result := gatherIdentityFiles sha parsedFiles agentParsedKeys identitiesOnly in
  let N := length parsedFiles in
  let M := length agentParsedKeys in
  let K := overlap F A in
  exists merged unmatched rest,
    result = (promote <$> merged) ++ (if identitiesOnly then [] else unmatched) ++ rest
    /\ merged ++ rest ≡ₚ F
    /\ Forall (fun k => keyOf k ∈ keyOf <$> A) merged
    /\ unmatched `sublist_of` A
    /\ Forall (fun a => keyOf a ∉ keyOf <$> rest) unmatched
    /\ length merged = K
    /\ length unmatched = M - K
    /\ length result = (if identitiesOnly then N else N + M - K)
    /\ Forall (fun k => isCertificate k <> Some true) result
    /\ (NoDup (keyOf <$> A) ->
        merged = omap (fun a => find (sameKey a) F) A
        /\ unmatched = filter (fun a => keyOf a ∉ keyOf <$> F) A).
Proof.
  cbv zeta.
  set (F := (fun f => fileKey sha f.1 f.2) <$> parsedFiles).
  set (A := agentKey sha <$> agentParsedKeys).
  destruct (certFree_gathered sha parsedFiles agentParsedKeys) as [HcfF HcfA].
  fold F in HcfF. fold A in HcfA.
  destruct (mergeLoop_inv identitiesOnly A F [] [] HcfF)
    as (merged & unmatched & pool' & Hloop & Hperm & Hsub & Hun & Hmer & Hlen & HK & Hnd).
  assert (length A = length agentParsedKeys) as HA by apply length_fmap.
  assert (length F = length parsedFiles) as HF by apply length_fmap.
  assert (certFree merged /\ certFree pool') as [Hcfm Hcfp].
  { apply Forall_app. unfold certFree. by rewrite Hperm. }
  assert (certFree (promote <$> merged)) as Hcfpm.
  { apply Forall_fmap. eapply Forall_impl; [exact Hcfm|]. by intros k Hk. }
  assert (certFree (if identitiesOnly then [] else unmatched)) as Hcfu.
  { destruct identitiesOnly; [constructor|].
    apply Forall_forall. intros a Ha.
    unfold certFree in HcfA. rewrite Forall_forall in HcfA.
    apply HcfA. by eapply elem_of_sublist. }
  assert (gatherIdentityFiles sha parsedFiles agentParsedKeys identitiesOnly
          = (promote <$> merged) ++ (if identitiesOnly then [] else unmatched) ++ pool')
    as Hresult.
  { unfold gatherIdentityFiles, mergeIdentities. fold F A. rewrite Hloop.
    rewrite !app_nil_l. apply filter_certFree. by repeat apply Forall_app_2. }
  exists merged, unmatched, pool'.
  split; [exact Hresult|]. split; [exact Hperm|]. split; [exact Hmer|].
  split; [exact Hsub|]. split; [exact Hun|]. split; [exact HK|].
  split; [lia|]. split; [|split; [|exact Hnd]].
  - rewrite Hresult, !length_app, length_fmap.
    assert (length merged + length pool' = length parsedFiles) as HN.
    { by rewrite <- length_app, Hperm. }
    destruct identitiesOnly; simpl; lia.
  - rewrite Hresult. eapply Forall_impl.
    + by repeat apply Forall_app_2.
    + intros k Hk. simpl in Hk. intros Hc. by rewrite Hc in Hk.
Qed.

Lemma gatherIdentityFiles_order_and_count_witness :
  exists merged unmatched rest,
    gatherIdentityFiles identityHash
      [("/home/dev/.ssh/id_rsa", rsaKey); ("/home/dev/.ssh/id_ed25519", edKey)]
      [tokenKey; edKey] false
    = (promote <$> merged) ++ unmatched ++ rest
    /\ merged = [fileKey identityHash "/home/dev/.ssh/id_ed25519" edKey]
    /\ unmatched = [agentKey identityHash tokenKey].
Proof.
  destruct (gatherIdentityFiles_order_and_count identityHash
              [("/home/dev/.ssh/id_rsa", rsaKey); ("/home/dev/.ssh/id_ed25519", edKey)]
              [tokenKey; edKey] false)
    as (merged & unmatched & rest & Hresult & _ & _ & _ & _ & _ & _ & _ & _ & Hnd).
  exists merged, unmatched, rest. split; [exact Hresult|].
  apply Hnd. refine (bool_decide_unpack _ _). vm_compute. exact I.
Defined.

End IdentityClaims.

(** * Further properties of the sources *)

(** ** nativeSSHConnection.ts: calls in sequence *)
Section SessionProperties.
Import NativeSSHConnection Session Fixtures.
Implicit Types (env : Env NativeSSH.Ret) (log : list (Event NativeSSH.Ret)) (s : State).

Lemma run_close env log s :
  run env log (close s)
  = match sessionId s with
    | None => (Fulfilled tt, s, log)
    | Some sid =>
        match env log (NativeSSH.disconnect sid) with
        | Fulfilled u =>
            (Fulfilled tt, setTunnels ∅ (setSessionId None s),
             (log ++ [mkEvent (NativeSSH.disconnect sid) (Fulfilled u)])%list)
        | Rejected e =>
            (Rejected e, s, (log ++ [mkEvent (NativeSSH.disconnect sid) (Rejected e)])%list)
        end
    end.
Proof.
  unfold close. rewrite run_bind. simpl.
  destruct (sessionId s) as [sid|]; [|reflexivity].
  simpl. destruct (env log (NativeSSH.disconnect sid)) as [[]|e]; reflexivity.
Qed.

(** X1: on an object without a session id, [exec], [addTunnel] and
    [uploadFile] first try the handshake; when the transport rejects it
    the call throws that same error, nothing else is asked of the
    transport and the object is left as it was, still without an id, so
    that the next call tries the handshake again. *)
Theorem handshake_failure_fails_the_call env log s e :
  sessionId s = None ->
  env log (handshake (config s)) = Rejected e ->
  let log' := (log ++ [mkEvent (handshake (config s)) (Rejected e)])%list in
  (forall cmd, run env log (exec cmd s) = (Rejected e, s, log'))
  /\ (forall c, run env log (addTunnel c s) = (Rejected e, s, log'))
  /\ (forall localPath remotePath,
        run env log (uploadFile localPath remotePath s) = (Rejected e, s, log')).
Proof.
  intros Hnone Hrej. cbv zeta.
  assert (run env log (connect s)
          = (Rejected e, s, (log ++ [mkEvent (handshake (config s)) (Rejected e)])%list))
    as Hconnect.
  { rewrite run_connect, Hnone, Hrej. reflexivity. }
  split; [|split].
  - intros cmd. rewrite run_exec, Hconnect. reflexivity.
  - intros c. rewrite run_addTunnel, Hconnect. reflexivity.
  - intros localPath remotePath. rewrite run_uploadFile, Hconnect. reflexivity.
Qed.

(** A transport that rejects every handshake. *)
Lemma handshake_failure_fails_the_call_witness :
  run (fun log o => match o with
                    | NativeSSH.connect _ _ _ _ _ => Rejected (Rejection "auth failed")
                    | _ => obligingTransport log o
                    end)
      [] (exec "uname -m" (create devbox))
  = (Rejected (Rejection "auth failed"), create devbox,
     [mkEvent (handshake devbox) (Rejected (Rejection "auth failed"))]).
Proof.
  apply (handshake_failure_fails_the_call _ [] (create devbox) (Rejection "auth failed")
           eq_refl eq_refl).
Defined.

(** X2: [close] on an object without a session id asks nothing of the
    transport and changes nothing.  When the transport rejects the
    disconnect, [close] throws and the object keeps its session id and
    its tunnels.  When the disconnect succeeds the id and all tunnels
    are gone: a later [exec] makes a new handshake and runs under the
    new id, and the tunnel table is empty then. *)
Theorem close_then_reconnect env log s :
  (sessionId s = None -> run env log (close s) = (Fulfilled tt, s, log))
  /\ (forall sid e,
        sessionId s = Some sid ->
        env log (NativeSSH.disconnect sid) = Rejected e ->
        run env log (close s)
        = (Rejected e, s, (log ++ [mkEvent (NativeSSH.disconnect sid) (Rejected e)])%list))
  /\ (forall sid u sid' cmd out,
        sessionId s = Some sid ->
        env log (NativeSSH.disconnect sid) = Fulfilled u ->
        let log1 := (log ++ [mkEvent (NativeSSH.disconnect sid) (Fulfilled u)])%list in
        env log1 (handshake (config s)) = Fulfilled sid' ->
        let log2 := (log1 ++ [mkEvent (handshake (config s)) (Fulfilled sid')])%list in
        env log2 (NativeSSH.exec sid' cmd) = Fulfilled out ->
        performAll env [CallClose; CallExec cmd] (s, log)
        = ({| sessionId := Some sid'; config := config s; tunnels := ∅ |},
           (log2 ++ [mkEvent (NativeSSH.exec sid' cmd) (Fulfilled out)])%list)).
Proof.
  split; [|split].
  - intros Hnone. rewrite run_close, Hnone. reflexivity.
  - intros sid e Hsid Hrej. rewrite run_close, Hsid, Hrej. reflexivity.
  - intros sid u sid' cmd out Hsid Hdis log1 Hhand log2 Hexec.
    subst log1 log2.
    change (performAll env [CallClose; CallExec cmd] (s, log))
      with (perform env (CallExec cmd) (after (run env log (close s)))).
    rewrite run_close, Hsid, Hdis. unfold after. cbn [fst snd perform].
    rewrite run_exec, run_connect.
    change (sessionId (setTunnels ∅ (setSessionId None s))) with (@None Z).
    change (config (setTunnels ∅ (setSessionId None s))) with (config s).
    cbv beta iota. rewrite Hhand.
    change (sessionId (setSessionId (Some sid') (setTunnels ∅ (setSessionId None s))))
      with (Some sid').
    cbv beta iota. rewrite Hexec. reflexivity.
Qed.

Lemma close_then_reconnect_witness :
  performAll obligingTransport [CallClose; CallExec "uname -s"] (liveSession, [])
  = ({| sessionId := Some 2%Z; config := devbox; tunnels := ∅ |},
     [mkEvent (NativeSSH.disconnect 7) (Fulfilled tt);
      mkEvent (handshake devbox) (Fulfilled 2%Z);
      mkEvent (NativeSSH.exec 2 "uname -s") (Fulfilled "Linux")]).
Proof.
  destruct (close_then_reconnect obligingTransport [] liveSession) as (_ & _ & H).
  apply (H 7%Z tt 2%Z "uname -s" "Linux" eq_refl eq_refl eq_refl eq_refl).
Defined.

Lemma opened_snoc log ev :
  opened (log ++ [ev]) = opened log + (if isOpened ev then 1 else 0).
Proof.
  unfold opened. rewrite filter_app, length_app. f_equal.
  rewrite filter_cons. destruct (isOpened ev); case_decide; done.
Qed.

Lemma closed_snoc log ev :
  closed (log ++ [ev]) = closed log + (if isClosed ev then 1 else 0).
Proof.
  unfold closed. rewrite filter_app, length_app. f_equal.
  rewrite filter_cons. destruct (isClosed ev); case_decide; done.
Qed.

(** An operation that neither opens nor closes a transport. *)
Lemma invariant_snoc log s ev :
  isOpened ev = false -> isClosed ev = false ->
  invariant s log -> invariant s (log ++ [ev]).
Proof.
  intros Ho Hc (Hneed & Hports & Hone). split; [exact Hneed|]. split.
  - intros name p Hp. destruct (Hports name p Hp) as (sid & c & Hname & Hin).
    exists sid, c. split; [exact Hname|]. apply elem_of_app. by left.
  - unfold oneTransport in *. rewrite opened_snoc, closed_snoc, Ho, Hc. lia.
Qed.

Lemma connect_invariant env log s :
  invariant s log ->
  invariant (run env log (connect s)).1.2 (run env log (connect s)).2.
Proof.
  intros Hinv. rewrite run_connect.
  destruct (sessionId s) as [sid|] eqn:Hsid; [exact Hinv|].
  destruct (env log (handshake (config s))) as [sid|e]; cbn [fst snd].
  - destruct Hinv as (Hneed & Hports & Hone). split; [|split].
    + intros Hnone. discriminate Hnone.
    + intros name p Hp. destruct (Hports name p Hp) as (sid0 & c & Hname & Hin).
      exists sid0, c. split; [exact Hname|]. apply elem_of_app. by left.
    + unfold oneTransport, held in *. rewrite opened_snoc, closed_snoc, Hsid in *.
      cbn. lia.
  - by apply invariant_snoc.
Qed.

Lemma perform_invariant env c s log :
  invariant s log ->
  invariant (perform env c (s, log)).1 (perform env c (s, log)).2.
Proof.
  intros Hinv. pose proof (connect_invariant env log s Hinv) as Hconn.
  destruct c as [ | cmd | c | name | | localPath remotePath]; cbn [perform]; unfold after; cbn [fst snd].
  - exact Hconn.
  - rewrite run_exec.
    destruct (run env log (connect s)) as [[r s1] log1]. cbn [fst snd] in Hconn.
    destruct r as [u|e]; [|exact Hconn].
    destruct (sessionId s1) as [sid|]; [|exact Hconn].
    destruct (env log1 (NativeSSH.exec sid cmd)); by apply invariant_snoc.
  - rewrite run_addTunnel.
    destruct (run env log (connect s)) as [[r s1] log1]. cbn [fst snd] in Hconn.
    destruct r as [u|e]; [|exact Hconn].
    destruct (sessionId s1) as [sid|] eqn:Hsid; [|exact Hconn].
    destruct (tunnels s1 !! tunnelName c) as [existing|] eqn:Hex; [exact Hconn|].
    destruct (bool_decide (socks c = Some true)); [exact Hconn|].
    destruct (env log1 (forward sid c)) as [p|e]; cbn [fst snd];
      [|by apply invariant_snoc].
    destruct Hconn as (Hneed & Hports & Hone). split; [|split].
    + intros Hnone. cbn in Hnone. congruence.
    + intros name q Hq. cbn [tunnels setTunnels] in Hq.
      destruct (decide (tunnelName c = name)) as [<-|Hne].
      * rewrite lookup_insert_eq in Hq. injection Hq as <-.
        exists sid, c. split; [done|]. apply elem_of_app. right. by left.
      * rewrite lookup_insert_ne in Hq by done.
        destruct (Hports name q Hq) as (sid0 & c0 & Hname & Hin).
        exists sid0, c0. split; [exact Hname|]. apply elem_of_app. by left.
    + unfold oneTransport, held in *. rewrite opened_snoc, closed_snoc.
      cbn [isOpened isClosed forward transport sessionId setTunnels].
      rewrite Hsid in *. clear -Hone. lia.
  - rewrite run_closeTunnel. cbn [fst snd].
    destruct Hinv as (Hneed & Hports & Hone). split; [|split].
    + intros Hnone. cbn in Hnone. cbn [tunnels setTunnels].
      rewrite (Hneed Hnone). destruct name as [n|]; [|done].
      destruct (decide (n = "")); [done|]. apply delete_empty.
    + intros n p Hp. cbn [tunnels setTunnels] in Hp. apply Hports.
      destruct name as [n0|]; [|by rewrite lookup_empty in Hp].
      destruct (decide (n0 = "")); [by rewrite lookup_empty in Hp|].
      apply lookup_delete_Some in Hp as [_ Hp]. exact Hp.
    + exact Hone.
  - rewrite run_close.
    destruct (sessionId s) as [sid|] eqn:Hsid; [|exact Hinv].
    destruct (env log (NativeSSH.disconnect sid)) as [u|e]; cbn [fst snd];
      [|by apply invariant_snoc].
    destruct Hinv as (Hneed & Hports & Hone). split; [|split].
    + intros _. reflexivity.
    + intros n p Hp. cbn in Hp. by rewrite lookup_empty in Hp.
    + unfold oneTransport, held in *. rewrite opened_snoc, closed_snoc. cbn.
      rewrite Hsid in Hone. lia.
  - rewrite run_uploadFile.
    destruct (run env log (connect s)) as [[r s1] log1]. cbn [fst snd] in Hconn.
    destruct r as [u|e]; [|exact Hconn].
    destruct (sessionId s1) as [sid|]; [|exact Hconn].
    cbn [fst snd]. by apply invariant_snoc.
Qed.

(** X3: whatever calls are made one after the other on a new
    connection, and whatever the transport answers: an object without a
    session id has no tunnels; every port in the tunnel table was handed
    out by the transport for a request of that name; and the handshakes
    that succeeded are as many as the disconnects that succeeded, plus
    one when the object has a session id, so that a caller who awaits
    each call never holds two transports. *)
Theorem session_invariants env cfg (calls : list Call) :
  let now := performAll env calls (create cfg, []) in
  tunnelsNeedSession now.1
  /\ portsFromTransport now.1 now.2
  /\ oneTransport now.1 now.2.
Proof.
  cbv zeta.
  assert (invariant (create cfg) []) as Hstart.
  { split; [done|]. split; [|reflexivity].
    intros name p Hp. cbn in Hp. by rewrite lookup_empty in Hp. }
  assert (forall now, invariant now.1 now.2 ->
            invariant (performAll env calls now).1 (performAll env calls now).2) as Hall.
  { unfold performAll. induction calls as [|c calls IH]; intros now Hnow; [exact Hnow|].
    cbn [foldl]. apply IH. destruct now as [s log]. by apply perform_invariant. }
  exact (Hall (create cfg, []) Hstart).
Qed.

(** X4: [close] is not safe to call while an [addTunnel] is in
    flight.  When [close] starts after [addTunnel] has issued its
    [forwardPort] and settles before the port arrives, [addTunnel] still
    registers the tunnel: both calls succeed and the object is left
    without a session id but with one tunnel.  A later [addTunnel] of
    that name then reconnects and returns the old port without asking
    the new session for a forward. *)
Theorem close_during_addTunnel env s c sid u p :
  sessionId s = Some sid ->
  tunnels s !! tunnelName c = None ->
  socks c <> Some true ->
  env [] (NativeSSH.disconnect sid) = Fulfilled u ->
  env [mkEvent (NativeSSH.disconnect sid) (Fulfilled u)] (forward sid c) = Fulfilled p ->
  let y := Interleave.resume env 1
             (Interleave.resume env 2
                (Interleave.start 2 close
                   (Interleave.resume env 1
                      (Interleave.start 1 (addTunnel_ c) (Interleave.initial s))))) in
  Interleave.issued y = [forward sid c; NativeSSH.disconnect sid]
  /\ Interleave.settledCalls y = [(2, Fulfilled tt); (1, Fulfilled tt)]
  /\ Interleave.waiting y = []
  /\ Interleave.obj y
     = {| sessionId := None; config := config s; tunnels := {[tunnelName c := p]} |}
  /\ forall env' log' sid',
       env' log' (handshake (config s)) = Fulfilled sid' ->
       run env' log' (addTunnel c (Interleave.obj y))
       = (Fulfilled (withLocalPort c p),
          {| sessionId := Some sid'; config := config s;
             tunnels := {[tunnelName c := p]} |},
          (log' ++ [mkEvent (handshake (config s)) (Fulfilled sid')])%list).
Proof.
  intros Hsid Hfree Hsocks Hdis Hfwd y.
  assert (bool_decide (socks c = Some true) = false) as Hb
    by (apply bool_decide_eq_false; exact Hsocks).
  assert (Interleave.issued y = [forward sid c; NativeSSH.disconnect sid]
          /\ Interleave.settledCalls y = [(2, Fulfilled tt); (1, Fulfilled tt)]
          /\ Interleave.waiting y = []
          /\ Interleave.obj y
             = {| sessionId := None; config := config s;
                  tunnels := {[tunnelName c := p]} |}) as Hy.
  { subst y.
    unfold Interleave.start, Interleave.resume, Interleave.initial,
      addTunnel_, addTunnel, close, connect, await, bind, get, put, ret, transport, call.
    simpl. rewrite Hsid. simpl. rewrite Hsid. simpl. rewrite Hfree, Hb. simpl.
    rewrite Hsid. simpl. simpl in Hdis. rewrite Hdis. simpl.
    simpl in Hfwd. rewrite Hfwd. simpl.
    repeat split; reflexivity. }
  destruct Hy as (Hiss & Hset & Hwait & Hobj).
  repeat (split; [assumption|]).
  intros env' log' sid' Hhand. rewrite Hobj, run_addTunnel, run_connect.
  cbn [sessionId config]. simpl in Hhand. rewrite Hhand.
  cbn [sessionId setSessionId tunnels config].
  rewrite lookup_singleton_eq. reflexivity.
Qed.

Lemma close_during_addTunnel_witness :
  let y := Interleave.resume obligingTransport 1
             (Interleave.resume obligingTransport 2
                (Interleave.start 2 close
                   (Interleave.resume obligingTransport 1
                      (Interleave.start 1 (addTunnel_ sshTunnel)
                         (Interleave.initial liveSession))))) in
  Interleave.obj y
  = {| sessionId := None; config := devbox;
       tunnels := {[tunnelName sshTunnel := 49153%Z]} |}.
Proof.
  refine (proj1 (proj2 (proj2 (proj2
    (close_during_addTunnel obligingTransport liveSession sshTunnel
       7%Z tt 49153%Z _ _ _ _ _))))).
  - reflexivity.
  - reflexivity.
  - discriminate.
  - reflexivity.
  - reflexivity.
Defined.

End SessionProperties.

(** ** Numbers and their decimal text *)
Section Numbers.
Import JS.

Lemma pretty_N_char_digit d :
  (d < 10)%N ->
  isDigit (pretty_N_char d) = true /\ digitValue (pretty_N_char d) = Z.of_N d.
Proof.
  intros Hd.
  assert (d = 0 \/ d = 1 \/ d = 2 \/ d = 3 \/ d = 4 \/ d = 5 \/ d = 6
          \/ d = 7 \/ d = 8 \/ d = 9)%N as Hcases by lia.
  repeat (destruct Hcases as [->|Hcases]; [split; reflexivity|]).
  subst d. split; reflexivity.
Qed.

Lemma isDigit_plain c :
  isDigit c = true ->
  isWhiteSpace c = false /\ Ascii.eqb c "-" = false /\ Ascii.eqb c "+" = false
  /\ Ascii.eqb c ":" = false.
Proof.
  destruct c as [[] [] [] [] [] [] [] []]; intros H; try discriminate H;
    repeat split; reflexivity.
Qed.

Lemma pretty_N_go_app x s t : pretty_N_go x s ++ t = pretty_N_go x (s ++ t).
Proof.
  revert s. induction (N.lt_wf_0 x) as [x _ IH]; intros s.
  assert (x = 0 \/ 0 < x)%N as [->|Hpos] by lia.
  - rewrite !pretty_N_go_0. reflexivity.
  - rewrite (pretty_N_go_step x s), (pretty_N_go_step x (s ++ t)) by done.
    rewrite IH by (by apply N.div_lt). reflexivity.
Qed.

(** Reading back the digits that [pretty_N_go] wrote. *)
Lemma digitsPrefix_pretty_N_go x s seen :
  (0 < x)%N ->
  digitsPrefix 0 seen (pretty_N_go x s) = digitsPrefix (Z.of_N x) true s.
Proof.
  revert s seen. induction (N.lt_wf_0 x) as [x _ IH]; intros s seen Hpos.
  rewrite pretty_N_go_step by done.
  destruct (pretty_N_char_digit (x `mod` 10)%N) as [Hdig Hval];
    [by apply N.mod_lt|].
  assert (Z.of_N x = 10 * Z.of_N (x `div` 10) + Z.of_N (x `mod` 10))%Z as Hx.
  { rewrite <- N2Z.inj_mul with (n := 10%N), <- N2Z.inj_add. f_equal.
    apply N.div_mod. done. }
  destruct (N.eq_0_gt_0_cases (x `div` 10)) as [H0|Hq].
  - rewrite H0, pretty_N_go_0. cbn [digitsPrefix]. rewrite Hdig, Hval.
    rewrite Hx, H0. reflexivity.
  - rewrite IH by (done || by apply N.div_lt).
    cbn [digitsPrefix]. rewrite Hdig, Hval, Hx. reflexivity.
Qed.

Lemma pretty_N_go_head x s :
  (0 < x)%N ->
  exists c s', pretty_N_go x s = String c s' /\ isDigit c = true.
Proof.
  revert s. induction (N.lt_wf_0 x) as [x _ IH]; intros s Hpos.
  rewrite pretty_N_go_step by done.
  destruct (N.eq_0_gt_0_cases (x `div` 10)) as [H0|Hq].
  - rewrite H0, pretty_N_go_0. eexists _, _. split; [reflexivity|].
    apply pretty_N_char_digit. by apply N.mod_lt.
  - apply IH; [by apply N.div_lt|done].
Qed.

Lemma allDigits_pretty_N_go x s :
  allDigits s = true -> allDigits (pretty_N_go x s) = true.
Proof.
  revert s. induction (N.lt_wf_0 x) as [x _ IH]; intros s Hs.
  assert (x = 0 \/ 0 < x)%N as [->|Hpos] by lia.
  - by rewrite pretty_N_go_0.
  - rewrite pretty_N_go_step by done. apply IH; [by apply N.div_lt|].
    cbn [allDigits]. rewrite Hs.
    destruct (pretty_N_char_digit (x `mod` 10)%N) as [-> _];
      [by apply N.mod_lt|reflexivity].
Qed.

(** A tail at which the reading of digits stops. *)
Lemma digitsPrefix_stop acc rest :
  match rest with String c _ => isDigit c = false | EmptyString => True end ->
  digitsPrefix acc true rest = Some acc.
Proof.
  destruct rest as [|c rest]; [done|]. intros H. cbn [digitsPrefix]. by rewrite H.
Qed.

Lemma parseInt_pretty_N x rest :
  match rest with String c _ => isDigit c = false | EmptyString => True end ->
  parseInt (pretty x ++ rest) = Some (Z.of_N x).
Proof.
  intros Hrest. unfold pretty, pretty_N. case_decide as Hx.
  - subst x. exact (digitsPrefix_stop 0 rest Hrest).
  - assert (0 < x)%N as Hpos by lia.
    rewrite pretty_N_go_app.
    destruct (pretty_N_go_head x (EmptyString ++ rest) Hpos) as (c & s' & Heq & Hc).
    destruct (isDigit_plain c Hc) as (Hws & Hminus & Hplus & _).
    unfold parseInt. rewrite Heq. cbn [trimStart]. rewrite Hws, Hminus, Hplus.
    rewrite <- Heq, digitsPrefix_pretty_N_go by done.
    apply digitsPrefix_stop. exact Hrest.
Qed.

(** [parseInt(String(n) + rest, 10)] is [n] when [rest] does not go on
    with a digit. *)
Lemma parseInt_numToString n rest :
  match rest with String c _ => isDigit c = false | EmptyString => True end ->
  parseInt (numToString n ++ rest) = Some n.
Proof.
  intros Hrest. unfold numToString, pretty, pretty_Z.
  destruct n as [|p|p].
  - exact (digitsPrefix_stop 0 rest Hrest).
  - apply (parseInt_pretty_N (Npos p) rest Hrest).
  - pose proof (parseInt_pretty_N (Npos p) rest Hrest) as H.
    unfold parseInt in *. change (("-" +:+ pretty p) ++ rest)
      with (String "-" (pretty (Npos p) ++ rest)).
    cbn [trimStart]. change (isWhiteSpace "-") with false. cbn iota.
    change (Ascii.eqb "-" "-") with true. cbn iota.
    unfold pretty at 1 in H. unfold pretty_N in H. unfold pretty, pretty_positive, pretty, pretty_N.
    case_decide as Hx; [discriminate Hx|].
    rewrite pretty_N_go_app in *.
    destruct (pretty_N_go_head (Npos p) (EmptyString ++ rest) eq_refl)
      as (c & s' & Heq & Hc).
    destruct (isDigit_plain c Hc) as (Hws & Hminus & Hplus & _).
    rewrite Heq in H. cbn [trimStart] in H. rewrite Hws, Hminus, Hplus in H.
    rewrite Heq, H. reflexivity.
Qed.

End Numbers.

(** ** [trim] *)
Section Trimming.
Import JS.
Implicit Types (s t a b : string).
#[local] Arguments String.append !s1 s2 : simpl nomatch.

Lemma trimEnd_cons c s :
  trimEnd (String c s)
  = match trimEnd s with
    | EmptyString => if isWhiteSpace c then EmptyString else String c EmptyString
    | t => String c t
    end.
Proof. reflexivity. Qed.

(** A string that starts with a unit that is kept. *)
Lemma trimEnd_head c s :
  isWhiteSpace c = false -> exists t, trimEnd (String c s) = String c t.
Proof.
  intros Hc. rewrite trimEnd_cons. destruct (trimEnd s) as [|d t].
  - rewrite Hc. by eexists.
  - by eexists.
Qed.

Lemma trimStart_head c s :
  isWhiteSpace c = false -> trimStart (String c s) = String c s.
Proof. intros Hc. cbn [trimStart]. by rewrite Hc. Qed.

Lemma trimStart_shape s :
  trimStart s = EmptyString
  \/ exists c t, trimStart s = String c t /\ isWhiteSpace c = false.
Proof.
  induction s as [|c s IH]; [by left|]. cbn [trimStart].
  destruct (isWhiteSpace c) eqn:Hc; [exact IH|]. right. by exists c, s.
Qed.

Lemma trimStart_idemp s : trimStart (trimStart s) = trimStart s.
Proof.
  destruct (trimStart_shape s) as [->|(c & t & -> & Hc)]; [reflexivity|].
  by apply trimStart_head.
Qed.

Lemma trimEnd_idemp s : trimEnd (trimEnd s) = trimEnd s.
Proof.
  induction s as [|c s IH]; [reflexivity|]. rewrite trimEnd_cons.
  destruct (trimEnd s) as [|d t] eqn:Ht.
  - destruct (isWhiteSpace c) eqn:Hc; [reflexivity|].
    rewrite trimEnd_cons. cbn [trimEnd]. by rewrite Hc.
  - rewrite trimEnd_cons, IH. reflexivity.
Qed.

Lemma trimStart_trimEnd s : trimStart (trimEnd s) = trimEnd (trimStart s).
Proof.
  induction s as [|c s IH]; [reflexivity|].
  destruct (isWhiteSpace c) eqn:Hc.
  - cbn [trimStart]. rewrite Hc, <- IH, trimEnd_cons.
    destruct (trimEnd s) as [|d t]; [by rewrite Hc|].
    cbn [trimStart]. by rewrite Hc.
  - rewrite (trimStart_head c s Hc).
    destruct (trimEnd_head c s Hc) as [t ->]. by apply trimStart_head.
Qed.

Lemma trim_idemp s : trim (trim s) = trim s.
Proof.
  unfold trim. rewrite trimStart_trimEnd, trimStart_idemp, trimEnd_idemp. reflexivity.
Qed.

Lemma trim_trimStart s : trim s = s -> trimStart s = s.
Proof.
  intros H. rewrite <- H at 1. unfold trim.
  rewrite trimStart_trimEnd, trimStart_idemp. exact H.
Qed.

Lemma trim_trimEnd s : trim s = s -> trimEnd s = s.
Proof.
  intros H. rewrite <- H at 1. unfold trim. rewrite trimEnd_idemp. exact H.
Qed.

(** Strings of white space only. *)
Lemma trimEnd_blank s : trimStart s = EmptyString -> trimEnd s = EmptyString.
Proof.
  induction s as [|c s IH]; [done|]. cbn [trimStart].
  destruct (isWhiteSpace c) eqn:Hc; [|discriminate].
  intros H. rewrite trimEnd_cons, (IH H), Hc. reflexivity.
Qed.

Lemma trimStart_blank s : trimEnd s = EmptyString -> trimStart s = EmptyString.
Proof.
  induction s as [|c s IH]; [done|]. rewrite trimEnd_cons.
  destruct (trimEnd s) as [|d t]; [|discriminate].
  destruct (isWhiteSpace c) eqn:Hc; [|discriminate].
  intros _. cbn [trimStart]. rewrite Hc. by apply IH.
Qed.

Lemma trim_blank s : trim s = EmptyString <-> trimStart s = EmptyString.
Proof.
  unfold trim. split.
  - intros H. apply trimStart_blank in H. by rewrite trimStart_idemp in H.
  - intros ->. reflexivity.
Qed.

Lemma trimStart_app_blank a s :
  trimStart a = EmptyString -> trimStart (a ++ s) = trimStart s.
Proof.
  induction a as [|c a IH]; [done|]. rewrite app_cons_s. cbn [trimStart].
  destruct (isWhiteSpace c); [exact IH|discriminate].
Qed.

Lemma trimEnd_app_blank s b :
  trimEnd b = EmptyString -> trimEnd (s ++ b) = trimEnd s.
Proof.
  intros Hb. induction s as [|c s IH]; [exact Hb|].
  rewrite app_cons_s, !trimEnd_cons, IH. reflexivity.
Qed.

(** What [trim] takes away is white space at both ends. *)
Lemma trimStart_decompose s :
  exists a, s = a ++ trimStart s /\ trimStart a = EmptyString.
Proof.
  induction s as [|c s (a & Heq & Ha)]; [by exists EmptyString|].
  cbn [trimStart]. destruct (isWhiteSpace c) eqn:Hc.
  - exists (String c a). rewrite app_cons_s, <- Heq. split; [reflexivity|].
    cbn [trimStart]. by rewrite Hc.
  - by exists EmptyString.
Qed.

Lemma trimEnd_decompose s :
  exists b, s = trimEnd s ++ b /\ trimEnd b = EmptyString.
Proof.
  induction s as [|c s (b & Heq & Hb)]; [by exists EmptyString|].
  rewrite trimEnd_cons. destruct (trimEnd s) as [|d t] eqn:Ht.
  - destruct (isWhiteSpace c) eqn:Hc.
    + exists (String c s). split; [reflexivity|].
      rewrite trimEnd_cons, Ht, Hc. reflexivity.
    + exists b. rewrite app_cons_s. split; [by f_equal|exact Hb].
  - exists b. rewrite app_cons_s. split; [by f_equal|exact Hb].
Qed.

Lemma trim_decompose s :
  exists a b, s = a ++ trim s ++ b
              /\ trimStart a = EmptyString /\ trimEnd b = EmptyString.
Proof.
  destruct (trimStart_decompose s) as (a & Ha & Hablank).
  destruct (trimEnd_decompose (trimStart s)) as (b & Hb & Hbblank).
  exists a, b. unfold trim. rewrite <- Hb. auto.
Qed.

Lemma trim_framed a core b :
  trimStart a = EmptyString -> trimEnd b = EmptyString -> trim core = core ->
  trim (a ++ core ++ b) = core.
Proof.
  intros Ha Hb Hcore. unfold trim. rewrite (trimStart_app_blank _ _ Ha).
  destruct core as [|c core].
  - change (EmptyString ++ b) with b.
    rewrite <- trimStart_trimEnd, Hb. reflexivity.
  - pose proof (trim_trimStart _ Hcore) as Hs. pose proof (trim_trimEnd _ Hcore) as He.
    assert (isWhiteSpace c = false) as Hc.
    { cbn [trimStart] in Hs. destruct (isWhiteSpace c) eqn:Hc; [|reflexivity].
      exfalso. destruct (trimStart_decompose core) as (a' & Heq & _).
      rewrite Hs in Heq. apply (f_equal String.length) in Heq.
      rewrite length_app_s in Heq. cbn in Heq. lia. }
    rewrite app_cons_s, (trimStart_head _ _ Hc), <- app_cons_s.
    rewrite (trimEnd_app_blank _ _ Hb). exact He.
Qed.

(** [trim] gives [core] exactly on [core] with white space around it. *)
Lemma trim_eq_iff s core :
  trim core = core ->
  (trim s = core
   <-> exists a b, s = a ++ core ++ b
                   /\ trimStart a = EmptyString /\ trimEnd b = EmptyString).
Proof.
  intros Hcore. split.
  - intros <-. apply trim_decompose.
  - intros (a & b & -> & Ha & Hb). by apply trim_framed.
Qed.

(** Reading digits does not depend on white space at the end. *)
Lemma digitsPrefix_trimEnd acc seen s :
  digitsPrefix acc seen (trimEnd s) = digitsPrefix acc seen s.
Proof.
  revert acc seen. induction s as [|c s IH]; intros acc seen; [reflexivity|].
  rewrite trimEnd_cons. destruct (trimEnd s) as [|d t] eqn:Ht.
  - destruct (isWhiteSpace c) eqn:Hc.
    + cbn [digitsPrefix]. destruct (isDigit c) eqn:Hd; [|reflexivity].
      destruct (isDigit_plain c Hd) as [Hws _]. congruence.
    + cbn [digitsPrefix]. destruct (isDigit c); [|reflexivity].
      rewrite <- IH. reflexivity.
  - cbn [digitsPrefix]. destruct (isDigit c); [|reflexivity]. by rewrite <- IH.
Qed.

(** [parseInt(s.trim(), 10)] is [parseInt(s, 10)]. *)
Lemma parseInt_trim s : parseInt (trim s) = parseInt s.
Proof.
  unfold parseInt, trim. rewrite trimStart_trimEnd, trimStart_idemp.
  destruct (trimStart_shape s) as [->|(c & t & -> & Hc)]; [reflexivity|].
  rewrite trimEnd_cons. destruct (trimEnd t) as [|d u] eqn:Ht.
  - rewrite Hc. destruct (Ascii.eqb c "-"); [|destruct (Ascii.eqb c "+")].
    + f_equal. rewrite <- (digitsPrefix_trimEnd _ _ t), Ht. reflexivity.
    + rewrite <- (digitsPrefix_trimEnd _ _ t), Ht. reflexivity.
    + rewrite <- (digitsPrefix_trimEnd _ _ (String c t)), trimEnd_cons, Ht, Hc.
      reflexivity.
  - destruct (Ascii.eqb c "-"); [|destruct (Ascii.eqb c "+")].
    + f_equal. rewrite <- (digitsPrefix_trimEnd _ _ t), Ht. reflexivity.
    + rewrite <- (digitsPrefix_trimEnd _ _ t), Ht. reflexivity.
    + rewrite <- (digitsPrefix_trimEnd _ _ (String c t)), trimEnd_cons, Ht.
      reflexivity.
Qed.

End Trimming.

(** ** [includes], [lastIndexOf] and [substring] *)
Section Searching.
Import JS.
Implicit Types (s t a b pat : string).
#[local] Arguments String.append !s1 s2 : simpl nomatch.

Lemma indexOf_0 s pat : indexOf s pat 0 = search pat s 0.
Proof. unfold indexOf. cbn [Nat.min]. by rewrite drop_0. Qed.

(** [s.includes(pat)] holds exactly when [pat] occurs in [s]. *)
Lemma includes_iff s pat :
  includes s pat = true <-> exists a b, s = a ++ pat ++ b.
Proof.
  unfold includes. rewrite indexOf_0. split.
  - destruct (search pat s 0) as [n|] eqn:Hs; [|discriminate]. intros _.
    destruct (search_Some _ _ _ _ Hs) as (k & _ & _ & Hp & _).
    exists (take k s), (drop (String.length pat) (drop k s)).
    rewrite <- (prefix_true _ _ Hp). symmetry. apply take_drop.
  - intros (a & b & ->). destruct (search pat (a ++ pat ++ b) 0) eqn:Hs; [reflexivity|].
    pose proof (search_None _ _ _ Hs (String.length a)) as Hno.
    rewrite drop_app_length, prefix_app in Hno.
    rewrite length_app_s in Hno. discriminate Hno. lia.
Qed.

Lemma lastIndexOfFrom_None c i j s :
  lastIndexOfFrom c i s = None -> lastIndexOfFrom c j s = None.
Proof.
  revert i j. induction s as [|d s IH]; intros i j; [done|]. cbn [lastIndexOfFrom].
  destruct (lastIndexOfFrom c (S i) s) eqn:Hi; [discriminate|].
  rewrite (IH _ (S j) Hi). destruct (Ascii.eqb c d); [discriminate|done].
Qed.

(** The last [c] of [dir ++ c ++ file], when [file] has none. *)
Lemma lastIndexOfFrom_app c i dir file :
  lastIndexOfFrom c 0 file = None ->
  lastIndexOfFrom c i (dir ++ String c file) = Some (i + String.length dir).
Proof.
  intros Hfile. revert i. induction dir as [|d dir IH]; intros i.
  - change (EmptyString ++ String c file) with (String c file).
    cbn [lastIndexOfFrom String.length].
    rewrite (lastIndexOfFrom_None _ _ (S i) _ Hfile), Ascii.eqb_refl.
    f_equal. lia.
  - rewrite app_cons_s. cbn [lastIndexOfFrom String.length]. rewrite IH.
    f_equal. lia.
Qed.

Lemma lastIndexOfFrom_app_None c i s t :
  lastIndexOfFrom c i (s ++ t) = None
  <-> lastIndexOfFrom c i s = None /\ lastIndexOfFrom c i t = None.
Proof.
  revert i. induction s as [|d s IH]; intros i.
  - change (EmptyString ++ t) with t. cbn [lastIndexOfFrom]. tauto.
  - rewrite app_cons_s. cbn [lastIndexOfFrom].
    destruct (lastIndexOfFrom c (S i) (s ++ t)) eqn:Hst.
    + split; [discriminate|]. intros [Hs Ht].
      destruct (lastIndexOfFrom c (S i) s) eqn:Hs'; [discriminate|].
      assert (lastIndexOfFrom c (S i) (s ++ t) = None) as Hn.
      { apply IH. split; [done|]. by apply (lastIndexOfFrom_None _ i). }
      congruence.
    + apply IH in Hst as [Hs Ht]. rewrite Hs.
      destruct (Ascii.eqb c d); [split; [discriminate|intros [? _]; discriminate]|].
      split; [|done]. intros _. split; [done|]. by apply (lastIndexOfFrom_None _ (S i)).
Qed.

(** [p.substring(0, p.lastIndexOf('/'))] is the directory of a path whose
    last component has no slash, and is empty for a path without slash. *)
Lemma substring_lastIndexOf dir file :
  lastIndexOf file "/" = None ->
  substring (dir ++ "/" ++ file) 0 (default 0 (lastIndexOf (dir ++ "/" ++ file) "/")) = dir.
Proof.
  intros Hfile. unfold lastIndexOf in *.
  change ("/" ++ file) with (String "/" file).
  rewrite (lastIndexOfFrom_app _ 0 dir file Hfile). cbn [default Nat.add].
  unfold substring, id. rewrite length_app_s. cbn [String.length].
  rewrite !Nat.min_0_l, (Nat.min_l (String.length dir)) by lia.
  rewrite Nat.max_0_l, Nat.sub_0_r, drop_0.
  apply take_app_length.
Qed.

Lemma substring_lastIndexOf_None p :
  lastIndexOf p "/" = None ->
  substring p 0 (default 0 (lastIndexOf p "/")) = EmptyString.
Proof.
  intros ->. unfold substring. cbn [default Nat.min Nat.max Nat.sub take].
  by destruct (drop 0 p).
Qed.

End Searching.

(** ** The probes and the download, on any connection *)
Section RemoteProperties.
Import Remote ServerSetup ServerDownload Provision Fixtures.
Implicit Types (env : Env Remote.Ret) (log : list (Event Remote.Ret)).

Lemma parseInt_app_blank a s :
  JS.trimStart a = EmptyString -> JS.parseInt (a ++ s) = JS.parseInt s.
Proof. intros Ha. unfold JS.parseInt. by rewrite trimStart_app_blank. Qed.

Lemma parseInt_blank s : JS.trimStart s = EmptyString -> JS.parseInt s = None.
Proof. intros Hs. unfold JS.parseInt. by rewrite Hs. Qed.

(** X5: [getRemoteFileSize] reads the integer at the start of what the
    command prints: for an output that is white space, the decimal text
    of [n] and then anything that does not go on with a digit (the line
    break that [wc] prints, or more text), it returns [n].  An output of
    white space only, which is what the command prints when the file is
    missing, gives [undefined].  A rejected [exec] is rethrown. *)
Theorem getRemoteFileSize_reads_leading_integer env log remotePath :
  let q := connExec (sizeCommand remotePath) in
  let out := run env log (getRemoteFileSize remotePath tt) in
  (forall res a n rest,
      env log q = Fulfilled res ->
      (Z.abs n < 2 ^ 53)%Z ->
      stdout res = a ++ JS.numToString n ++ rest ->
      JS.trimStart a = EmptyString ->
      match rest with String c _ => JS.isDigit c = false | EmptyString => True end ->
      out.1.1 = Fulfilled (Some n))
  /\ (forall res,
         env log q = Fulfilled res ->
         JS.trimStart (stdout res) = EmptyString ->
         out.1.1 = Fulfilled None)
  /\ (forall e, env log q = Rejected e -> out.1.1 = Rejected e).
Proof.
  cbv zeta. rewrite run_getRemoteFileSize. cbv zeta. cbn [fst].
  split; [|split].
  - intros res a n rest Hq _ Hout Ha Hrest. rewrite Hq. unfold sizeOf.
    rewrite parseInt_trim, Hout, (parseInt_app_blank _ _ Ha).
    by rewrite (parseInt_numToString n rest Hrest).
  - intros res Hq Hblank. rewrite Hq. unfold sizeOf.
    by rewrite parseInt_trim, (parseInt_blank _ Hblank).
  - intros e Hq. by rewrite Hq.
Qed.

Lemma getRemoteFileSize_reads_leading_integer_witness :
  (run (printing ("  52428800 /srv/server.tar.gz" ++ nl)) []
     (getRemoteFileSize "/srv/server.tar.gz" tt)).1.1
  = Fulfilled (Some 52428800%Z).
Proof.
  refine (proj1 (getRemoteFileSize_reads_leading_integer
                   (printing ("  52428800 /srv/server.tar.gz" ++ nl)) []
                   "/srv/server.tar.gz")
            _ "  " 52428800%Z (" /srv/server.tar.gz" ++ nl) eq_refl _ eq_refl eq_refl eq_refl).
  reflexivity.
Defined.

(** X6: [resolveRemoteHomeDir] runs one command.  It throws [Unable to
    resolve remote home directory] exactly when the command prints
    white space only; otherwise it returns what was printed without the
    white space around it, so that the directory it returns is never
    empty and neither starts nor ends with white space. *)
Theorem resolveRemoteHomeDir_trimmed env log :
  let q := connExec Install.homeCommand in
  let out := run env log (Install.resolveRemoteHomeDir tt) in
  out.2 = (log ++ [mkEvent q (env log q)])%list
  /\ (forall e, env log q = Rejected e -> out.1.1 = Rejected e)
  /\ (forall res,
         env log q = Fulfilled res ->
         (JS.trimStart (stdout res) = EmptyString
          -> out.1.1
             = Rejected (ServerInstallError "Unable to resolve remote home directory"))
         /\ (JS.trimStart (stdout res) <> EmptyString
             -> exists home a b,
                 out.1.1 = Fulfilled home
                 /\ home <> EmptyString /\ JS.trim home = home
                 /\ stdout res = a ++ home ++ b
                 /\ JS.trimStart a = EmptyString /\ JS.trimEnd b = EmptyString)).
Proof.
  cbv zeta. unfold Install.resolveRemoteHomeDir. rewrite run_bind, run_exec_remote.
  destruct (env log (connExec Install.homeCommand)) as [res|e] eqn:Hq.
  - cbv beta iota zeta. case_decide as Hhome; cbn [run fst snd throw ret].
    + split; [reflexivity|]. split; [intros e He; discriminate He|].
      intros res' [= <-]. split; [reflexivity|].
      intros Hne. apply trim_blank in Hhome. contradiction.
    + split; [reflexivity|]. split; [intros e He; discriminate He|].
      intros res' [= <-]. split.
      * intros Hblank. apply trim_blank in Hblank. contradiction.
      * intros _. destruct (trim_decompose (stdout res)) as (a & b & Heq & Ha & Hb).
        exists (JS.trim (stdout res)), a, b.
        repeat split; [exact Hhome|apply trim_idemp|exact Heq|exact Ha|exact Hb].
  - cbn [fst snd]. split; [reflexivity|]. split; [by intros e' [= <-]|].
    intros res Hres. discriminate Hres.
Qed.

Lemma resolveRemoteHomeDir_trimmed_witness :
  (exists home a b,
      (run (printing ("  /home/dev" ++ nl)) [] (Install.resolveRemoteHomeDir tt)).1.1
      = Fulfilled home
      /\ home <> EmptyString /\ JS.trim home = home
      /\ "  /home/dev" ++ nl = a ++ home ++ b
      /\ JS.trimStart a = EmptyString /\ JS.trimEnd b = EmptyString)
  /\ (run (printing nl) [] (Install.resolveRemoteHomeDir tt)).1.1
     = Rejected (ServerInstallError "Unable to resolve remote home directory").
Proof.
  split.
  - refine (proj2 (proj2 (proj2 (resolveRemoteHomeDir_trimmed
                                   (printing ("  /home/dev" ++ nl)) []))
                     _ eq_refl) _).
    discriminate.
  - exact (proj1 (proj2 (proj2 (resolveRemoteHomeDir_trimmed (printing nl) []))
                    _ eq_refl) eq_refl).
Defined.

Lemma run_report env log increment message :
  run env log (report increment message tt)
  = (Fulfilled tt, tt,
     (log ++ [mkEvent (progressReport increment message)
                (env log (progressReport increment message))])%list).
Proof. reflexivity. Qed.

Lemma highest_cons lastPercent line lines :
  highest lastPercent (line :: lines)
  = highest (match percentOf line with
             | Some p => Z.max lastPercent p
             | None => lastPercent
             end) lines.
Proof. reflexivity. Qed.

Lemma highest_ge lastPercent lines : (lastPercent <= highest lastPercent lines)%Z.
Proof.
  revert lastPercent. induction lines as [|line lines IH]; intros lastPercent.
  - reflexivity.
  - rewrite highest_cons. destruct (percentOf line) as [p|]; [|apply IH].
    etrans; [|apply IH]. lia.
Qed.

(** The loop always returns, and talks to the progress object only. *)
Lemma run_reportProgress env log lastPercent lines :
  exists evs,
    run env log (reportProgress lastPercent lines tt) = (Fulfilled tt, tt, (log ++ evs)%list)
    /\ Forall (fun ev => exists increment message,
                   ev_op ev = progressReport increment message) evs.
Proof.
  revert log lastPercent. induction lines as [|line lines IH]; intros log lastPercent.
  - exists []. rewrite app_nil_r. split; [reflexivity|constructor].
  - cbn [reportProgress].
    destruct (JS.startsWith line "PROGRESS:"); [|apply IH].
    destruct (JS.parseInt (JS.substring line 9 (String.length line))) as [percent|];
      [|apply IH].
    destruct (lastPercent <? percent)%Z; [|apply IH].
    rewrite run_bind, run_report.
    destruct (IH (log ++ [mkEvent
                            (progressReport (percent - lastPercent)
                               (JS.numToString percent ++ "% complete"))
                            (env log (progressReport (percent - lastPercent)
                                        (JS.numToString percent ++ "% complete")))])%list
                 percent) as (evs & Hrun & Hall).
    eexists (_ :: evs). rewrite Hrun, <- app_assoc. split; [reflexivity|].
    constructor; [by eexists _, _|exact Hall].
Qed.

Lemma newHigh_skip lastPercent q percents percent :
  (q <= lastPercent)%Z ->
  newHigh lastPercent (q :: percents) percent <-> newHigh lastPercent percents percent.
Proof.
  intros Hq. split.
  - intros (before & after & Heq & Hlt & Hall). destruct before as [|b before].
    + injection Heq as -> _. lia.
    + injection Heq as -> Heq. inversion Hall as [|? ? _ Hall']; subst.
      by exists before, after.
  - intros (before & after & -> & Hlt & Hall). exists (q :: before), after.
    split; [reflexivity|]. split; [exact Hlt|]. constructor; [lia|exact Hall].
Qed.

Lemma newHigh_take lastPercent q percents percent :
  (lastPercent < q)%Z ->
  newHigh lastPercent (q :: percents) percent
  <-> percent = q \/ newHigh q percents percent.
Proof.
  intros Hq. split.
  - intros (before & after & Heq & Hlt & Hall). destruct before as [|b before].
    + injection Heq as -> _. by left.
    + injection Heq as -> Heq. inversion Hall as [|? ? Hb Hall']; subst.
      right. by exists before, after.
  - intros [->|(before & after & -> & Hlt & Hall)].
    + exists [], percents. split; [reflexivity|]. split; [exact Hq|constructor].
    + exists (q :: before), after. split; [reflexivity|]. split; [lia|].
      constructor; [exact Hlt|exact Hall].
Qed.

Lemma reportProgress_cons lastPercent line lines :
  reportProgress lastPercent (line :: lines)
  = match percentOf line with
    | Some percent =>
        if (lastPercent <? percent)%Z then
          (report (percent - lastPercent) (JS.numToString percent ++ "% complete");;
           reportProgress percent lines)
        else reportProgress lastPercent lines
    | None => reportProgress lastPercent lines
    end.
Proof.
  unfold percentOf. cbn [reportProgress].
  destruct (JS.startsWith line "PROGRESS:"); reflexivity.
Qed.

(** X7: the loop over the download output reports each new highest
    percentage once, in the order of the output, and nothing else.
    For percentages that are safe integers: the calls to the progress
    object are, for the percentages [highs] that stand above the
    starting one and above everything before them in the output,
    [report(p - previous, "p% complete")] with [previous] the
    percentage reported before [p] (the starting one for the first);
    [highs] is strictly increasing, so that a line that repeats a
    percentage or goes back is not reported, and neither is a line that
    does not parse.  The increments are positive and add up to the
    distance from the starting percentage to the highest percentage of
    the output.  The loop always completes. *)
Theorem reportProgress_total env log lastPercent lines :
  (0 <= lastPercent < 2 ^ 53)%Z ->
  Forall (fun line => forall p, percentOf line = Some p -> (Z.abs p < 2 ^ 53)%Z) lines ->
  exists evs highs,
    run env log (reportProgress lastPercent lines tt) = (Fulfilled tt, tt, (log ++ evs)%list)
    /\ ev_op <$> evs = zip_with reportOf (lastPercent :: highs) highs
    /\ StronglySorted Z.lt (lastPercent :: highs)
    /\ (forall p, p ∈ highs <-> newHigh lastPercent (omap percentOf lines) p)
    /\ Forall (fun increment => (0 < increment)%Z) (increments evs)
    /\ (lastPercent + foldr Z.add 0 (increments evs) = highest lastPercent lines)%Z.
Proof.
  intros _ _. revert log lastPercent.
  induction lines as [|line lines IH]; intros log lastPercent.
  - exists [], []. rewrite app_nil_r. split; [reflexivity|]. split; [reflexivity|].
    split; [repeat constructor|]. split.
    + intros p. split; [intros Hin; by apply elem_of_nil in Hin|].
      intros (before & after & Heq & _). by destruct before.
    + split; [constructor|]. cbn. lia.
  - rewrite highest_cons, reportProgress_cons.
    change (omap percentOf (line :: lines))
      with (match percentOf line with
            | Some p => p :: omap percentOf lines
            | None => omap percentOf lines
            end).
    destruct (percentOf line) as [percent|]; [|apply IH].
    destruct (lastPercent <? percent)%Z eqn:Hlt.
    + apply Z.ltb_lt in Hlt. rewrite run_bind, run_report.
      destruct (IH (log ++ [mkEvent (reportOf lastPercent percent)
                              (env log (reportOf lastPercent percent))])%list
                   percent) as (evs & highs & Hrun & Hops & Hsorted & Hhighs & Hpos & Hsum).
      rewrite Z.max_r by lia.
      exists (mkEvent (reportOf lastPercent percent)
                (env log (reportOf lastPercent percent)) :: evs), (percent :: highs).
      unfold reportOf in Hrun |- *. rewrite Hrun, <- app_assoc.
      split; [reflexivity|]. split; [cbn; by rewrite Hops|]. split.
      * constructor; [exact Hsorted|]. constructor; [exact Hlt|].
        inversion Hsorted as [|? ? _ Hall]; subst.
        eapply Forall_impl; [exact Hall|]. intros q Hq. cbn in Hq. lia.
      * split.
        -- intros p. rewrite (newHigh_take _ _ _ _ Hlt), elem_of_cons, Hhighs. tauto.
        -- split.
           ++ constructor; [lia|exact Hpos].
           ++ match goal with
              | |- context [foldr Z.add 0%Z (increments (?ev :: evs))] =>
                  change (foldr Z.add 0%Z (increments (ev :: evs)))
                    with ((percent - lastPercent) + foldr Z.add 0 (increments evs))%Z
              end.
              clear -Hsum. lia.
    + apply Z.ltb_ge in Hlt. rewrite Z.max_l by lia.
      destruct (IH log lastPercent)
        as (evs & highs & Hrun & Hops & Hsorted & Hhighs & Hpos & Hsum).
      exists evs, highs. split; [exact Hrun|]. split; [exact Hops|].
      split; [exact Hsorted|]. split; [|by split].
      intros p. rewrite (newHigh_skip _ _ _ _ Hlt). apply Hhighs.
Qed.

Lemma reportProgress_total_witness :
  exists evs highs,
    run (printing "") []
      (reportProgress 0 ["PROGRESS:40"; "PROGRESS:40"; "curl: retrying";
                         "PROGRESS:30"; "PROGRESS:100"] tt)
    = (Fulfilled tt, tt, ([] ++ evs)%list)
    /\ ev_op <$> evs = zip_with reportOf (0%Z :: highs) highs
    /\ StronglySorted Z.lt (0%Z :: highs)
    /\ (forall p, p ∈ highs
                  <-> newHigh 0 (omap percentOf
                                   ["PROGRESS:40"; "PROGRESS:40"; "curl: retrying";
                                    "PROGRESS:30"; "PROGRESS:100"]) p)
    /\ Forall (fun increment => (0 < increment)%Z) (increments evs)
    /\ (0 + foldr Z.add 0 (increments evs)
        = highest 0 ["PROGRESS:40"; "PROGRESS:40"; "curl: retrying";
                     "PROGRESS:30"; "PROGRESS:100"])%Z.
Proof.
  apply (reportProgress_total (printing "") [] 0
           ["PROGRESS:40"; "PROGRESS:40"; "curl: retrying"; "PROGRESS:30"; "PROGRESS:100"]).
  - split; reflexivity.
  - repeat constructor; intros p Hp; vm_compute in Hp;
      first [discriminate Hp | injection Hp as <-; reflexivity].
Defined.

(** X8: [downloadServerOnRemote] for a destination [dir/file] first
    runs [mkdir -p 'dir'] and then the download script; a rejected
    command ends it at once.  When both commands return, the call
    succeeds exactly when [DOWNLOAD_COMPLETE] occurs somewhere in the
    output of the script, and otherwise throws [Download failed:] with
    the [stderr] of the script or [Unknown error]; after the script it
    only talks to the progress object. *)
Theorem downloadServerOnRemote_outcome env log url dir file :
  JS.lastIndexOf file "/" = None ->
  let destPath := dir ++ "/" ++ file in
  let mk := connExec ("mkdir -p '" ++ dir ++ "'") in
  let dl := connExec ("bash -c '" ++ JS.escapeQuotes (downloadScript url destPath) ++ "'") in
  let out := run env log (downloadServerOnRemote url destPath tt) in
  match env log mk with
  | Rejected e => out = (Rejected e, tt, (log ++ [mkEvent mk (Rejected e)])%list)
  | Fulfilled r1 =>
      let log1 := (log ++ [mkEvent mk (Fulfilled r1)])%list in
      match env log1 dl with
      | Rejected e => out = (Rejected e, tt, (log1 ++ [mkEvent dl (Rejected e)])%list)
      | Fulfilled r2 =>
          (out.1.1 = Fulfilled tt
           <-> exists a b, stdout r2 = a ++ "DOWNLOAD_COMPLETE" ++ b)
          /\ (out.1.1 = Fulfilled tt
              \/ out.1.1 = Rejected (Error ("Download failed: " ++ stderrOrUnknown r2)))
          /\ exists evs,
              out.2 = (log1 ++ [mkEvent dl (Fulfilled r2)] ++ evs)%list
              /\ Forall (fun ev => exists increment message,
                             ev_op ev = progressReport increment message) evs
      end
  end.
Proof.
  intros Hfile. cbv zeta. unfold downloadServerOnRemote.
  rewrite (substring_lastIndexOf dir file Hfile).
  rewrite run_bind, run_exec_remote.
  destruct (env log (connExec ("mkdir -p '" ++ dir ++ "'"))) as [r1|e]; [|reflexivity].
  rewrite run_bind, run_exec_remote.
  destruct (env _ (connExec ("bash -c '" ++ _ ++ "'"))) as [r2|e]; [|reflexivity].
  rewrite run_bind.
  destruct (run_reportProgress env
              ((log ++ [mkEvent (connExec ("mkdir -p '" ++ dir ++ "'")) (Fulfilled r1)])
               ++ [mkEvent
                     (connExec ("bash -c '"
                                ++ JS.escapeQuotes (downloadScript url (dir ++ "/" ++ file))
                                ++ "'")) (Fulfilled r2)])%list
              0%Z (JS.split (stdout r2) (String JS.LF EmptyString)))
    as (evs & -> & Hall).
  pose proof (includes_iff (stdout r2) "DOWNLOAD_COMPLETE") as Hinc.
  destruct (JS.includes (stdout r2) "DOWNLOAD_COMPLETE"); cbn [negb run fst snd throw ret].
  - split; [split; [intros _; by apply Hinc|reflexivity]|].
    split; [by left|]. exists evs. by rewrite <- app_assoc.
  - split.
    + split; [discriminate|]. intros Hex. apply Hinc in Hex. discriminate Hex.
    + split; [by right|]. exists evs. by rewrite <- app_assoc.
Qed.

Lemma downloadServerOnRemote_outcome_witness :
  (run (printing ("PROGRESS:40" ++ nl ++ "PROGRESS:100" ++ nl ++ "DOWNLOAD_COMPLETE" ++ nl)) []
     (downloadServerOnRemote "https://example.org/s.tar.gz"
        ("/home/dev/.uplink/cache" ++ "/" ++ "server.tar.gz") tt)).1.1
  = Fulfilled tt.
Proof.
  refine (proj2 (proj1 (downloadServerOnRemote_outcome
            (printing ("PROGRESS:40" ++ nl ++ "PROGRESS:100" ++ nl
                       ++ "DOWNLOAD_COMPLETE" ++ nl)) []
            "https://example.org/s.tar.gz" "/home/dev/.uplink/cache" "server.tar.gz"
            eq_refl)) _).
  exists ("PROGRESS:40" ++ nl ++ "PROGRESS:100" ++ nl), nl. reflexivity.
Defined.

End RemoteProperties.
